(** * Verification of [src/main.js]: the debounce utility, the
      scroll-animation tracker, the scroll handler and the hamburger menu

    The embedding comes first, the proofs follow.

    - [Debounce] embeds [debounce(func, wait)] (main.js, lines 16-26) over an
      explicit model of the host's timer mechanism: [setTimeout] and
      [clearTimeout] on a queue of pending timers addressed by handle, the
      delay a host makes of the argument of [setTimeout] ([TimerHost]), and
      the tasks in which the wrapper is called, between which timers fire.
    - [Binary64] models the arithmetic of JavaScript numbers, rounding
      included.
    - [Tracker] embeds [isInViewport] (lines 34-45) and the class
      [ScrollAnimations] (lines 111-177) as state-passing JavaScript
      procedures that may complete normally or throw.
    - [ScrollHandler] composes the two as [bindScrollEvents] does
      (lines 138-145).
    - [Hamburger] embeds the class [HamburgerMenu] (lines 51-105).
    - [DebounceFacts], [Binary64Facts] and [TrackerFacts] hold the lemmas and
      the theorems of parts 3 and 4; [DebounceMore], [TrackerMore],
      [ScrollMore] and [HamburgerFacts] those of parts 5 to 8. *)

From Stdlib Require Import ZArith QArith Qminmax Lqa String Qpower Qround.
From Stdlib Require PrimFloat FloatOps SpecFloat.
From stdpp Require Import base option list gmap strings.

(** ** Part 1: debounce *)

Module Debounce.

(** *** The host's timers *)

(** What the program relies on of the host's [setTimeout]: the delay in
    milliseconds the host gives a timer that is set with the argument [d], a
    whole number of milliseconds.  Hosts keep the delay in a signed 32-bit
    integer, so the argument is taken as it is only from 1 to 2^31 - 1;
    outside this range hosts differ, and all that is used is that the delay
    is not negative and, for a positive argument, not longer than the
    argument.  The delay is the earliest time the timer may fire: a host
    that fires later (a throttled page, a busy event loop, the minimum
    interval of deeply nested timers) is a host of the histories of
    [Action] below, where a timer fires at any time from its due time
    on. *)
Class TimerHost := {
  timer_delay : Z → Z;
  timer_delay_nonneg : ∀ d, (0 ≤ timer_delay d)%Z;
  timer_delay_exact : ∀ d, (1 ≤ d ≤ 2147483647)%Z → timer_delay d = d;
  timer_delay_le : ∀ d, (0 < d)%Z → (timer_delay d ≤ d)%Z
}.

(** The conversion of an integer to a signed 32-bit integer, by wrapping. *)
Definition to_int32 (d : Z) : Z :=
  ((d + 2147483648) mod 4294967296 - 2147483648)%Z.

(** The HTML standard: the argument is converted to a signed 32-bit integer
    and a negative result counts as 0. *)
Definition html_delay (d : Z) : Z := Z.max 0 (to_int32 d).

(** Node.js: an argument below 1 or above 2^31 - 1 is replaced by 1. *)
Definition node_delay (d : Z) : Z :=
  if (1 <=? d)%Z && (d <=? 2147483647)%Z then d else 1%Z.

Section Debounce.

(** [Args] is the argument vector [...args] handed to the wrapper. *)
Context {Args : Type} {host : TimerHost}.

(** The callback a pending timer will run.  [Later a] is the closure
    [later] created by a call of the wrapper with arguments [a]
    (line 19); [Foreign] stands for a timer some other script put on the
    same host queue. *)
Inductive Callback :=
| Later (a : Args)
| Foreign.

Record Timer := mkTimer {
  handle : nat;
  due : Z;
  callback : Callback
}.

(** The host together with the closure created by one call of
    [debounce(func, wait)]: the clock (milliseconds), the next timer handle
    the host will hand out, the pending timers in creation order, the
    closure variable [timeout] (line 17; [None] is [undefined]) and the
    executions of [func] so far, each stamped with the clock. *)
Record Host := mkHost {
  now : Z;
  next_handle : nat;
  pending : list Timer;
  timeout : option nat;
  executions : list (Z * Args)
}.

Definition set_now (t : Z) (w : Host) : Host :=
  mkHost t (next_handle w) (pending w) (timeout w) (executions w).

Definition set_pending (q : list Timer) (w : Host) : Host :=
  mkHost (now w) (next_handle w) q (timeout w) (executions w).

Definition set_timeout (h : option nat) (w : Host) : Host :=
  mkHost (now w) (next_handle w) (pending w) h (executions w).

(** [clearTimeout(h)]: cancels the pending timer with handle [h]; a handle
    that is [undefined] or names no pending timer is ignored. *)
Definition cancel (h : nat) (q : list Timer) : list Timer :=
  filter (λ tm, handle tm ≠ h) q.

Definition clearTimeout (h : option nat) (w : Host) : Host :=
  match h with
  | None => w
  | Some h => set_pending (cancel h (pending w)) w
  end.

(** [setTimeout(cb, delay)]: queues [cb] to run once the clock reaches
    [now] plus the delay the host makes of the argument, and returns a fresh
    handle. *)
Definition setTimeout (cb : Callback) (delay : Z) (w : Host) : nat * Host :=
  let h := next_handle w in
  (h, mkHost (now w) (S h)
             (pending w ++ [mkTimer h (now w + timer_delay delay) cb])
             (timeout w) (executions w)).

(** [func(...args)], observed as an entry of the execution log. *)
Definition func (a : Args) (w : Host) : Host :=
  mkHost (now w) (next_handle w) (pending w) (timeout w)
         (executions w ++ [(now w, a)]).

Variable wait : Z.

(** Lines 19-22. *)
Definition later (a : Args) (w : Host) : Host :=
  func a (clearTimeout (timeout w) w).

(** Lines 18-25: the wrapper [executedFunction(...args)]. *)
Definition executedFunction (a : Args) (w : Host) : Host :=
  let w1 := clearTimeout (timeout w) w in
  let '(h, w2) := setTimeout (Later a) wait w1 in
  set_timeout (Some h) w2.

(** *** The host's timer loop *)

Definition run_callback (cb : Callback) (w : Host) : Host :=
  match cb with
  | Later a => later a w
  | Foreign => w
  end.

(** A timer fires: it leaves the queue, the clock is at least its due time,
    its callback runs. *)
Definition fire_at (t : Z) (tm : Timer) (w : Host) : Host :=
  run_callback (callback tm)
    (set_now (Z.max (now w) t) (set_pending (cancel (handle tm) (pending w)) w)).

(** The pending timer that is due first; among equal due times the one
    created first. *)
Fixpoint earliest (q : list Timer) : option Timer :=
  match q with
  | [] => None
  | tm :: q' =>
      match earliest q' with
      | Some tm' => if (due tm <=? due tm')%Z then Some tm else Some tm'
      | None => Some tm
      end
  end.

(** A punctual host between two tasks: every timer due by [t] fires exactly
    at its due time, in due order.  A firing callback of this program
    schedules nothing, so one unit of fuel per pending timer is enough. *)
Fixpoint run_timers (fuel : nat) (t : Z) (w : Host) : Host :=
  match fuel with
  | O => w
  | S fuel' =>
      match earliest (pending w) with
      | Some tm =>
          if (due tm <=? t)%Z then run_timers fuel' t (fire_at (due tm) tm w)
          else w
      | None => w
      end
  end.

(** The clock reaches [t] between two tasks, after the timers due by [t]
    have fired, and after those due before [t] only. *)
Definition advance (t : Z) (w : Host) : Host :=
  let w' := run_timers (length (pending w)) t w in
  set_now (Z.max (now w') t) w'.

Definition advance_before (t : Z) (w : Host) : Host :=
  let w' := run_timers (length (pending w)) (t - 1) w in
  set_now (Z.max (now w') t) w'.

(** Let every pending timer fire: the timer loop run up to the latest due
    time in the queue. *)
Definition horizon (q : list Timer) : Z :=
  fold_right (λ tm t, Z.max (due tm) t) 0%Z q.

Definition settle (w : Host) : Host :=
  run_timers (length (pending w)) (horizon (pending w)) w.

(** *** Scripts of calls *)

(** JavaScript runs a task to completion: no timer fires between two calls
    the same task makes, whatever the clock shows.  A call of a script is
    made by the task that made the call before it, or it is the first call
    of a later task; the host starts that task after the timers due before
    its time have fired, and it is the host's choice whether a timer due at
    that very time fires before the task or after it. *)
Inductive Turn :=
| SameTask
| NextTask (timers_first : bool).

(** A call of the wrapper: how it comes about, what the clock shows, the
    arguments. *)
Record Call := mkCall {
  turn : Turn;
  time : Z;
  args : Args
}.

Definition make_call (w : Host) (c : Call) : Host :=
  executedFunction (args c)
    match turn c with
    | SameTask => set_now (Z.max (now w) (time c)) w
    | NextTask true => advance (time c) w
    | NextTask false => advance_before (time c) w
    end.

Definition run_script (cs : list Call) (w : Host) : Host :=
  fold_left make_call cs w.

(** A script given by times and arguments only: every call is the only one
    of its task, and the timers due by its time fire first. *)
Definition own_task (c : Z * Args) : Call := mkCall (NextTask true) (fst c) (snd c).

Definition call_at (w : Host) (c : Z * Args) : Host := make_call w (own_task c).

Definition run_calls (cs : list (Z * Args)) (w : Host) : Host :=
  fold_left call_at cs w.

(** The time and the arguments of a call. *)
Definition called (c : Call) : Z * Args := (time c, args c).

(** The host just after [debounce(func, wait)] returned, at time [t0]. *)
Definition boot (t0 : Z) : Host := mkHost t0 0 [] None [].

(** *** Any host *)

(** What may happen on an arbitrary host: the wrapper is called at some
    time, the pending timer with a given handle fires at some time not
    before it is due, another script sets a timer or clears the timer with
    some handle, or time passes.  The clock never runs backwards; an action
    that cannot happen in the current state leaves it as it is.  No timer
    fires unless the history says so: two calls in a row are two calls of
    one task, or of two tasks between which the host ran no timer. *)
Inductive Action :=
| ACall (t : Z) (a : Args)
| AFire (h : nat) (t : Z)
| AForeignSet (delay : Z)
| AForeignClear (h : nat)
| ATick (t : Z).

Definition is_later (tm : Timer) : bool :=
  match callback tm with Later _ => true | Foreign => false end.

Definition lookup_timer (h : nat) (q : list Timer) : option Timer :=
  List.find (λ tm, handle tm =? h) q.

Definition act (w : Host) (x : Action) : Host :=
  match x with
  | ACall t a => executedFunction a (set_now (Z.max (now w) t) w)
  | AFire h t =>
      match lookup_timer h (pending w) with
      | Some tm => if (due tm <=? t)%Z then fire_at t tm w else w
      | None => w
      end
  | AForeignSet delay => snd (setTimeout Foreign delay w)
  | AForeignClear h => clearTimeout (Some h) w
  | ATick t => set_now (Z.max (now w) t) w
  end.

Definition run (xs : list Action) (w : Host) : Host := fold_left act xs w.

(** The scheduled executions of [func] that are outstanding, and the
    timers of other scripts. *)
Definition outstanding (w : Host) : list Timer :=
  filter (λ tm, is_later tm) (pending w).

Definition foreign (w : Host) : list Timer :=
  filter (λ tm, ¬ is_later tm) (pending w).

(** What the closure and the queue look like between events: handles are
    distinct and were handed out already, and a pending timer is a [later]
    exactly when it is the one [timeout] names. *)
Definition well_formed (w : Host) : Prop :=
  Forall (λ tm, handle tm < next_handle w) (pending w) ∧
  NoDup (map handle (pending w)) ∧
  Forall (λ tm, is_later tm ↔ timeout w = Some (handle tm)) (pending w) ∧
  ∀ h, timeout w = Some h → h < next_handle w.

(** The wrapper has nothing scheduled. *)
Definition idle (log : list (Z * Args)) (w : Host) : Prop :=
  well_formed w ∧ outstanding w = [] ∧ executions w = log.

(** One execution is outstanding, with arguments [a] and due at [d], not
    yet overdue, and [func] has run as [log] says. *)
Definition loaded (d : Z) (a : Args) (log : list (Z * Args)) (w : Host) : Prop :=
  well_formed w ∧
  (∃ h, outstanding w = [mkTimer h d (Later a)]) ∧
  (now w ≤ d)%Z ∧ executions w = log.

(** Consecutive calls less than [wait] apart, and more than [wait] apart. *)
Fixpoint burst (t : Z) (cs : list (Z * Args)) : Prop :=
  match cs with
  | [] => True
  | c :: cs' => (t ≤ fst c < t + wait)%Z ∧ burst (fst c) cs'
  end.

Fixpoint spaced (t : Z) (cs : list (Z * Args)) : Prop :=
  match cs with
  | [] => True
  | c :: cs' => (t + wait < fst c)%Z ∧ spaced (fst c) cs'
  end.

(** *** Any script of calls *)

(** The delay the host gives the wrapper's timers. *)
Definition delay : Z := timer_delay wait.

(** Call times that do not run backwards, from [t] on. *)
Fixpoint ascending (t : Z) (cs : list (Z * Args)) : Prop :=
  match cs with
  | [] => True
  | c :: cs' => (t ≤ fst c)%Z ∧ ascending (fst c) cs'
  end.

(** The call [next] supersedes a call made at time [t] before it: it is
    made by the same task, or by a task that starts before the timer of that
    call has fired. *)
Definition supersedes (t : Z) (next : Call) : bool :=
  match turn next with
  | SameTask => true
  | NextTask true => (time next <? t + delay)%Z
  | NextTask false => (time next <=? t + delay)%Z
  end.

(** The calls no later call supersedes. *)
Fixpoint survivors (cs : list Call) : list Call :=
  match cs with
  | [] => []
  | c :: cs' =>
      match cs' with
      | [] => [c]
      | c' :: _ => if supersedes (time c) c' then survivors cs' else c :: survivors cs'
      end
  end.

(** When a surviving call executes, and with what. *)
Definition stamp (c : Call) : Z * Args := ((time c + delay)%Z, args c).

(** The wrapper was just called, at time [t] with arguments [a]. *)
Definition primed (t : Z) (a : Args) (log : list (Z * Args)) (w : Host) : Prop :=
  loaded (t + delay) a log w ∧ now w = t.

(** The calls of the wrapper in a history, each with the time the clock
    shows when it is made. *)
Fixpoint calls_made (xs : list Action) (w : Host) : list (Z * Args) :=
  match xs with
  | [] => []
  | x :: xs' =>
      match x with
      | ACall t a => (Z.max (now w) t, a) :: calls_made xs' (act w x)
      | _ => calls_made xs' (act w x)
      end
  end.

(** Every execution, done or outstanding, is accounted for by a call among
    [ks] made [delay] or more before. *)
Definition accounted (ks : list (Z * Args)) (w : Host) : Prop :=
  well_formed w ∧
  length (executions w) + length (outstanding w) ≤ length ks ∧
  Forall (λ e, ∃ tc, (tc, snd e) ∈ ks ∧ (tc + delay ≤ fst e)%Z) (executions w) ∧
  Forall (λ tm, ∃ tc a, callback tm = Later a ∧ (tc, a) ∈ ks ∧
                        due tm = (tc + delay)%Z) (outstanding w).

End Debounce.

Arguments Callback : clear implicits.
Arguments Timer : clear implicits.
Arguments Host : clear implicits.
Arguments Action : clear implicits.
Arguments Call : clear implicits.

End Debounce.

(** ** Part 2: the scroll-animation tracker *)

(** *** JavaScript numbers *)

(** A JavaScript number is an IEEE 754 binary64 value.  A finite number is
    modelled by its value, a rational; an arithmetic operation gives the
    number nearest to the exact result, a tie going to the even significand
    (the standard's roundTiesToEven).  The numbers of a binade share the
    unit in the last place, 2^-52 times the binade's lower end, and the
    subnormal numbers share that of the lowest normal binade, 2^-1074.  A
    result beyond the largest finite number is [Infinity] in JavaScript and
    a rational beyond every finite number here; the comparisons with finite
    numbers, all that is made of the results below, come out the same.
    [NaN] is not modelled: the sizes and coordinates the host reports and
    the thresholds the program passes are finite, and differences and
    products of finite numbers are not [NaN]. *)
Module Binary64.
Local Open Scope Q_scope.

(** The exponent of the binade of [x > 0]: [2^e <= x < 2^(e+1)]. *)
Definition ilog2 (x : Q) : Z :=
  let k := (Z.log2 (Qnum x) - Z.log2 (Zpos (Qden x)))%Z in
  if Qle_bool (2 ^ k) x then k else (k - 1)%Z.

(** The nearest integer, a tie going to the even one. *)
Definition rne (x : Q) : Z :=
  let f := Qfloor x in
  match Qcompare (x - inject_Z f) (1 # 2) with
  | Lt => f
  | Eq => if Z.even f then f else (f + 1)%Z
  | Gt => (f + 1)%Z
  end.

(** The exponent of the unit in the last place at [x > 0]. *)
Definition ulp_exp (x : Q) : Z := Z.max (ilog2 x - 52) (-1074).

Definition round_pos (x : Q) : Q :=
  inject_Z (rne (x * 2 ^ (- ulp_exp x))) * 2 ^ ulp_exp x.

(** The number nearest to the real [x]. *)
Definition binary64 (x : Q) : Q :=
  Qred match Qcompare x 0 with
       | Eq => 0
       | Gt => round_pos x
       | Lt => - round_pos (- x)
       end.

(** [x - y] and [x * y] on numbers. *)
Definition fsub (x y : Q) : Q := binary64 (x - y).
Definition fmul (x y : Q) : Q := binary64 (x * y).

(** The number for an integer the host hands over. *)
Definition of_int (n : Z) : Q := binary64 (inject_Z n).

(** The value of a finite binary64 float of the kernel, whose operations
    are those of the machine; the operations above are compared with them
    on examples in part 4. *)
Definition float_value (f : PrimFloat.float) : option Q :=
  match FloatOps.Prim2SF f with
  | SpecFloat.S754_zero _ => Some 0
  | SpecFloat.S754_finite s m e =>
      Some (Qred ((if s then -1 else 1) * inject_Z (Zpos m) * 2 ^ e))
  | _ => None
  end.

End Binary64.

Module Tracker.
Import Binary64.

(** A DOM element reference.  References are compared by identity ([===]),
    so a node is modelled by its identity; an argument that may be [null] or
    [undefined] has type [option Element]. *)
Definition Element := nat.

(** *** Geometry and [isInViewport] *)

(** The coordinates of a bounding box are numbers, given by their values. *)
Record DOMRect := mkRect {
  rect_top : Q;
  rect_bottom : Q;
  rect_left : Q;
  rect_right : Q
}.

(** What the host answers to the geometry queries of lines 35-37 during one
    synchronous scan.  The window and client sizes are integers (the
    attributes are of the type [long]). *)
Record Layout := mkLayout {
  boundingClientRect : Element → DOMRect;
  innerHeight : Z;
  innerWidth : Z;
  clientHeight : Z;
  clientWidth : Z
}.

(** [a || b] on numbers: [a] unless it is falsy, that is 0. *)
Definition js_or (a b : Z) : Z := if (a =? 0)%Z then b else a.

Definition windowHeight (g : Layout) : Q := of_int (js_or (innerHeight g) (clientHeight g)).
Definition windowWidth (g : Layout) : Q := of_int (js_or (innerWidth g) (clientWidth g)).

(** Lines 39-44, the returned conjunction; the difference and the products
    are rounded as the arithmetic of numbers rounds them. *)
Definition in_band (rect : DOMRect) (wh ww threshold : Q) : bool :=
  Qle_bool (rect_top rect) (fmul wh (fsub 1 threshold)) &&
  Qle_bool (fmul wh threshold) (rect_bottom rect) &&
  Qle_bool (rect_left rect) ww &&
  Qle_bool 0 (rect_right rect).

(** The default of the parameter [threshold] (line 34): the number the
    literal [0.1] denotes. *)
Definition default_threshold : Q := binary64 (1 # 10).

(** How far rounding moves the bounds of the band, relative to the bounds:
    2^-52. *)
Definition rounding_margin : Q := 1 # 4503599627370496.

(** The value [isInViewport(element, threshold)] returns under layout [g];
    an omitted [threshold] takes the default. *)
Definition viewport_test (g : Layout) (element : Element) (threshold : option Q) : bool :=
  in_band (boundingClientRect g element) (windowHeight g) (windowWidth g)
          (default default_threshold threshold).

(** *** The tracker state *)

(** One object of the array [this.elements] (lines 150-154). *)
Record ElementData := mkData {
  element : Element;
  animationType : string;
  animated : bool
}.

(** Calls into the host that the tracker makes, in program order. *)
Inductive HostCall :=
| GetBoundingClientRect (e : Element)
| ClassListAdd (e : Element) (token : string)
| Observe (e : Element)
| Unobserve (e : Element)
| AddEventListener (type : string).

Global Instance HostCall_eq_dec : EqDecision HostCall.
Proof. solve_decision. Defined.

(** An instance of [ScrollAnimations]: the array [this.elements],
    [this.observer] ([None] is [null], otherwise the observer with the set of
    targets it observes), and the log of host calls made so far. *)
Record ScrollAnimations := mkState {
  elements : list ElementData;
  observer : option (gset Element);
  calls : list HostCall
}.

Inductive JsError := TypeError.

Inductive completion (A : Type) :=
| Normal (a : A)
| Throw (e : JsError).
Arguments Normal {A} a.
Arguments Throw {A} e.

(** A JavaScript procedure: it runs on the state and completes normally or
    abruptly; the mutations made before a throw stay. *)
Definition JS (A : Type) : Type := ScrollAnimations → completion A * ScrollAnimations.

Definition ret {A} (a : A) : JS A := λ s, (Normal a, s).

Definition bind {A B} (m : JS A) (k : A → JS B) : JS B :=
  λ s, match m s with
       | (Normal a, s') => k a s'
       | (Throw e, s') => (Throw e, s')
       end.

Definition throw {A} (e : JsError) : JS A := λ s, (Throw e, s).

Declare Scope js_scope.
Delimit Scope js_scope with js.
Notation "x <~ m ; k" := (bind m (λ x, k))
  (at level 20, m at level 100, k at level 200, only parsing) : js_scope.
Notation "m ;; k" := (bind m (λ _, k))
  (at level 100, k at level 200, only parsing, right associativity) : js_scope.
Local Open Scope js_scope.

Definition set_elements (l : list ElementData) : JS unit :=
  λ s, (Normal tt, mkState l (observer s) (calls s)).

Definition set_observer (o : option (gset Element)) : JS unit :=
  λ s, (Normal tt, mkState (elements s) o (calls s)).

Definition host (c : HostCall) : JS unit :=
  λ s, (Normal tt, mkState (elements s) (observer s) (calls s ++ [c])).

Definition get_elements : JS (list ElementData) := λ s, (Normal (elements s), s).

(** [this.observer.m(...)]: reading a property of [null] throws. *)
Definition this_observer : JS (gset Element) :=
  λ s, match observer s with
       | Some o => (Normal o, s)
       | None => (Throw TypeError, s)
       end.

(** [x.m(...)] on a reference that may be [null]. *)
Definition deref (r : option Element) : JS Element :=
  match r with
  | Some e => ret e
  | None => throw TypeError
  end.

Definition observe (e : Element) : JS unit :=
  o <~ this_observer;
  set_observer (Some ({[e]} ∪ o)) ;; host (Observe e).

Definition unobserve (e : Element) : JS unit :=
  o <~ this_observer;
  set_observer (Some (o ∖ {[e]})) ;; host (Unobserve e).

(** [isInViewport(element, threshold)], lines 34-45. *)
Definition isInViewport (g : Layout) (element : Element) (threshold : option Q) : JS bool :=
  host (GetBoundingClientRect element) ;; ret (viewport_test g element threshold).

(** *** The methods of [ScrollAnimations] *)

(** Lines 123-136; the callback is [observerCallback] below. *)
Definition setupIntersectionObserver : JS unit := set_observer (Some ∅).

(** Lines 138-145. *)
Definition bindScrollEvents : JS unit := host (AddEventListener "scroll").

(** Lines 118-121. *)
Definition init : JS unit := setupIntersectionObserver ;; bindScrollEvents.

(** Lines 112-116: [new ScrollAnimations()]. *)
Definition constructor : completion unit * ScrollAnimations :=
  init (mkState [] None []).

(** Lines 147-157.  [element] is [None] for a falsy argument;
    [animationType] is [None] when the argument is omitted. *)
Definition addElement (element : option Element) (animationType : option string) : JS unit :=
  match element with
  | None => ret tt
  | Some e =>
      l <~ get_elements;
      set_elements (l ++ [mkData e (default "fadeInScale"%string animationType) false]) ;;
      observe e
  end.

(** [this.elements.find(item => item.element === element)], with the index
    of the object found. *)
Definition find_entry (r : option Element) (l : list ElementData) : option (nat * ElementData) :=
  list_find (λ item, Some (element item) = r) l.

Definition mark_animated (d : ElementData) : ElementData :=
  mkData (element d) (animationType d) true.

(** Lines 159-168.  The object found is mutated in place. *)
Definition animateElement (element : option Element) : JS unit :=
  l <~ get_elements;
  match find_entry element l with
  | None => ret tt
  | Some (i, elementData) =>
      if animated elementData then ret tt
      else
        set_elements (<[i := mark_animated elementData]> l) ;;
        (e <~ deref element;
         host (ClassListAdd e "animate") ;;
         unobserve e)
  end.

(** [this.elements.forEach(body)]: the indices below the length read at the
    start are visited in order, each object as the array holds it at the time
    of the visit. *)
Fixpoint forEach_from (body : ElementData → JS unit) (k n : nat) : JS unit :=
  match n with
  | O => ret tt
  | S n' =>
      l <~ get_elements;
      match l !! k with
      | Some item => body item ;; forEach_from body (S k) n'
      | None => forEach_from body (S k) n'
      end
  end.

Definition forEach (body : ElementData → JS unit) : JS unit :=
  l <~ get_elements; forEach_from body 0 (length l).

(** Lines 172-174. *)
Definition check_item (g : Layout) (item : ElementData) : JS unit :=
  if negb (animated item) then
    v <~ isInViewport g (element item) None;
    if v then animateElement (Some (element item)) else ret tt
  else ret tt.

(** Lines 170-176. *)
Definition checkElementsInView (g : Layout) : JS unit := forEach (check_item g).

Record IntersectionObserverEntry := mkEntry {
  target : Element;
  isIntersecting : bool
}.

(** Lines 129-135, the callback given to the observer. *)
Fixpoint observerCallback (entries : list IntersectionObserverEntry) : JS unit :=
  match entries with
  | [] => ret tt
  | entry :: rest =>
      (if isIntersecting entry then animateElement (Some (target entry)) else ret tt) ;;
      observerCallback rest
  end.

(** *** Histories of an instance *)

Inductive Op :=
| OpAddElement (element : option Element) (animationType : option string)
| OpAnimateElement (element : option Element)
| OpObserverCallback (entries : list IntersectionObserverEntry)
| OpCheckElementsInView (g : Layout).

Definition run_op (o : Op) : JS unit :=
  match o with
  | OpAddElement r ty => addElement r ty
  | OpAnimateElement r => animateElement r
  | OpObserverCallback entries => observerCallback entries
  | OpCheckElementsInView g => checkElementsInView g
  end.

(** Each operation is a task of its own: the next one runs on the state the
    previous one left, however it completed. *)
Definition exec (ops : list Op) (s : ScrollAnimations) : ScrollAnimations :=
  fold_left (λ s o, snd (run_op o s)) ops s.

Definition history (ops : list Op) : ScrollAnimations := exec ops (snd constructor).

(** *** Observations *)

(** The element is revealed: the object [find] resolves it to is flagged. *)
Definition revealed (s : ScrollAnimations) (e : Element) : bool :=
  match find_entry (Some e) (elements s) with
  | Some (_, d) => animated d
  | None => false
  end.

Definition tracked (s : ScrollAnimations) (e : Element) : bool :=
  bool_decide (e ∈ element <$> elements s).

(** The entries a rescan still has to look at. *)
Definition unrevealed (s : ScrollAnimations) : list ElementData :=
  filter (λ d, animated d = false) (elements s).

Definition observed (s : ScrollAnimations) (e : Element) : Prop :=
  ∃ o, observer s = Some o ∧ e ∈ o.

(** How often the marker was applied to [e]. *)
Definition marks (e : Element) (cs : list HostCall) : nat :=
  length (filter (λ c, c = ClassListAdd e "animate") cs).

(** The elements whose geometry was queried, in order. *)
Definition examined (cs : list HostCall) : list Element :=
  omap (λ c, match c with GetBoundingClientRect e => Some e | _ => None end) cs.

(** The host calls a procedure adds to the log. *)
Definition emitted (m : JS unit) (s : ScrollAnimations) : list HostCall :=
  drop (length (calls s)) (calls (snd (m s))).

(** *** The visibility ratio of the observer configuration *)

(** Follows the specification's words, not the source: "at least 10% of it
    is visible in the viewport", the ratio of the area of the box inside the
    viewport rectangle to the area of the box. *)
Definition visible_area (rect : DOMRect) (wh ww : Q) : Q :=
  Qmax 0 (Qmin (rect_right rect) ww - Qmax (rect_left rect) 0) *
  Qmax 0 (Qmin (rect_bottom rect) wh - Qmax (rect_top rect) 0).

Definition box_area (rect : DOMRect) : Q :=
  (rect_right rect - rect_left rect) * (rect_bottom rect - rect_top rect).

Definition spec_ratio_visible (g : Layout) (e : Element) (threshold : Q) : bool :=
  let rect := boundingClientRect g e in
  Qle_bool (threshold * box_area rect) (visible_area rect (windowHeight g) (windowWidth g)).

(** *** A sample page *)

(** A viewport of 1000 by 1000.  Element 0 is a tall box whose top 150 of
    10000 pixels are inside, element 1 a box of height 100 with 80 pixels
    inside at the lower edge, element 2 lies below the viewport, every other
    element is well inside. *)
Definition page : Layout :=
  mkLayout (λ e, match e with
                 | 0 => mkRect 850 10850 0 100
                 | 1 => mkRect 920 1020 0 100
                 | 2 => mkRect 1200 1300 0 100
                 | _ => mkRect 100 200 0 100
                 end) 1000 1000 0 0.

(** The bootstrap registers each element once with the default kind. *)
Definition registered (es : list Element) : list Op :=
  (λ e, OpAddElement (Some e) None) <$> es.

(** *** Vocabulary of the proofs *)

(** The state after a host call is logged. *)
Definition note (c : HostCall) (s : ScrollAnimations) : ScrollAnimations :=
  mkState (elements s) (observer s) (calls s ++ [c]).

(** The state after the object [d] at index [i] is revealed while the
    observer watches [o]. *)
Definition reveal_at (i : nat) (d : ElementData) (o : gset Element)
    (s : ScrollAnimations) : ScrollAnimations :=
  mkState (<[i := mark_animated d]> (elements s))
          (Some (o ∖ {[element d]}))
          (calls s ++ [ClassListAdd (element d) "animate"; Unobserve (element d)]).

(** Total correctness: from a state in [P] the procedure completes normally
    in a state in [Q]. *)
Definition triple {A} (P : ScrollAnimations → Prop) (m : JS A)
    (Q : A → ScrollAnimations → Prop) : Prop :=
  ∀ s, P s → ∃ a s', m s = (Normal a, s') ∧ Q a s'.

(** What holds of every instance between tasks: the observer is set, the
    marker was applied to an element once if it is revealed and never
    otherwise, and only the object [find] resolves to is ever flagged. *)
Definition sound (s : ScrollAnimations) : Prop :=
  is_Some (observer s) ∧
  (∀ e, marks e (calls s) = if revealed s e then 1 else 0) ∧
  (∀ j d, elements s !! j = Some d → animated d = true →
          find_entry (Some (element d)) (elements s) = Some (j, d)).

(** [d'] is the object [d], its flag turned on at most. *)
Definition flips (d d' : ElementData) : Prop :=
  d' = d ∨ (animated d = false ∧ d' = mark_animated d).

(** [d'] is the object [d] after reveals: the same element and kind, its
    flag on if it was on. *)
Definition kept (d d' : ElementData) : Prop :=
  element d' = element d ∧ animationType d' = animationType d ∧
  (animated d = true → animated d' = true).

(** [s'] comes from [s] by reveals only: index by index the same object,
    its flag turned on at most; nothing revealed is lost, the log grows. *)
Definition stable (s s' : ScrollAnimations) : Prop :=
  Forall2 flips (elements s) (elements s') ∧
  (∀ e, revealed s e = true → revealed s' e = true) ∧
  calls s `prefix_of` calls s'.

(** [s'] comes from [s] by reveals and registrations. *)
Definition extends (s s' : ScrollAnimations) : Prop :=
  (element <$> elements s) `prefix_of` (element <$> elements s') ∧
  (animationType <$> elements s) `prefix_of` (animationType <$> elements s') ∧
  (∀ e, revealed s e = true → revealed s' e = true) ∧
  calls s `prefix_of` calls s'.

(** The loop invariant of the rescan [checkElementsInView(g)] started in
    [s0], before index [k] is visited. *)
Definition scan_inv (g : Layout) (s0 : ScrollAnimations) (k : nat)
    (s : ScrollAnimations) : Prop :=
  sound s ∧ stable s0 s ∧
  drop k (elements s) = drop k (elements s0) ∧
  (∀ e, revealed s e =
        revealed s0 e ||
        (viewport_test g e None && bool_decide (e ∈ take k (element <$> elements s0)))) ∧
  ∃ cs, calls s = calls s0 ++ cs ∧
        examined cs = element <$> filter (λ d, animated d = false) (take k (elements s0)).

(** *** Elementary state changes *)

(** What the reveal-only procedures do to an instance, one change at a time:
    a geometry query is logged, or the object [find] resolves an element to,
    not flagged so far, is revealed. *)
Inductive step : ScrollAnimations → ScrollAnimations → Prop :=
| step_query e s :
    step s (note (GetBoundingClientRect e) s)
| step_reveal e i d o s :
    find_entry (Some e) (elements s) = Some (i, d) → animated d = false →
    observer s = Some o →
    step s (reveal_at i d o s).

Definition steps : ScrollAnimations → ScrollAnimations → Prop := rtc step.

(** The element is in the collection at two indices. *)
Definition registered_twice (s : ScrollAnimations) (e : Element) : Prop :=
  ∃ i j, i < j ∧ (element <$> elements s) !! i = Some e ∧
         (element <$> elements s) !! j = Some e.

(** How the observer's targets relate to the collection: a target is
    tracked, a tracked element not revealed is a target, and a target that
    is revealed was registered again after its reveal. *)
Definition watching (s : ScrollAnimations) : Prop :=
  ∀ e, (observed s e → tracked s e = true) ∧
       (tracked s e = true → revealed s e = false → observed s e) ∧
       (observed s e → revealed s e = true → registered_twice s e).

(** The registrations that take effect in a history. *)
Definition registrations (ops : list Op) : list Element :=
  omap (λ o, match o with OpAddElement (Some e) _ => Some e | _ => None end) ops.

(** Lines 278-281 of [UenoApp.initializeModules]: every node the selector
    matched is registered with the kind ['fadeInScale']. *)
Definition bootstrap (circles : list Element) : list Op :=
  (λ e, OpAddElement (Some e) (Some "fadeInScale"%string)) <$> circles.

(** The targets an observer callback reports as intersecting. *)
Definition reported (entries : list IntersectionObserverEntry) : list Element :=
  target <$> filter (λ entry, isIntersecting entry = true) entries.

(** The closed box and the closed viewport rectangle have a point in
    common (for a box with [top <= bottom] and [left <= right]). *)
Definition meets_viewport (g : Layout) (e : Element) : Prop :=
  (rect_top (boundingClientRect g e) <= windowHeight g)%Q ∧
  (0 <= rect_bottom (boundingClientRect g e))%Q ∧
  (rect_left (boundingClientRect g e) <= windowWidth g)%Q ∧
  (0 <= rect_right (boundingClientRect g e))%Q.

End Tracker.

(** ** The scroll handler *)

Module ScrollHandler.
Import Tracker.

(** Lines 138-145: the scroll listener is [debounce(f, 16)] with
    [f = () => { this.checkElementsInView(); }].  [f] ignores the event the
    wrapper passes on, so the wrapper's argument vector is modelled by
    [unit]; [f] sets and clears no timer, so its executions can be replayed
    on the instance from the execution log of the wrapper. *)
Definition scroll_wait : Z := 16.

Definition scroll_calls (scrolls : list Z) : list (Z * unit) :=
  (λ t, (t, tt)) <$> scrolls.

(** The rescans that the executions of [f] amount to; [layout_at t] is the
    layout the host reports at time [t]. *)
Definition rescans (layout_at : Z → Layout) (log : list (Z * unit)) : list Op :=
  (λ x, OpCheckElementsInView (layout_at (fst x))) <$> log.

(** The instance after scroll events at the given times, each event a task
    of its own on a punctual host started at [t0], once the timers have
    fired. *)
Definition scroll_session {host : Debounce.TimerHost} (layout_at : Z → Layout) (t0 : Z)
    (scrolls : list Z) (s : ScrollAnimations) : ScrollAnimations :=
  exec (rescans layout_at
          (Debounce.executions
             (Debounce.settle
                (Debounce.run_calls scroll_wait (scroll_calls scrolls) (Debounce.boot t0)))))
       s.

End ScrollHandler.

(** ** The hamburger menu *)

Module Hamburger.

(** The DOM node of the menu button, as far as the class touches it.
    [classList] is the [class] attribute, through the ordered set of tokens
    the DOM keeps for it: [None] when the element has no [class] attribute;
    once [classList] has updated the attribute, its value is the tokens
    joined by single spaces.  [attributes] are the content attributes other
    than [class] and [style], which the DOM derives from [classList] and
    from the inline style.  [transform] is [style.transform], the one
    property of the inline style the class sets. *)
Record Node := mkNode {
  classList : option (list string);
  attributes : gmap string string;
  transform : string
}.

(** The token set of [element.classList]. *)
Definition tokens (n : Node) : list string := default [] (classList n).

(** Calls into the host besides those on the node's own state.  The file
    registers no listener for [menuToggle], so dispatching the event is a
    host call that does not come back to the instance. *)
Inductive MenuCall :=
| AddEventListener (type : string)
| PreventDefault
| DispatchMenuToggle (detail : bool)
| SetTimeout (delay : Z).

(** An instance of [HamburgerMenu] on its host: [this.element] ([None] is
    [null]; the node's state is kept with the reference), [this.isActive],
    the host calls made so far, the due times of the pending timers set by
    [addClickAnimation], and the clock in milliseconds. *)
Record HamburgerMenu := mkMenu {
  element : option Node;
  isActive : bool;
  calls : list MenuCall;
  resets : list Z;
  clock : Z
}.

Definition M (A : Type) : Type :=
  HamburgerMenu → Tracker.completion A * HamburgerMenu.

Definition ret {A} (a : A) : M A := λ m, (Tracker.Normal a, m).

Definition bind {A B} (c : M A) (k : A → M B) : M B :=
  λ m, match c m with
       | (Tracker.Normal a, m') => k a m'
       | (Tracker.Throw e, m') => (Tracker.Throw e, m')
       end.

Declare Scope menu_scope.
Delimit Scope menu_scope with menu.
Notation "x <~ c ; k" := (bind c (λ x, k))
  (at level 20, c at level 100, k at level 200, only parsing) : menu_scope.
Notation "c ;; k" := (bind c (λ _, k))
  (at level 100, k at level 200, only parsing, right associativity) : menu_scope.
Local Open Scope menu_scope.

(** [this.element.p]: reading a property of [null] throws. *)
Definition this_element : M Node :=
  λ m, match element m with
       | Some n => (Tracker.Normal n, m)
       | None => (Tracker.Throw Tracker.TypeError, m)
       end.

Definition set_element (n : Node) : M unit :=
  λ m, (Tracker.Normal tt, mkMenu (Some n) (isActive m) (calls m) (resets m) (clock m)).

Definition get_isActive : M bool := λ m, (Tracker.Normal (isActive m), m).

Definition set_isActive (b : bool) : M unit :=
  λ m, (Tracker.Normal tt, mkMenu (element m) b (calls m) (resets m) (clock m)).

Definition host (c : MenuCall) : M unit :=
  λ m, (Tracker.Normal tt,
        mkMenu (element m) (isActive m) (calls m ++ [c]) (resets m) (clock m)).

(** [this.element.addEventListener(type, ...)]. *)
Definition addEventListener (type : string) : M unit :=
  this_element ;; host (AddEventListener type).

(** [this.element.setAttribute(name, value)], for a name other than [class]
    and [style]: the class passes ['aria-expanded'] and ['role'] only. *)
Definition setAttribute (name value : string) : M unit :=
  n <~ this_element;
  set_element (mkNode (classList n) (<[name := value]> (attributes n)) (transform n)).

(** [classList.toggle(token)] on the token set: a token that is there is
    removed, one that is not is appended. *)
Definition toggle_token (token : string) (l : list string) : list string :=
  if decide (token ∈ l) then filter (λ x, x ≠ token) l else l ++ [token].

(** [this.element.classList.toggle(token)].  The update writes the token set
    back to the [class] attribute, which exists from then on: without the
    attribute the token set is empty, and the toggle adds the token. *)
Definition classList_toggle (token : string) : M unit :=
  n <~ this_element;
  set_element (mkNode (Some (toggle_token token (tokens n))) (attributes n) (transform n)).

(** [this.element.style.transform = value]. *)
Definition set_transform (value : string) : M unit :=
  n <~ this_element;
  set_element (mkNode (classList n) (attributes n) value).

(** [setTimeout(reset, delay)] for the arrow function of lines 101-103. *)
Definition setTimeout_reset (delay : Z) : M unit :=
  λ m, (Tracker.Normal tt,
        mkMenu (element m) (isActive m) (calls m ++ [SetTimeout delay])
               (resets m ++ [(clock m + Z.max 0 delay)%Z]) (clock m)).

(** [b.toString()]. *)
Definition toString (b : bool) : string := if b then "true" else "false".

(** Lines 65-68. *)
Definition bindEvents : M unit :=
  addEventListener "click" ;; addEventListener "keydown".

(** Lines 70-73. *)
Definition setupAccessibility : M unit :=
  setAttribute "aria-expanded" "false" ;; setAttribute "role" "button".

(** Lines 58-63. *)
Definition init : M unit :=
  λ m, match element m with
       | None => ret tt m
       | Some _ => (bindEvents ;; setupAccessibility) m
       end.

(** Lines 52-56: [new HamburgerMenu(element)], at time [t0]. *)
Definition constructor (element : option Node) (t0 : Z)
    : Tracker.completion unit * HamburgerMenu :=
  init (mkMenu element false [] [] t0).

(** Lines 88-97. *)
Definition toggle : M unit :=
  a <~ get_isActive;
  set_isActive (negb a) ;;
  classList_toggle "active" ;;
  a' <~ get_isActive;
  setAttribute "aria-expanded" (toString a') ;;
  this_element ;;
  a'' <~ get_isActive;
  host (DispatchMenuToggle a'').

(** Lines 99-104. *)
Definition addClickAnimation : M unit :=
  set_transform "scale(0.95)" ;; setTimeout_reset 150.

(** The arrow function of lines 101-103. *)
Definition reset_scale : M unit := set_transform "scale(1)".

(** Lines 75-79. *)
Definition handleClick : M unit :=
  host PreventDefault ;; toggle ;; addClickAnimation.

(** Lines 81-86; [key] is [event.key]. *)
Definition handleKeydown (key : string) : M unit :=
  if bool_decide (key = "Enter") || bool_decide (key = " ") then
    host PreventDefault ;; toggle
  else ret tt.

(** *** Histories *)

(** What reaches an instance: a click, a key, or time passing up to [t],
    when the host runs the timers that are due. *)
Inductive Event :=
| Click
| Keydown (key : string)
| Tick (t : Z).

Fixpoint run_resets (n : nat) : M unit :=
  match n with
  | O => ret tt
  | S n' => reset_scale ;; run_resets n'
  end.

Definition tick (t : Z) : M unit :=
  λ m, run_resets (length (filter (λ d, (d ≤ t)%Z) (resets m)))
         (mkMenu (element m) (isActive m) (calls m)
                 (filter (λ d, ¬ (d ≤ t)%Z) (resets m)) (Z.max (clock m) t)).

Definition run_event (ev : Event) : M unit :=
  match ev with
  | Click => handleClick
  | Keydown key => handleKeydown key
  | Tick t => tick t
  end.

Definition exec (evs : list Event) (m : HamburgerMenu) : HamburgerMenu :=
  fold_left (λ m ev, snd (run_event ev m)) evs m.

(** The instance made at time [t0] on the node [n], after the events. *)
Definition history (n : Node) (t0 : Z) (evs : list Event) : HamburgerMenu :=
  exec evs (snd (constructor (Some n) t0)).

(** *** Observations *)

(** The events that toggle the menu. *)
Definition toggles (ev : Event) : bool :=
  match ev with
  | Click => true
  | Keydown key => bool_decide (key = "Enter") || bool_decide (key = " ")
  | Tick _ => false
  end.

(** The details of the [menuToggle] events dispatched, in order. *)
Definition details (cs : list MenuCall) : list bool :=
  omap (λ c, match c with DispatchMenuToggle b => Some b | _ => None end) cs.

(** The delays of the timers set, in order. *)
Definition delays (cs : list MenuCall) : list Z :=
  omap (λ c, match c with SetTimeout d => Some d | _ => None end) cs.

(** The details that [k] toggles from the inactive state dispatch: true,
    false, true, ... *)
Definition alternating (k : nat) : list bool := (λ i, Nat.even i) <$> seq 0 k.

(** The [class] attribute of the node [n0] after [k] toggles of the token
    ['active']: the tokens of [n0] other than ['active'] in their order,
    and ['active'] after them if it is there. *)
Definition toggled (k : nat) (n0 : Node) : option (list string) :=
  match k with
  | O => classList n0
  | S _ =>
      Some (filter (λ x, x ≠ "active") (tokens n0) ++
            (if xorb (Nat.odd k) (bool_decide ("active" ∈ tokens n0))
             then ["active"] else []))
  end.

(** What holds of an instance on node [n0] after [k] toggles. *)
Definition in_sync (n0 : Node) (k : nat) (m : HamburgerMenu) : Prop :=
  ∃ n, element m = Some n ∧
       isActive m = Nat.odd k ∧
       classList n = toggled k n0 ∧
       attributes n =
         <["aria-expanded" := toString (isActive m)]>
           (<["role" := "button"]> (attributes n0)) ∧
       details (calls m) = alternating k.

(** The clicks among the events. *)
Definition clicks (ev : Event) : bool :=
  match ev with
  | Click => true
  | _ => false
  end.

(** The state of the press animation: every pending reset is due within
    150 ms; before the first click the transform is the node's own and no
    reset is pending; after it the button is either scaled down with a reset
    pending, or back at scale 1. *)
Definition animating (n0 : Node) (clicked : bool) (m : HamburgerMenu) : Prop :=
  ∃ n, element m = Some n ∧
       Forall (λ d, (d ≤ clock m + 150)%Z) (resets m) ∧
       (if clicked
        then (transform n = "scale(0.95)" ∧ resets m ≠ []) ∨ transform n = "scale(1)"
        else transform n = transform n0 ∧ resets m = []).

End Hamburger.

(** ** Part 3: debounce, proofs *)

Module DebounceFacts.
Import Debounce.

(** *** Two hosts *)

Lemma to_int32_small (d : Z) : (-2147483648 ≤ d ≤ 2147483647)%Z → to_int32 d = d.
Proof. intros H. unfold to_int32. rewrite Z.mod_small; lia. Qed.

Lemma to_int32_range (d : Z) : (-2147483648 ≤ to_int32 d ≤ 2147483647)%Z.
Proof.
  unfold to_int32.
  pose proof (Z.mod_pos_bound (d + 2147483648) 4294967296 ltac:(lia)). lia.
Qed.

Lemma html_delay_nonneg (d : Z) : (0 ≤ html_delay d)%Z.
Proof. unfold html_delay. lia. Qed.

Lemma html_delay_exact (d : Z) : (1 ≤ d ≤ 2147483647)%Z → html_delay d = d.
Proof. intros H. unfold html_delay. rewrite to_int32_small; lia. Qed.

Lemma html_delay_le (d : Z) : (0 < d)%Z → (html_delay d ≤ d)%Z.
Proof.
  intros H. unfold html_delay. pose proof (to_int32_range d).
  destruct (Z.le_gt_cases d 2147483647); [rewrite to_int32_small; lia|lia].
Qed.

Lemma node_delay_nonneg (d : Z) : (0 ≤ node_delay d)%Z.
Proof. unfold node_delay. destruct (Z.leb_spec 1 d), (Z.leb_spec d 2147483647); simpl; lia. Qed.

Lemma node_delay_exact (d : Z) : (1 ≤ d ≤ 2147483647)%Z → node_delay d = d.
Proof.
  intros H. unfold node_delay.
  destruct (Z.leb_spec 1 d), (Z.leb_spec d 2147483647); simpl; lia.
Qed.

Lemma node_delay_le (d : Z) : (0 < d)%Z → (node_delay d ≤ d)%Z.
Proof.
  intros H. unfold node_delay.
  destruct (Z.leb_spec 1 d), (Z.leb_spec d 2147483647); simpl; lia.
Qed.

(** The timers of the HTML standard and those of Node.js both are as the
    program needs them. *)
#[global] Instance html_timers : TimerHost :=
  Build_TimerHost html_delay html_delay_nonneg html_delay_exact html_delay_le.

Definition node_timers : TimerHost :=
  Build_TimerHost node_delay node_delay_nonneg node_delay_exact node_delay_le.

Section Facts.
Context {Args : Type} {host : TimerHost}.
Variable wait : Z.

Implicit Types (w : Host Args) (tm : Timer Args) (q : list (Timer Args)).
Implicit Types (a : Args) (log : list (Z * Args)).
Implicit Types (c : Call Args) (cs : list (Call Args)).

(** *** The timer queue *)

Lemma cancel_elem tm h q : tm ∈ cancel h q ↔ tm ∈ q ∧ handle tm ≠ h.
Proof. unfold cancel. rewrite list_elem_of_filter. tauto. Qed.

Lemma cancel_sublist h q : sublist (cancel h q) q.
Proof. apply sublist_filter. Qed.

Lemma earliest_elem q tm : earliest q = Some tm → tm ∈ q.
Proof.
  revert tm. induction q as [|x q IH]; intros tm; simpl; [done|].
  destruct (earliest q) as [tm'|].
  - destruct (due x <=? due tm')%Z; intros [= <-]; [left | right; auto].
  - intros [= <-]. left.
Qed.

Lemma earliest_least q tm tm' :
  earliest q = Some tm → tm' ∈ q → (due tm ≤ due tm')%Z.
Proof.
  revert tm. induction q as [|x q IH]; intros tm; simpl; [by intros _ ?%elem_of_nil|].
  destruct (earliest q) as [y|] eqn:Hy.
  - destruct (due x <=? due y)%Z eqn:Hle; intros [= <-] [->|Hin]%elem_of_cons.
    + lia.
    + specialize (IH y eq_refl Hin). lia.
    + specialize (IH y eq_refl). lia.
    + by apply IH.
  - intros [= <-] [->|Hin]%elem_of_cons; [lia|].
    destruct q; [by apply elem_of_nil in Hin|]. simpl in Hy.
    destruct (earliest q); [destruct (_ <=? _)%Z|]; discriminate.
Qed.

Lemma earliest_None q : earliest q = None → q = [].
Proof.
  destruct q as [|x q]; [done|]. simpl.
  destruct (earliest q); [destruct (_ <=? _)%Z|]; discriminate.
Qed.

(** *** Any host: the closure invariant *)

Lemma Forall_sublist (P : Timer Args → Prop) q q' :
  Forall P q → sublist q' q → Forall P q'.
Proof.
  rewrite !Forall_forall. intros HP Hsub tm Htm.
  apply HP. by eapply elem_of_sublist.
Qed.

Lemma well_formed_sublist w w' :
  well_formed w → sublist (pending w') (pending w) →
  next_handle w' = next_handle w → timeout w' = timeout w →
  well_formed w'.
Proof.
  intros (Hlt & Hnd & Hto & Hh) Hsub Hn Ho. unfold well_formed.
  rewrite Hn, Ho. split_and!.
  - by eapply Forall_sublist.
  - eapply sublist_NoDup; [exact Hnd | by apply fmap_sublist].
  - by eapply Forall_sublist.
  - done.
Qed.

Lemma clearTimeout_sublist o w : sublist (pending (clearTimeout o w)) (pending w).
Proof. destruct o; simpl; [apply cancel_sublist | done]. Qed.

Lemma clearTimeout_next_handle o w : next_handle (clearTimeout o w) = next_handle w.
Proof. by destruct o. Qed.

Lemma clearTimeout_timeout o w : timeout (clearTimeout o w) = timeout w.
Proof. by destruct o. Qed.

(** *** Any host: the pending [later] *)

Lemma clear_no_later w :
  well_formed w → outstanding (clearTimeout (timeout w) w) = [].
Proof.
  intros (_ & _ & Hto & _). unfold outstanding.
  destruct (filter _ _) as [|tm q] eqn:Hf; [done|]. exfalso.
  assert (Htm : tm ∈ filter (λ tm, is_later tm) (pending (clearTimeout (timeout w) w)))
    by (rewrite Hf; left).
  apply list_elem_of_filter in Htm as [Hlater Hin].
  assert (Hin' : tm ∈ pending w)
    by (eapply elem_of_sublist; [exact Hin | apply clearTimeout_sublist]).
  rewrite Forall_forall in Hto. apply (Hto tm Hin') in Hlater.
  rewrite Hlater in Hin. simpl in Hin. apply cancel_elem in Hin as [_ Hne]. done.
Qed.

Lemma clear_keeps_foreign w :
  well_formed w → foreign (clearTimeout (timeout w) w) = foreign w.
Proof.
  intros (_ & _ & Hto & _). unfold foreign.
  destruct (timeout w) as [h|] eqn:Ho; [|done]. simpl.
  rewrite Forall_forall in Hto. unfold cancel.
  rewrite list_filter_filter.
  induction (pending w) as [|tm q IH]; [done|].
  rewrite !filter_cons. rewrite IH by (intros x Hx; apply Hto; by right).
  destruct (decide (¬ is_later tm)) as [Hf|Hl].
  - rewrite decide_True; [done|]. split; [done|].
    intros Heq. apply Hf, Hto; [left|]. by rewrite Heq.
  - rewrite decide_False; [done|]. tauto.
Qed.

Lemma at_most_one_later w : well_formed w → length (outstanding w) ≤ 1.
Proof.
  intros (_ & Hnd & Hto & _). unfold outstanding.
  rewrite Forall_forall in Hto.
  induction (pending w) as [|tm q IH]; [simpl; lia|].
  simpl in Hnd. apply NoDup_cons in Hnd as [Hnotin Hnd].
  rewrite filter_cons.
  destruct (decide (is_later tm)) as [Hl|Hl].
  - replace (filter (λ tm, is_later tm) q) with (@nil (Timer Args)); [simpl; lia|].
    symmetry. destruct (filter _ q) as [|x q'] eqn:Hf; [done|]. exfalso.
    assert (Hx : x ∈ filter (λ tm, is_later tm) q) by (rewrite Hf; left).
    apply list_elem_of_filter in Hx as [Hxl Hxin].
    apply Hnotin. apply list_elem_of_fmap. exists x. split; [|done].
    apply Hto in Hl; [|left]. apply Hto in Hxl; [|by right]. congruence.
  - apply IH; [done|]. intros x Hx. apply Hto. by right.
Qed.

Lemma well_formed_clear w :
  well_formed w → well_formed (clearTimeout (timeout w) w).
Proof.
  intros Hwf. eapply well_formed_sublist; [exact Hwf|..].
  - apply clearTimeout_sublist.
  - apply clearTimeout_next_handle.
  - apply clearTimeout_timeout.
Qed.

Lemma well_formed_boot t0 : well_formed (boot (Args:=Args) t0).
Proof.
  unfold well_formed, boot. simpl. split_and!; try done. constructor.
Qed.

Lemma well_formed_set_now t w : well_formed w → well_formed (set_now t w).
Proof. intros H. by eapply well_formed_sublist. Qed.

Lemma well_formed_setTimeout_foreign delay w :
  well_formed w → well_formed (snd (setTimeout Foreign delay w)).
Proof.
  intros (Hlt & Hnd & Hto & Hh). unfold well_formed, setTimeout. simpl. split_and!.
  - apply Forall_app. split.
    + eapply Forall_impl; [exact Hlt|]. simpl. lia.
    + repeat constructor.
  - rewrite map_app. simpl. apply NoDup_app. split_and!; [done| |apply NoDup_singleton].
    intros h Hin ->%list_elem_of_singleton.
    apply list_elem_of_fmap in Hin as (tm & Heq & Hin).
    rewrite Forall_forall in Hlt. specialize (Hlt tm Hin). lia.
  - apply Forall_app. split; [done|]. constructor; [|constructor]. simpl.
    split; [done|]. intros Heq%Hh. lia.
  - intros h Heq%Hh. lia.
Qed.

Lemma well_formed_executedFunction a w :
  well_formed w → well_formed (executedFunction wait a w).
Proof.
  intros Hwf. pose proof (clear_no_later w Hwf) as Hnone.
  apply well_formed_clear in Hwf. revert Hnone Hwf.
  unfold executedFunction. generalize (clearTimeout (timeout w) w). intros w1 Hnone.
  intros (Hlt & Hnd & Hto & Hh). unfold well_formed, setTimeout. simpl. split_and!.
  - apply Forall_app. split.
    + eapply Forall_impl; [exact Hlt|]. simpl. lia.
    + repeat constructor.
  - rewrite map_app. simpl. apply NoDup_app. split_and!; [done| |apply NoDup_singleton].
    intros h Hin ->%list_elem_of_singleton.
    apply list_elem_of_fmap in Hin as (tm & Heq & Hin).
    rewrite Forall_forall in Hlt. specialize (Hlt tm Hin). lia.
  - apply Forall_app. split; [|by repeat constructor].
    rewrite Forall_forall in Hlt |- *. intros tm Hin. split.
    + intros Hl. exfalso. eapply (filter_nil_not_elem_of _ _ tm Hnone); done.
    + intros [= Heq]. specialize (Hlt tm Hin). lia.
  - intros h [= <-]. lia.
Qed.

Lemma well_formed_fire t tm w : well_formed w → well_formed (fire_at t tm w).
Proof.
  intros Hwf. unfold fire_at.
  assert (Hwf' : well_formed (set_now (Z.max (now w) t)
                   (set_pending (cancel (handle tm) (pending w)) w))).
  { eapply well_formed_sublist; [exact Hwf| |done..]. apply cancel_sublist. }
  destruct (callback tm) as [a|]; simpl; [|done].
  unfold later. eapply well_formed_sublist; [apply well_formed_clear, Hwf'|done..].
Qed.

Lemma well_formed_act x w : well_formed w → well_formed (act wait w x).
Proof.
  intros Hwf. destruct x as [t a|h t|delay|h|t]; simpl.
  - by apply well_formed_executedFunction, well_formed_set_now.
  - destruct (lookup_timer h (pending w)) as [tm|]; [|done].
    destruct (due tm <=? t)%Z; [by apply well_formed_fire | done].
  - by apply well_formed_setTimeout_foreign.
  - eapply well_formed_sublist; [exact Hwf| |done..]. apply cancel_sublist.
  - by apply well_formed_set_now.
Qed.

Lemma well_formed_run xs w : well_formed w → well_formed (run wait xs w).
Proof.
  revert w. induction xs as [|x xs IH]; intros w Hwf; [done|].
  simpl. by apply IH, well_formed_act.
Qed.

Lemma executedFunction_pending a w :
  pending (executedFunction wait a w) =
  pending (clearTimeout (timeout w) w) ++
  [mkTimer (next_handle w) (now w + timer_delay wait) (Later a)].
Proof.
  unfold executedFunction, setTimeout. simpl.
  by rewrite clearTimeout_next_handle; destruct (timeout w).
Qed.

(** *** Timers firing *)

Lemma fire_at_shrinks t tm w :
  tm ∈ pending w → length (pending (fire_at t tm w)) < length (pending w).
Proof.
  intros Hin. unfold fire_at.
  assert (Hlt : length (cancel (handle tm) (pending w)) < length (pending w)).
  { unfold cancel. apply (length_filter_lt _ _ tm); [done|]. by intros []. }
  destruct (callback tm) as [a|]; simpl; [|done].
  eapply Nat.le_lt_trans; [|exact Hlt].
  apply sublist_length. apply (clearTimeout_sublist (timeout w)
    (set_now (Z.max (now w) t) (set_pending (cancel (handle tm) (pending w)) w))).
Qed.

(** The fuel [advance] gives is enough: no timer due by [t] is left. *)
Lemma run_timers_quiescent fuel t w :
  length (pending w) ≤ fuel →
  Forall (λ tm, (t < due tm)%Z) (pending (run_timers fuel t w)).
Proof.
  revert w. induction fuel as [|fuel IH]; intros w Hlen.
  - simpl. destruct (pending w); [constructor | simpl in Hlen; lia].
  - simpl. destruct (earliest (pending w)) as [tm|] eqn:He.
    + destruct (Z.leb_spec (due tm) t) as [Hdue|Hdue].
      * apply IH. pose proof (fire_at_shrinks (due tm) tm w (earliest_elem _ _ He)). lia.
      * apply Forall_forall. intros tm' Hin.
        pose proof (earliest_least _ _ _ He Hin). lia.
    + apply earliest_None in He. rewrite He. constructor.
Qed.

Lemma fire_at_now t tm w : now (fire_at t tm w) = Z.max (now w) t.
Proof.
  unfold fire_at. destruct (callback tm); simpl; [|done].
  by destruct (timeout w).
Qed.

Lemma fire_at_sublist t tm w : sublist (pending (fire_at t tm w)) (pending w).
Proof.
  unfold fire_at. destruct (callback tm); simpl.
  - etrans; [|apply (cancel_sublist (handle tm))].
    apply (clearTimeout_sublist (timeout w)
             (set_now (Z.max (now w) t) (set_pending (cancel (handle tm) (pending w)) w))).
  - apply cancel_sublist.
Qed.

(** A timer of another script fires: the wrapper's timer stays, [func] does
    not run. *)
Lemma fire_foreign t tm w :
  well_formed w → tm ∈ pending w → ¬ is_later tm →
  outstanding (fire_at t tm w) = outstanding w ∧
  executions (fire_at t tm w) = executions w.
Proof.
  intros (_ & _ & Hto & _) Hin Hf. rewrite Forall_forall in Hto.
  assert (Hne : ∀ x, x ∈ pending w → is_later x → handle x ≠ handle tm).
  { intros x Hx Hl Heq. apply (Hto x Hx) in Hl. apply Hf.
    apply (Hto tm Hin). congruence. }
  assert (Hcb : callback tm = Foreign).
  { unfold is_later in Hf. destruct (callback tm); [by destruct Hf|done]. }
  unfold fire_at. rewrite Hcb. simpl. split; [|done].
  unfold outstanding, cancel. simpl. rewrite list_filter_filter.
  clear Hin Hto. induction (pending w) as [|x q IH]; [done|].
  rewrite !filter_cons, IH by (intros y Hy; apply Hne; by right).
  destruct (decide (is_later x)) as [Hl|Hl].
  - rewrite decide_True; [done|]. split; [done|]. apply Hne; [left|done].
  - rewrite decide_False; [done|]. tauto.
Qed.

(** The wrapper's timer fires: nothing of the wrapper is outstanding any
    more, and [func] runs on the arguments of the call that set the timer. *)
Lemma fire_later t tm a w :
  well_formed w → tm ∈ pending w → callback tm = Later a →
  outstanding (fire_at t tm w) = [] ∧
  executions (fire_at t tm w) = executions w ++ [(Z.max (now w) t, a)].
Proof.
  intros (_ & _ & Hto & _) Hin Hcb. rewrite Forall_forall in Hto.
  assert (Hl : is_later tm) by (unfold is_later; by rewrite Hcb).
  pose proof (proj1 (Hto tm Hin) Hl) as Htimeout.
  unfold fire_at. rewrite Hcb. simpl. unfold later. simpl. rewrite Htimeout. simpl.
  split; [|done]. unfold outstanding. simpl.
  destruct (filter _ _) as [|x q] eqn:Hf; [done|]. exfalso.
  assert (Hx : x ∈ filter (λ tm, is_later tm)
                      (cancel (handle tm) (cancel (handle tm) (pending w))))
    by (rewrite Hf; left).
  apply list_elem_of_filter in Hx as [Hxl Hx].
  apply cancel_elem in Hx as [Hx _]. apply cancel_elem in Hx as [Hx Hne].
  apply (Hto x Hx) in Hxl. congruence.
Qed.

Lemma run_timers_sublist fuel t w : sublist (pending (run_timers fuel t w)) (pending w).
Proof.
  revert w. induction fuel as [|fuel IH]; intros w; [done|]. simpl.
  destruct (earliest (pending w)) as [tm|]; [|done].
  destruct (due tm <=? t)%Z; [|done]. etrans; [apply IH | apply fire_at_sublist].
Qed.

Lemma run_timers_now fuel t w :
  (now w ≤ now (run_timers fuel t w) ≤ Z.max (now w) t)%Z.
Proof.
  revert w. induction fuel as [|fuel IH]; intros w; simpl; [lia|].
  destruct (earliest (pending w)) as [tm|]; [|lia].
  destruct (Z.leb_spec (due tm) t); [|lia].
  specialize (IH (fire_at (due tm) tm w)). rewrite fire_at_now in IH. lia.
Qed.

Lemma idle_inv log w tm : idle log w → tm ∈ pending w → ¬ is_later tm.
Proof.
  intros (_ & Hnone & _) Hin Hl.
  by eapply (filter_nil_not_elem_of _ _ tm Hnone).
Qed.

Lemma run_timers_idle fuel t log w : idle log w → idle log (run_timers fuel t w).
Proof.
  revert w. induction fuel as [|fuel IH]; intros w Hidle; [done|]. simpl.
  destruct (earliest (pending w)) as [tm|] eqn:He; [|done].
  destruct (due tm <=? t)%Z; [|done]. apply IH.
  pose proof (earliest_elem _ _ He) as Hin.
  pose proof (idle_inv _ _ _ Hidle Hin) as Hf.
  destruct Hidle as (Hwf & Hnone & Hlog).
  destruct (fire_foreign (due tm) tm w Hwf Hin Hf) as [Hout Hex].
  split_and!; [by apply well_formed_fire|congruence..].
Qed.

Lemma loaded_inv d a log w tm :
  loaded d a log w → tm ∈ pending w → is_later tm →
  callback tm = Later a ∧ due tm = d.
Proof.
  intros (_ & [h Hout] & _) Hin Hl.
  assert (Htm : tm ∈ outstanding w) by (by apply list_elem_of_filter).
  rewrite Hout in Htm. by apply list_elem_of_singleton in Htm as ->.
Qed.

Lemma loaded_pending d a log w :
  loaded d a log w → ∃ tm, tm ∈ pending w ∧ due tm = d.
Proof.
  intros (_ & [h Hout] & _).
  assert (Htm : mkTimer h d (Later a) ∈ outstanding w) by (rewrite Hout; left).
  apply list_elem_of_filter in Htm as [_ Htm]. eauto.
Qed.

(** The timer loop with the wrapper's timer in the queue: the timer fires,
    at its due time, exactly if it is due by [t]. *)
Lemma run_timers_loaded fuel t d a log w :
  loaded d a log w → length (pending w) ≤ fuel →
  if (d <=? t)%Z then idle (log ++ [(d, a)]) (run_timers fuel t w)
  else loaded d a log (run_timers fuel t w).
Proof.
  revert w. induction fuel as [|fuel IH]; intros w Hload Hlen.
  { destruct (loaded_pending _ _ _ _ Hload) as (tm & Hin & _).
    destruct (pending w); [by apply elem_of_nil in Hin | simpl in Hlen; lia]. }
  simpl. destruct (earliest (pending w)) as [tm|] eqn:He.
  2:{ apply earliest_None in He.
      destruct (loaded_pending _ _ _ _ Hload) as (tm & Hin & _).
      rewrite He in Hin. by apply elem_of_nil in Hin. }
  pose proof (earliest_elem _ _ He) as Hin.
  destruct (loaded_pending _ _ _ _ Hload) as (tm0 & Hin0 & Hd0).
  pose proof (earliest_least _ _ _ He Hin0) as Hle. rewrite Hd0 in Hle.
  destruct (Z.leb_spec (due tm) t) as [Hdue|Hdue].
  2:{ destruct (Z.leb_spec d t); [lia|done]. }
  pose proof (fire_at_shrinks (due tm) tm w Hin) as Hshrink.
  destruct (decide (is_later tm)) as [Hl|Hf].
  - destruct (loaded_inv _ _ _ _ _ Hload Hin Hl) as [Hcb Hd].
    destruct Hload as (Hwf & _ & Hnow & Hlog).
    destruct (fire_later (due tm) tm a w Hwf Hin Hcb) as [Hout Hex].
    destruct (Z.leb_spec d t); [|lia].
    apply run_timers_idle. split_and!; [by apply well_formed_fire|done|].
    rewrite Hex, Hlog, Hd. by rewrite Z.max_r by lia.
  - destruct Hload as (Hwf & Hout & Hnow & Hlog).
    destruct (fire_foreign (due tm) tm w Hwf Hin Hf) as [Hout' Hex].
    apply IH; [|lia]. split_and!.
    + by apply well_formed_fire.
    + by rewrite Hout'.
    + rewrite fire_at_now. lia.
    + congruence.
Qed.

(** *** The ideal host, one call at a time *)

Lemma advance_now t w : (now w ≤ t)%Z → now (advance t w) = t.
Proof.
  intros Hle. unfold advance. simpl.
  pose proof (run_timers_now (length (pending w)) t w). lia.
Qed.

Lemma idle_set_now t log w : idle log w → idle log (set_now t w).
Proof. intros (Hwf & ? & ?). split_and!; [by apply well_formed_set_now|done..]. Qed.

Lemma advance_idle t log w : idle log w → idle log (advance t w).
Proof. intros H. unfold advance. by apply idle_set_now, run_timers_idle. Qed.

Lemma horizon_bound q tm : tm ∈ q → (due tm ≤ horizon q)%Z.
Proof.
  induction q as [|x q IH]; [by intros ?%elem_of_nil|].
  intros [->|Hin]%elem_of_cons; simpl; [lia|]. specialize (IH Hin). lia.
Qed.

Lemma settle_empty w : pending (settle w) = [].
Proof.
  unfold settle.
  pose proof (run_timers_quiescent (length (pending w)) (horizon (pending w)) w (le_n _)) as Hq.
  pose proof (run_timers_sublist (length (pending w)) (horizon (pending w)) w) as Hsub.
  destruct (pending (run_timers _ _ w)) as [|tm q]; [done|]. exfalso.
  apply Forall_cons in Hq as [Hq _].
  assert (Hin : tm ∈ pending w) by (eapply elem_of_sublist; [left|exact Hsub]).
  apply horizon_bound in Hin. lia.
Qed.

(** *** One call *)

Lemma delay_nonneg : (0 ≤ delay wait)%Z.
Proof. apply timer_delay_nonneg. Qed.

Lemma executedFunction_primes a w :
  well_formed w → primed wait (now w) a (executions w) (executedFunction wait a w).
Proof.
  intros Hwf. split; [|by unfold executedFunction; destruct (timeout w)].
  split_and!.
  - by apply well_formed_executedFunction.
  - exists (next_handle w). unfold outstanding.
    rewrite executedFunction_pending, filter_app.
    fold (outstanding (clearTimeout (timeout w) w)). by rewrite clear_no_later.
  - pose proof delay_nonneg. unfold executedFunction. destruct (timeout w); simpl; lia.
  - unfold executedFunction. by destruct (timeout w).
Qed.

Lemma advance_before_idle t log w : idle log w → idle log (advance_before t w).
Proof. intros H. unfold advance_before. by apply idle_set_now, run_timers_idle. Qed.

(** The state in which a task that starts at [t'] finds a wrapper that was
    called at [t]: the timer of that call has fired if it was due before
    [t'], or at [t'] on a host that runs such a timer first. *)
Lemma task_start_primed (limit t' t : Z) a log w :
  primed wait t a log w → (t ≤ t')%Z → (limit ≤ t' ≤ limit + 1)%Z →
  let w' := run_timers (length (pending w)) limit w in
  let w1 := set_now (Z.max (now w') t') w' in
  now w1 = t' ∧
  if (t + delay wait <=? limit)%Z
  then idle (log ++ [((t + delay wait)%Z, a)]) w1
  else loaded (t + delay wait) a log w1.
Proof.
  intros [Hload Hnow] Ht Hl w' w1.
  pose proof (run_timers_loaded (length (pending w)) limit _ _ _ _ Hload (le_n _)) as H.
  pose proof (run_timers_now (length (pending w)) limit w) as Hn. fold w' in H, Hn.
  split; [unfold w1; simpl; lia|].
  destruct (Z.leb_spec (t + delay wait) limit); [by apply idle_set_now|].
  destruct H as (Hwf & Hout & Hle & Hlog).
  split_and!; [by apply well_formed_set_now|done|unfold w1; simpl; lia|done].
Qed.

Lemma make_call_idle log w c :
  idle log w → (now w ≤ time c)%Z →
  primed wait (time c) (args c) log (make_call wait w c).
Proof.
  intros Hidle Ht. unfold make_call.
  set (w1 := match turn c with
             | SameTask => set_now (Z.max (now w) (time c)) w
             | NextTask true => advance (time c) w
             | NextTask false => advance_before (time c) w
             end).
  assert (H1 : idle log w1 ∧ now w1 = time c).
  { unfold w1. destruct (turn c) as [|[|]].
    - split; [by apply idle_set_now|simpl; lia].
    - split; [by apply advance_idle|by apply advance_now].
    - split; [by apply advance_before_idle|]. unfold advance_before. simpl.
      pose proof (run_timers_now (length (pending w)) (time c - 1) w). lia. }
  destruct H1 as [(Hwf & _ & Hlog) Hnow].
  pose proof (executedFunction_primes (args c) _ Hwf) as H.
  by rewrite Hnow, Hlog in H.
Qed.

Lemma make_call_primed t a log w c :
  primed wait t a log w → (t ≤ time c)%Z →
  primed wait (time c) (args c)
    (if supersedes wait t c then log else log ++ [((t + delay wait)%Z, a)])
    (make_call wait w c).
Proof.
  intros Hp Ht. unfold make_call, supersedes.
  set (w1 := match turn c with
             | SameTask => set_now (Z.max (now w) (time c)) w
             | NextTask true => advance (time c) w
             | NextTask false => advance_before (time c) w
             end).
  set (log1 := if match turn c with
                  | SameTask => true
                  | NextTask true => (time c <? t + delay wait)%Z
                  | NextTask false => (time c <=? t + delay wait)%Z
                  end then log else log ++ [((t + delay wait)%Z, a)]).
  assert (H1 : well_formed w1 ∧ executions w1 = log1 ∧ now w1 = time c).
  { unfold w1, log1. destruct (turn c) as [|[|]].
    - destruct Hp as [(Hwf & _ & _ & Hlog) Hnow].
      split_and!; [by apply well_formed_set_now|done|simpl; lia].
    - destruct (task_start_primed (time c) (time c) t a log w Hp Ht ltac:(lia)) as [Hn H].
      unfold advance. destruct (Z.leb_spec (t + delay wait) (time c)).
      + destruct (Z.ltb_spec (time c) (t + delay wait)); [lia|]. by destruct H as (? & _ & ?).
      + destruct (Z.ltb_spec (time c) (t + delay wait)); [|lia]. by destruct H as (? & _ & _ & ?).
    - destruct (task_start_primed (time c - 1) (time c) t a log w Hp Ht ltac:(lia)) as [Hn H].
      unfold advance_before. destruct (Z.leb_spec (t + delay wait) (time c - 1)).
      + destruct (Z.leb_spec (time c) (t + delay wait)); [lia|]. by destruct H as (? & _ & ?).
      + destruct (Z.leb_spec (time c) (t + delay wait)); [|lia]. by destruct H as (? & _ & _ & ?). }
  destruct H1 as (Hwf & Hlog & Hnow).
  pose proof (executedFunction_primes (args c) _ Hwf) as H.
  by rewrite Hnow, Hlog in H.
Qed.

Lemma settle_primed t a log w :
  primed wait t a log w →
  executions (settle w) = log ++ [((t + delay wait)%Z, a)] ∧ pending (settle w) = [].
Proof.
  intros [Hload _]. split; [|apply settle_empty]. unfold settle.
  pose proof (run_timers_loaded (length (pending w)) (horizon (pending w)) _ _ _ _
                Hload (le_n _)) as H.
  destruct (loaded_pending _ _ _ _ Hload) as (tm & Hin & Hd).
  apply horizon_bound in Hin.
  destruct (Z.leb_spec (t + delay wait) (horizon (pending w))); [|lia].
  by destruct H as (_ & _ & ?).
Qed.

Lemma settle_idle log w : idle log w → executions (settle w) = log ∧ pending (settle w) = [].
Proof.
  intros Hidle. split; [|apply settle_empty].
  by destruct (run_timers_idle (length (pending w)) (horizon (pending w)) log w Hidle)
    as (_ & _ & ?).
Qed.

(** *** Scripts of calls *)

Lemma last_default_irrelevant {A} (x : A) (l : list A) (d d' : A) :
  List.last (x :: l) d = List.last (x :: l) d'.
Proof. revert x. induction l as [|y l IH]; intros x; [done|]. apply IH. Qed.

Lemma last_cons_default {A} (x : A) (l : list A) (d : A) :
  List.last (x :: l) d = List.last l x.
Proof.
  destruct l as [|y l]; [done|].
  change (List.last (x :: y :: l) d) with (List.last (y :: l) d).
  apply last_default_irrelevant.
Qed.

Lemma survivors_nonempty c cs : survivors wait (c :: cs) ≠ [].
Proof.
  revert c. induction cs as [|c' cs IH]; intros c; [done|].
  change (survivors wait (c :: c' :: cs)) with
    (if supersedes wait (time c) c' then survivors wait (c' :: cs)
     else c :: survivors wait (c' :: cs)).
  destruct (supersedes wait (time c) c'); [apply IH|done].
Qed.

Lemma survivors_cons c c' cs :
  survivors wait (c :: c' :: cs) =
  if supersedes wait (time c) c' then survivors wait (c' :: cs)
  else c :: survivors wait (c' :: cs).
Proof. done. Qed.

Lemma removelast_cons {A} (x : A) (l : list A) : l ≠ [] → removelast (x :: l) = x :: removelast l.
Proof. by destruct l. Qed.

Lemma survivors_last_elem c cs :
  survivors wait (c :: cs) =
  removelast (survivors wait (c :: cs)) ++ [List.last cs c].
Proof.
  revert c. induction cs as [|c' cs IH]; intros c; [done|].
  rewrite (last_cons_default c' cs c), survivors_cons.
  destruct (supersedes wait (time c) c'); [apply IH|].
  rewrite removelast_cons by apply survivors_nonempty.
  rewrite <- app_comm_cons. f_equal. apply IH.
Qed.

(** The state after a script that starts with the wrapper just called: the
    last call is outstanding, and the survivors before it have executed. *)
Lemma run_script_primed cs c0 log w :
  primed wait (time c0) (args c0) log w → ascending (time c0) (called <$> cs) →
  primed wait (time (List.last cs c0)) (args (List.last cs c0))
         (log ++ (stamp wait <$> removelast (survivors wait (c0 :: cs))))
         (run_script wait cs w).
Proof.
  revert c0 log w. induction cs as [|c cs IH]; intros c0 log w Hp Hasc.
  - simpl. by rewrite app_nil_r.
  - destruct Hasc as [Ht Hasc]. simpl in Ht.
    pose proof (make_call_primed _ _ _ _ c Hp Ht) as Hp'.
    specialize (IH c _ _ Hp' Hasc).
    rewrite last_cons_default. simpl run_script. rewrite survivors_cons.
    destruct (supersedes wait (time c0) c); [done|].
    rewrite removelast_cons by apply survivors_nonempty.
    rewrite fmap_cons, cons_middle, app_assoc. exact IH.
Qed.

Lemma run_script_idle c cs log w :
  idle log w → ascending (now w) (called <$> c :: cs) →
  primed wait (time (List.last cs c)) (args (List.last cs c))
         (log ++ (stamp wait <$> removelast (survivors wait (c :: cs))))
         (run_script wait (c :: cs) w).
Proof.
  intros Hidle [Ht Hasc]. simpl in Ht.
  change (run_script wait (c :: cs) w) with (run_script wait cs (make_call wait w c)).
  apply run_script_primed; [|done]. by apply make_call_idle.
Qed.

(** What a script comes to in the end. *)
Lemma run_script_settled cs log w :
  idle log w → ascending (now w) (called <$> cs) →
  executions (settle (run_script wait cs w)) = log ++ (stamp wait <$> survivors wait cs) ∧
  pending (settle (run_script wait cs w)) = [].
Proof.
  intros Hidle Hasc. destruct cs as [|c cs].
  - simpl. rewrite app_nil_r. by apply settle_idle.
  - pose proof (run_script_idle c cs log w Hidle Hasc) as Hp.
    apply settle_primed in Hp as [Hex Hpend]. split; [|done].
    rewrite Hex, <- app_assoc. f_equal.
    rewrite (survivors_last_elem c cs) at 2. by rewrite fmap_app.
Qed.

Lemma run_calls_script (l : list (Z * Args)) w :
  run_calls wait l w = run_script wait (own_task <$> l) w.
Proof.
  revert w. induction l as [|x l IH]; intros w; [done|]. simpl. apply IH.
Qed.

Lemma called_own_task (l : list (Z * Args)) : called <$> (own_task <$> l) = l.
Proof. induction l as [|[t a] l IH]; [done|]. csimpl. by rewrite IH. Qed.

Lemma removelast_last_map {A B} (f : A → B) (l : list A) (d : A) :
  l ≠ [] → removelast (map f l) ++ [f (List.last l d)] = map f l.
Proof.
  intros Hl. induction l as [|x l IH]; [done|]. destruct l as [|y l]; [done|].
  change (map f (x :: y :: l)) with (f x :: map f (y :: l)).
  rewrite removelast_cons by done. rewrite <- app_comm_cons. f_equal.
  by apply IH.
Qed.

Lemma last_fmap {A B} (f : A → B) (l : list A) (d : A) :
  List.last (f <$> l) (f d) = f (List.last l d).
Proof.
  induction l as [|x l IH]; [done|]. destruct l as [|y l]; [done|]. exact IH.
Qed.

(** In a burst every call supersedes the one before it. *)
Lemma survivors_burst c cs :
  burst (delay wait) (time c) (called <$> cs) →
  survivors wait (c :: cs) = [List.last cs c].
Proof.
  revert c. induction cs as [|c' cs IH]; intros c Hb; [done|].
  destruct Hb as [Hc Hb]. simpl in Hc.
  rewrite survivors_cons, last_cons_default.
  replace (supersedes wait (time c) c') with true; [by apply IH|].
  unfold supersedes. destruct (turn c') as [|[|]]; [done|..].
  - symmetry. apply Z.ltb_lt. lia.
  - symmetry. apply Z.leb_le. lia.
Qed.

(** Calls spaced by more than the delay, each in a task of its own, all
    survive. *)
Lemma survivors_spaced (x : Z * Args) (l : list (Z * Args)) :
  spaced (delay wait) (fst x) l →
  survivors wait (own_task <$> x :: l) = own_task <$> x :: l.
Proof.
  revert x. induction l as [|y l IH]; intros x Hs; [done|].
  destruct Hs as [Hy Hs].
  change (own_task <$> x :: y :: l) with (own_task x :: own_task y :: (own_task <$> l)).
  rewrite survivors_cons.
  replace (supersedes wait (time (own_task x)) (own_task y)) with false.
  - f_equal. apply (IH y Hs).
  - unfold supersedes. simpl. symmetry. apply Z.ltb_ge. lia.
Qed.

Lemma spaced_mono (d d' t : Z) (l : list (Z * Args)) :
  (d' ≤ d)%Z → spaced d t l → spaced d' t l.
Proof.
  intros Hd. revert t. induction l as [|x l IH]; intros t; [done|].
  intros [Hx Hs]. split; [lia|by apply IH].
Qed.

Lemma burst_ascending (d t : Z) (l : list (Z * Args)) : burst d t l → ascending t l.
Proof.
  revert t. induction l as [|x l IH]; intros t; [done|].
  intros [Hx Hb]. split; [lia|by apply IH].
Qed.

Lemma spaced_ascending (d t : Z) (l : list (Z * Args)) :
  (0 ≤ d)%Z → spaced d t l → ascending t l.
Proof.
  intros Hd. revert t. induction l as [|x l IH]; intros t; [done|].
  intros [Hx Hs]. split; [lia|by apply IH].
Qed.

End Facts.

Section Claims.
Context {Args : Type} {host : TimerHost}.
Variable wait : Z.

(** Claim C6 (pending-timer invariant).  On any host, whatever the wrapper
    returned by [debounce(func, wait)] and the other scripts did so far, at
    most one scheduled execution of [func] is outstanding; the
    [clearTimeout(timeout)] a new call starts with leaves none outstanding,
    so after the call the only one is the call's own timer, due after the
    call by the delay the host makes of [wait]; the timers of other scripts
    are not touched. *)
Theorem pending_timer_invariant (xs : list (Action Args)) (t0 : Z) (a : Args) :
  let w := run wait xs (boot t0) in
  length (outstanding w) ≤ 1 ∧
  outstanding (clearTimeout (timeout w) w) = [] ∧
  outstanding (executedFunction wait a w) =
    [mkTimer (next_handle w) (now w + timer_delay wait) (Later a)] ∧
  foreign (executedFunction wait a w) = foreign w.
Proof.
  intros w. assert (Hwf : well_formed w) by apply well_formed_run, well_formed_boot.
  split_and!.
  - by apply at_most_one_later.
  - by apply clear_no_later.
  - unfold outstanding. rewrite executedFunction_pending, filter_app.
    fold (outstanding (clearTimeout (timeout w) w)). rewrite clear_no_later by done.
    done.
  - unfold foreign. rewrite executedFunction_pending, filter_app.
    fold (foreign (clearTimeout (timeout w) w)). rewrite clear_keeps_foreign by done.
    rewrite filter_cons_False; [|simpl; tauto]. by rewrite app_nil_r.
Qed.


(** Claim C7 (debounce spacing).  Take a host with any history in which no
    execution of [func] is outstanding, [wait > 0], and calls to the wrapper
    each more than [wait] after the one before.  On a punctual host every
    call produces one execution of [func] of its own, with that call's
    arguments, after the call by the delay the host makes of [wait], which
    is [wait] itself up to 2^31 - 1: by the time of the last call the
    earlier ones have all run, in order, and the last one follows. *)
Theorem debounce_spacing (xs : list (Action Args)) (t0 : Z)
    (c : Z * Args) (cs : list (Z * Args)) :
  outstanding (run wait xs (boot t0)) = [] →
  (0 < wait)%Z → (now (run wait xs (boot t0)) ≤ fst c)%Z → spaced wait (fst c) cs →
  let w0 := run wait xs (boot t0) in
  let w := run_calls wait (c :: cs) w0 in
  executions w =
    executions w0 ++ removelast (map (λ c, ((fst c + timer_delay wait)%Z, snd c)) (c :: cs)) ∧
  executions (settle w) =
    executions w0 ++ map (λ c, ((fst c + timer_delay wait)%Z, snd c)) (c :: cs) ∧
  pending (settle w) = [] ∧
  ((wait ≤ 2147483647)%Z → timer_delay wait = wait).
Proof.
  intros Hnone Hw Ht Hs w0 w.
  assert (Hidle : idle (executions w0) w0).
  { split_and!; [apply well_formed_run, well_formed_boot|done..]. }
  assert (Hs' : spaced (delay wait) (fst c) cs).
  { eapply spaced_mono; [|exact Hs]. by apply timer_delay_le. }
  assert (Hasc : ascending (now w0) (called <$> own_task c :: (own_task <$> cs))).
  { split; [done|]. rewrite called_own_task.
    eapply spaced_ascending; [apply (delay_nonneg wait)|exact Hs']. }
  pose proof (run_script_idle wait (own_task c) (own_task <$> cs) _ w0 Hidle Hasc) as Hp.
  change (own_task c :: (own_task <$> cs)) with (own_task <$> c :: cs) in Hp.
  rewrite <- run_calls_script in Hp. fold w in Hp.
  rewrite survivors_spaced in Hp by done.
  set (ran := λ c : Z * Args, ((fst c + timer_delay wait)%Z, snd c)).
  assert (Hran : ∀ l : list (Z * Args), stamp wait <$> (own_task <$> l) = map ran l).
  { intros l. induction l as [|x l IH]; [done|]. csimpl. by rewrite IH. }
  assert (Hrm : ∀ l : list (Z * Args),
             stamp wait <$> removelast (own_task <$> l) = removelast (map ran l)).
  { intros l. induction l as [|x l IH]; [done|]. destruct l as [|y l]; [done|].
    change (own_task <$> x :: y :: l) with (own_task x :: (own_task <$> y :: l)).
    rewrite removelast_cons by done. rewrite fmap_cons, IH. done. }
  rewrite Hrm in Hp. split_and!.
  - by destruct Hp as [(_ & _ & _ & He) _].
  - apply settle_primed in Hp as [-> _]. rewrite <- app_assoc. f_equal.
    assert (Hlast : ((time (List.last (own_task <$> cs) (own_task c)) + delay wait)%Z,
                     args (List.last (own_task <$> cs) (own_task c)))
                    = ran (List.last (c :: cs) c)).
    { rewrite last_fmap, (last_cons_default c cs c). done. }
    rewrite Hlast. apply removelast_last_map. discriminate.
  - by apply settle_primed in Hp as [_ ?].
  - intros Hmax. apply timer_delay_exact. lia.
Qed.

End Claims.



(** Three calls 130 apart with [wait = 100], on the same host. *)
Lemma debounce_spacing_witness :
  outstanding (run 100 [AForeignSet 45] (boot (Args:=string) 0)) = [] ∧
  (0 < 100)%Z ∧ (now (run 100 [AForeignSet 45] (boot (Args:=string) 0)) ≤ 0)%Z ∧
  spaced 100 0 [(130, "b"); (260, "c")]%Z ∧
  let w0 := run 100 [AForeignSet 45] (boot (Args:=string) 0) in
  let w := run_calls 100 [(0, "a"); (130, "b"); (260, "c")]%Z w0 in
  executions w = executions w0 ++ [(100%Z, "a"); (230%Z, "b")] ∧
  executions (settle w) = executions w0 ++ [(100%Z, "a"); (230%Z, "b"); (360%Z, "c")] ∧
  pending (settle w) = [] ∧
  ((100 ≤ 2147483647)%Z → timer_delay 100 = 100%Z).
Proof.
  assert (H : spaced 100 0 [(130, "b"); (260, "c")]%Z) by (simpl; lia).
  split; [reflexivity|]. split; [lia|]. split; [simpl; lia|]. split; [exact H|].
  exact (debounce_spacing 100 [AForeignSet 45] 0 (0%Z, "a") [(130, "b"); (260, "c")]%Z
           eq_refl ltac:(lia) ltac:(simpl; lia) H).
Defined.

(** The example of the specification: [wait = 100], calls with 1 at 0, 2 at
    30 and 3 at 60 give one execution, with 3, at 160. *)
Example debounce_burst_example :
  executions (settle (run_calls 100 [(0, 1); (30, 2); (60, 3)]%Z (boot 0))) = [(160, 3)]%Z.
Proof. reflexivity. Qed.

Example debounce_shared_queue_example :
  let w := settle (run_calls 100 [(0, "a"); (30, "b"); (60, "c")]%Z
                     (run 100 [AForeignSet 45; AForeignSet 500] (boot (Args:=string) 0))) in
  executions w = [(160%Z, "c")] ∧ pending w = [] ∧ now w = 500%Z.
Proof. repeat split. Qed.

End DebounceFacts.

(** ** Part 4: the tracker, proofs *)

Module Binary64Facts.
Import Binary64.
Local Open Scope Q_scope.

Lemma pow2_pos (e : Z) : 0 < 2 ^ e.
Proof. apply Qpower_0_lt. reflexivity. Qed.

Lemma pow2_le (a b : Z) : (a ≤ b)%Z → 2 ^ a <= 2 ^ b.
Proof. intros H. apply Qpower_le_compat_l; [done|discriminate]. Qed.

Lemma pow2_lt_inv (a b : Z) : 2 ^ a < 2 ^ b → (a < b)%Z.
Proof. intros H. eapply Qpower_lt_compat_l_inv; [exact H|reflexivity]. Qed.

Lemma pow2_plus (a b : Z) : 2 ^ (a + b) == 2 ^ a * 2 ^ b.
Proof. apply Qpower_plus. discriminate. Qed.

Lemma pow2_Z (a : Z) : (0 ≤ a)%Z → inject_Z (2 ^ a) == 2 ^ a.
Proof. intros H. by rewrite Zpower_Qpower. Qed.

Lemma ilog2_spec (x : Q) : 0 < x → 2 ^ ilog2 x <= x ∧ x < 2 ^ (ilog2 x + 1).
Proof.
  intros Hx. unfold ilog2.
  destruct x as [n d]. simpl Qnum. simpl Qden.
  assert (Hn : (0 < n)%Z).
  { unfold Qlt in Hx. simpl in Hx. lia. }
  set (a := Z.log2 n). set (b := Z.log2 (Z.pos d)).
  destruct (Z.log2_spec n Hn) as [Ha1 Ha2]. fold a in Ha1, Ha2.
  destruct (Z.log2_spec (Z.pos d) ltac:(lia)) as [Hb1 Hb2]. fold b in Hb1, Hb2.
  pose proof (Z.log2_nonneg n) as Ha0. fold a in Ha0.
  pose proof (Z.log2_nonneg (Z.pos d)) as Hb0. fold b in Hb0.
  assert (HxD : (n # d) * inject_Z (Z.pos d) == inject_Z n).
  { rewrite (Qmake_Qdiv n d). field. discriminate. }
  assert (HD : 0 < inject_Z (Z.pos d)) by (unfold Qlt; simpl; lia).
  assert (QA1 : 2 ^ a <= inject_Z n) by (rewrite <- pow2_Z by done; by rewrite <- Zle_Qle).
  assert (QA2 : inject_Z n < 2 ^ (a + 1)).
  { rewrite <- pow2_Z by lia. rewrite <- Zlt_Qlt. by rewrite <- Z.add_1_r in Ha2. }
  assert (QB1 : 2 ^ b <= inject_Z (Z.pos d)) by (rewrite <- pow2_Z by done; by rewrite <- Zle_Qle).
  assert (QB2 : inject_Z (Z.pos d) < 2 ^ (b + 1)).
  { rewrite <- pow2_Z by lia. rewrite <- Zlt_Qlt. by rewrite <- Z.add_1_r in Hb2. }
  destruct (Qle_bool (2 ^ (a - b)) (n # d)) eqn:Hk.
  - apply Qle_bool_iff in Hk. split; [done|].
    apply (Qmult_lt_r _ _ _ HD). rewrite HxD.
    eapply Qlt_le_trans; [exact QA2|].
    replace (a + 1)%Z with ((a - b + 1) + b)%Z by lia. rewrite pow2_plus.
    apply Qmult_le_l; [apply pow2_pos|done].
  - assert (Hlt : (n # d) < 2 ^ (a - b)).
    { apply Qnot_le_lt. intros H. apply Qle_bool_iff in H. congruence. }
    split.
    + apply Qlt_le_weak. apply (Qmult_lt_r _ _ _ HD). rewrite HxD.
      eapply Qlt_le_trans; [|exact QA1].
      replace a with ((a - b - 1) + (b + 1))%Z at 2 by lia. rewrite pow2_plus.
      apply Qmult_lt_l; [apply pow2_pos|done].
    + by replace (a - b - 1 + 1)%Z with (a - b)%Z by lia.
Qed.

Lemma ilog2_ge (x : Q) (a : Z) : 0 < x → 2 ^ a <= x → (a ≤ ilog2 x)%Z.
Proof.
  intros Hx Ha. destruct (ilog2_spec x Hx) as [_ H2].
  assert (H : 2 ^ a < 2 ^ (ilog2 x + 1)) by (eapply Qle_lt_trans; eauto).
  apply pow2_lt_inv in H. lia.
Qed.

Lemma ilog2_lt (x : Q) (b : Z) : 0 < x → x < 2 ^ b → (ilog2 x < b)%Z.
Proof.
  intros Hx Hb. destruct (ilog2_spec x Hx) as [H1 _].
  assert (H : 2 ^ ilog2 x < 2 ^ b) by (eapply Qle_lt_trans; eauto).
  by apply pow2_lt_inv in H.
Qed.

Lemma ilog2_le (x y : Q) : 0 < x → x <= y → (ilog2 x ≤ ilog2 y)%Z.
Proof.
  intros Hx Hxy. apply ilog2_ge; [lra|].
  destruct (ilog2_spec x Hx) as [H1 _]. lra.
Qed.

Lemma ilog2_pow2 (a : Z) : ilog2 (2 ^ a) = a.
Proof.
  pose proof (pow2_pos a) as H0.
  pose proof (ilog2_ge (2 ^ a) a H0 ltac:(lra)).
  pose proof (ilog2_lt (2 ^ a) (a + 1) H0
                ltac:(apply Qpower_lt_compat_l; [lia|reflexivity])).
  lia.
Qed.

Lemma ulp_exp_le (x y : Q) : 0 < x → x <= y → (ulp_exp x ≤ ulp_exp y)%Z.
Proof. intros Hx Hxy. unfold ulp_exp. pose proof (ilog2_le x y Hx Hxy). lia. Qed.

(** *** Rounding to the nearest integer *)

Lemma rne_bounds (x : Q) : (Qfloor x ≤ rne x ≤ Qfloor x + 1)%Z.
Proof.
  unfold rne. destruct (Qcompare (x - inject_Z (Qfloor x)) (1 # 2)); [|lia..].
  destruct (Z.even (Qfloor x)); lia.
Qed.

Lemma rne_le (x y : Q) : x <= y → (rne x ≤ rne y)%Z.
Proof.
  intros Hxy. pose proof (Qfloor_resp_le x y Hxy) as Hf.
  pose proof (rne_bounds x). pose proof (rne_bounds y).
  destruct (decide (Qfloor x = Qfloor y)) as [He|Hne]; [|lia].
  unfold rne. rewrite <- He.
  destruct (Qcompare_spec (x - inject_Z (Qfloor x)) (1 # 2)) as [H1|H1|H1];
    destruct (Qcompare_spec (y - inject_Z (Qfloor x)) (1 # 2)) as [H2|H2|H2];
    try (destruct (Z.even (Qfloor x))); try lia; lra.
Qed.

Lemma rne_Z (k : Z) : rne (inject_Z k) = k.
Proof.
  unfold rne. rewrite Qfloor_Z.
  destruct (Qcompare_spec (inject_Z k - inject_Z k) (1 # 2)); [lra|done|lra].
Qed.

Lemma rne_proper (x y : Q) : x == y → rne x = rne y.
Proof.
  intros H. pose proof (rne_le x y ltac:(lra)). pose proof (rne_le y x ltac:(lra)). lia.
Qed.

(** *** Rounding at an exponent *)

Lemma scaled_le_pow2 (x : Q) (p m : Z) :
  (p ≤ m)%Z → x <= 2 ^ m → inject_Z (rne (x * 2 ^ (- p))) * 2 ^ p <= 2 ^ m.
Proof.
  intros Hpm Hx.
  assert (Hs : x * 2 ^ (- p) <= inject_Z (2 ^ (m - p))).
  { rewrite pow2_Z by lia. replace (m - p)%Z with (m + - p)%Z by lia. rewrite pow2_plus.
    apply Qmult_le_compat_r; [done|apply Qlt_le_weak, pow2_pos]. }
  apply rne_le in Hs. rewrite rne_Z in Hs. rewrite Zle_Qle in Hs.
  rewrite pow2_Z in Hs by lia.
  assert (E : 2 ^ m == 2 ^ (m - p) * 2 ^ p).
  { rewrite <- pow2_plus. by replace (m - p + p)%Z with m by lia. }
  rewrite E. apply Qmult_le_compat_r; [done|apply Qlt_le_weak, pow2_pos].
Qed.

Lemma scaled_ge_pow2 (y : Q) (p m : Z) :
  (p ≤ m)%Z → 2 ^ m <= y → 2 ^ m <= inject_Z (rne (y * 2 ^ (- p))) * 2 ^ p.
Proof.
  intros Hpm Hy.
  assert (Hs : inject_Z (2 ^ (m - p)) <= y * 2 ^ (- p)).
  { rewrite pow2_Z by lia. replace (m - p)%Z with (m + - p)%Z by lia. rewrite pow2_plus.
    apply Qmult_le_compat_r; [done|apply Qlt_le_weak, pow2_pos]. }
  apply rne_le in Hs. rewrite rne_Z in Hs. rewrite Zle_Qle in Hs.
  rewrite pow2_Z in Hs by lia.
  assert (E : 2 ^ m == 2 ^ (m - p) * 2 ^ p).
  { rewrite <- pow2_plus. by replace (m - p + p)%Z with m by lia. }
  rewrite E. apply Qmult_le_compat_r; [done|apply Qlt_le_weak, pow2_pos].
Qed.

Lemma round_pos_le (x y : Q) : 0 < x → x <= y → round_pos x <= round_pos y.
Proof.
  intros Hx Hxy. assert (Hy : 0 < y) by lra.
  pose proof (ulp_exp_le x y Hx Hxy) as Hp. unfold round_pos.
  destruct (decide (ulp_exp x = ulp_exp y)) as [He|Hne].
  - rewrite He. apply Qmult_le_compat_r; [|apply Qlt_le_weak, pow2_pos].
    rewrite <- Zle_Qle. apply rne_le.
    apply Qmult_le_compat_r; [done|apply Qlt_le_weak, pow2_pos].
  - assert (Hlt : (ulp_exp x < ulp_exp y)%Z) by lia.
    assert (Hey : ulp_exp y = (ilog2 y - 52)%Z) by (unfold ulp_exp in *; lia).
    assert (Hex : (ilog2 x + 1 ≤ ilog2 y)%Z) by (unfold ulp_exp in *; lia).
    destruct (ilog2_spec x Hx) as [_ Hx2]. destruct (ilog2_spec y Hy) as [Hy1 _].
    apply Qle_trans with (2 ^ ilog2 y).
    + apply scaled_le_pow2; [lia|].
      apply Qlt_le_weak. eapply Qlt_le_trans; [exact Hx2|by apply pow2_le].
    + apply scaled_ge_pow2; [lia|done].
Qed.

Lemma round_pos_nonneg (x : Q) : 0 < x → 0 <= round_pos x.
Proof.
  intros Hx. unfold round_pos.
  apply Qmult_le_0_compat; [|apply Qlt_le_weak, pow2_pos].
  change 0 with (inject_Z 0). rewrite <- Zle_Qle. rewrite <- (rne_Z 0).
  apply rne_le. change (inject_Z 0) with 0.
  apply Qmult_le_0_compat; [lra|apply Qlt_le_weak, pow2_pos].
Qed.

Lemma round_pos_proper (x y : Q) : 0 < x → x == y → round_pos x == round_pos y.
Proof.
  intros Hx Hxy. apply Qle_antisym; apply round_pos_le; lra.
Qed.

(** *** The nearest number *)

Lemma binary64_eq (x : Q) :
  binary64 x == match Qcompare x 0 with
                | Eq => 0
                | Gt => round_pos x
                | Lt => - round_pos (- x)
                end.
Proof. apply Qred_correct. Qed.

Lemma binary64_pos (x : Q) : 0 < x → binary64 x == round_pos x.
Proof. intros H. rewrite binary64_eq. destruct (Qcompare_spec x 0); [lra|lra|done]. Qed.

Lemma binary64_neg (x : Q) : x < 0 → binary64 x == - round_pos (- x).
Proof. intros H. rewrite binary64_eq. destruct (Qcompare_spec x 0); [lra|done|lra]. Qed.

Lemma binary64_zero (x : Q) : x == 0 → binary64 x == 0.
Proof. intros H. rewrite binary64_eq. destruct (Qcompare_spec x 0); [done|lra|lra]. Qed.

Lemma binary64_nonneg (x : Q) : 0 <= x → 0 <= binary64 x.
Proof.
  intros H. destruct (Qlt_le_dec 0 x) as [Hp|Hz].
  - rewrite binary64_pos by done. by apply round_pos_nonneg.
  - rewrite binary64_zero; lra.
Qed.

Lemma binary64_nonpos (x : Q) : x <= 0 → binary64 x <= 0.
Proof.
  intros H. destruct (Qlt_le_dec x 0) as [Hn|Hz].
  - rewrite binary64_neg by done.
    pose proof (round_pos_nonneg (- x) ltac:(lra)). lra.
  - rewrite binary64_zero; lra.
Qed.

Lemma binary64_le (x y : Q) : x <= y → binary64 x <= binary64 y.
Proof.
  intros Hxy. destruct (Qlt_le_dec 0 x) as [Hx|Hx].
  - rewrite (binary64_pos x), (binary64_pos y) by lra. by apply round_pos_le.
  - destruct (Qlt_le_dec y 0) as [Hy|Hy].
    + rewrite (binary64_neg x), (binary64_neg y) by lra.
      pose proof (round_pos_le (- y) (- x) ltac:(lra) ltac:(lra)). lra.
    + pose proof (binary64_nonpos x Hx). pose proof (binary64_nonneg y Hy). lra.
Qed.

Lemma binary64_proper (x y : Q) : x == y → binary64 x == binary64 y.
Proof. intros H. apply Qle_antisym; apply binary64_le; lra. Qed.

(** *** Numbers are fixed points *)

Lemma round_pos_grid (y : Q) (k p : Z) :
  0 < y → y == inject_Z k * 2 ^ p → (ulp_exp y ≤ p)%Z → round_pos y == y.
Proof.
  intros Hy Hk Hp. unfold round_pos. set (u := ulp_exp y) in *.
  assert (Hs : y * 2 ^ (- u) == inject_Z (k * 2 ^ (p - u))).
  { rewrite inject_Z_mult, pow2_Z by lia. rewrite Hk.
    replace (p - u)%Z with (p + - u)%Z by lia. rewrite pow2_plus. ring. }
  rewrite (rne_proper _ _ Hs), rne_Z, inject_Z_mult, pow2_Z by lia.
  rewrite Hk. rewrite <- Qmult_assoc, <- pow2_plus.
  by replace (p - u + u)%Z with p by lia.
Qed.

Lemma round_pos_fixed (x : Q) :
  0 < x → round_pos x == 0 ∨ (0 < round_pos x ∧ round_pos (round_pos x) == round_pos x).
Proof.
  intros Hx. pose proof (round_pos_nonneg x Hx) as H0.
  destruct (Qlt_le_dec 0 (round_pos x)) as [Hp|Hz]; [right|left; lra].
  split; [done|].
  set (p := ulp_exp x). set (k := rne (x * 2 ^ (- p))).
  assert (Hy : round_pos x == inject_Z k * 2 ^ p) by reflexivity.
  destruct (ilog2_spec x Hx) as [_ Hx2].
  assert (Hm : (ilog2 x + 1 ≤ p + 53)%Z) by (unfold p, ulp_exp; lia).
  assert (Hle : round_pos x <= 2 ^ (p + 53)).
  { apply scaled_le_pow2; [lia|].
    apply Qlt_le_weak. eapply Qlt_le_trans; [exact Hx2|by apply pow2_le]. }
  destruct (Qlt_le_dec (round_pos x) (2 ^ (p + 53))) as [Hlt|Hge].
  - apply (round_pos_grid _ k p); [done..|].
    pose proof (ilog2_lt _ _ Hp Hlt). unfold ulp_exp. unfold p, ulp_exp in *. lia.
  - assert (He : round_pos x == 2 ^ (p + 53)) by lra.
    rewrite (round_pos_proper _ _ Hp He), He.
    apply (round_pos_grid _ (2 ^ 52) (p + 1)); [apply pow2_pos| |].
    + rewrite pow2_Z by lia. rewrite <- pow2_plus. by replace (52 + (p + 1))%Z with (p + 53)%Z by lia.
    + unfold ulp_exp. rewrite ilog2_pow2. unfold p, ulp_exp. lia.
Qed.

Lemma binary64_idem (x : Q) : binary64 (binary64 x) == binary64 x.
Proof.
  destruct (Qlt_le_dec 0 x) as [Hx|Hx].
  - rewrite (binary64_proper _ _ (binary64_pos x Hx)).
    rewrite (binary64_pos x Hx).
    destruct (round_pos_fixed x Hx) as [Hz|[Hp Hf]].
    + rewrite binary64_zero; lra.
    + by rewrite binary64_pos.
  - destruct (Qlt_le_dec x 0) as [Hn|Hz].
    + rewrite (binary64_proper _ _ (binary64_neg x Hn)).
      rewrite (binary64_neg x Hn).
      destruct (round_pos_fixed (- x) ltac:(lra)) as [Hz|[Hp Hf]].
      * rewrite binary64_zero; lra.
      * rewrite binary64_neg by lra.
        rewrite (round_pos_proper (- - round_pos (- x)) (round_pos (- x))); [lra|lra|ring].
    + assert (E : x == 0) by lra.
      rewrite (binary64_proper _ _ (binary64_zero x E)).
      rewrite (binary64_zero x E). by apply binary64_zero.
Qed.

(** *** The rounding error *)

Lemma rne_error (y : Q) : y - (1 # 2) <= inject_Z (rne y) ∧ inject_Z (rne y) <= y + (1 # 2).
Proof.
  pose proof (Qfloor_le y) as Hf1. pose proof (Qlt_floor y) as Hf2.
  rewrite inject_Z_plus in Hf2. change (inject_Z 1) with 1 in Hf2.
  unfold rne.
  destruct (Qcompare_spec (y - inject_Z (Qfloor y)) (1 # 2)) as [H|H|H].
  - destruct (Z.even (Qfloor y)).
    + split; lra.
    + rewrite inject_Z_plus. change (inject_Z 1) with 1. split; lra.
  - split; lra.
  - rewrite inject_Z_plus. change (inject_Z 1) with 1. split; lra.
Qed.

(** In the range of the normal numbers the nearest number is off by at
    most 2^-53 of the value. *)
Lemma round_pos_error (x : Q) :
  2 ^ (-1022) <= x →
  x * (1 - (1 # 9007199254740992)) <= round_pos x ∧
  round_pos x <= x * (1 + (1 # 9007199254740992)).
Proof.
  intros Hx. assert (H0 : 0 < x) by (pose proof (pow2_pos (-1022)); lra).
  pose proof (ilog2_ge x (-1022) H0 Hx) as He.
  destruct (ilog2_spec x H0) as [Hlo _].
  unfold round_pos. assert (Hp : ulp_exp x = (ilog2 x - 52)%Z) by (unfold ulp_exp; lia).
  rewrite Hp. set (p := (ilog2 x - 52)%Z).
  pose proof (pow2_pos p) as HP.
  assert (Hinv : 2 ^ p * 2 ^ (- p) == 1).
  { rewrite <- pow2_plus. by replace (p + - p)%Z with 0%Z by lia. }
  assert (Hulp : 2 ^ p == 2 ^ ilog2 x * (1 # 4503599627370496)).
  { unfold p. replace (ilog2 x - 52)%Z with (ilog2 x + -52)%Z by lia.
    rewrite pow2_plus. apply Qmult_comp; reflexivity. }
  destruct (rne_error (x * 2 ^ (- p))) as [H1 H2].
  set (R := inject_Z (rne (x * 2 ^ (- p)))) in *.
  assert (H1' : (x * 2 ^ (- p) - (1 # 2)) * 2 ^ p <= R * 2 ^ p)
    by (apply Qmult_le_compat_r; lra).
  assert (H2' : R * 2 ^ p <= (x * 2 ^ (- p) + (1 # 2)) * 2 ^ p)
    by (apply Qmult_le_compat_r; lra).
  assert (E1 : (x * 2 ^ (- p) - (1 # 2)) * 2 ^ p == x - (1 # 2) * 2 ^ p).
  { transitivity (x * (2 ^ p * 2 ^ (- p)) - (1 # 2) * 2 ^ p); [ring|]. rewrite Hinv. ring. }
  assert (E2 : (x * 2 ^ (- p) + (1 # 2)) * 2 ^ p == x + (1 # 2) * 2 ^ p).
  { transitivity (x * (2 ^ p * 2 ^ (- p)) + (1 # 2) * 2 ^ p); [ring|]. rewrite Hinv. ring. }
  rewrite E1 in H1'. rewrite E2 in H2'.
  set (B := R * 2 ^ p) in *. rewrite Hulp in H1'. rewrite Hulp in H2'.
  set (L := 2 ^ ilog2 x) in *. split; lra.
Qed.

Lemma binary64_error (x : Q) :
  2 ^ (-1022) <= x →
  x * (1 - (1 # 9007199254740992)) <= binary64 x ∧
  binary64 x <= x * (1 + (1 # 9007199254740992)).
Proof.
  intros Hx. assert (H0 : 0 < x) by (pose proof (pow2_pos (-1022)); lra).
  rewrite (binary64_pos x H0). by apply round_pos_error.
Qed.

(** *** The arithmetic of the viewport test *)

Lemma binary64_one : binary64 1 == 1.
Proof. vm_compute. reflexivity. Qed.

Lemma of_int_fixed (n : Z) : binary64 (of_int n) == of_int n.
Proof. apply binary64_idem. Qed.

Lemma fsub_unit (t : Q) : 0 <= t → t <= 1 → 0 <= fsub 1 t ∧ fsub 1 t <= 1.
Proof.
  intros H0 H1. unfold fsub. split.
  - apply binary64_nonneg. lra.
  - rewrite <- binary64_one at 2. apply binary64_le. lra.
Qed.

Lemma fmul_nonneg (x y : Q) : 0 <= x → 0 <= y → 0 <= fmul x y.
Proof. intros Hx Hy. apply binary64_nonneg. by apply Qmult_le_0_compat. Qed.

(** A number times a factor between 0 and 1 is at most the number. *)
Lemma fmul_le_number (x c : Q) :
  binary64 x == x → 0 <= x → c <= 1 → fmul x c <= x.
Proof.
  intros Hx H0 Hc. unfold fmul. rewrite <- Hx at 2. apply binary64_le.
  assert (H : 0 <= x * (1 - c)) by (apply Qmult_le_0_compat; lra). lra.
Qed.

Lemma fmul_le_r (x c c' : Q) : 0 <= x → c <= c' → fmul x c <= fmul x c'.
Proof.
  intros H0 Hc. apply binary64_le.
  assert (H : 0 <= x * (c' - c)) by (apply Qmult_le_0_compat; lra). lra.
Qed.

Lemma fsub_le_r (t t' : Q) : t <= t' → fsub 1 t' <= fsub 1 t.
Proof. intros H. apply binary64_le. lra. Qed.

Lemma default_threshold_unit :
  0 <= Tracker.default_threshold ∧ Tracker.default_threshold <= 1.
Proof. split; apply Qle_bool_iff; vm_compute; reflexivity. Qed.

End Binary64Facts.

(** *** The model against the machine's arithmetic *)

Module Binary64Check.
Import Binary64 PrimFloat.

(** The literal [0.1]. *)
Example literal_tenth :
  float_value 0x1.999999999999ap-4 = Some Tracker.default_threshold.
Proof. vm_compute. reflexivity. Qed.

(** [768 * (1 - 0.1)] and [768 * 0.1], the bounds of the band in a window
    768 pixels high: 691.2 and 76.80000000000001 as numbers. *)
Example band_768 :
  float_value (768 * (1 - 0x1.999999999999ap-4)) =
    Some (fmul (of_int 768) (fsub 1 Tracker.default_threshold)) ∧
  float_value (768 * 0x1.999999999999ap-4) =
    Some (fmul (of_int 768) Tracker.default_threshold) ∧
  float_value 0x1.599999999999ap+9 =
    Some (fmul (of_int 768) (fsub 1 Tracker.default_threshold)) ∧
  float_value 0x1.3333333333334p+6 =
    Some (fmul (of_int 768) Tracker.default_threshold).
Proof. vm_compute. done. Qed.

(** The same in a window 1000 pixels high, where both bounds are
    integers. *)
Example band_1000 :
  float_value (1000 * (1 - 0x1.999999999999ap-4)) =
    Some (fmul (of_int 1000) (fsub 1 Tracker.default_threshold)) ∧
  float_value (1000 * 0x1.999999999999ap-4) =
    Some (fmul (of_int 1000) Tracker.default_threshold) ∧
  fmul (of_int 1000) (fsub 1 Tracker.default_threshold) = 900%Q ∧
  fmul (of_int 1000) Tracker.default_threshold = 100%Q.
Proof. vm_compute. done. Qed.

(** A tie goes to the even significand: 3 * 3002399751580331 is 2^53 + 1,
    half way between two numbers. *)
Example tie_to_even :
  float_value (3 * 3002399751580331) = Some (fmul 3 3002399751580331) ∧
  fmul 3 3002399751580331 = 9007199254740992%Q ∧
  float_value (3 * 3002399751580333) = Some (fmul 3 3002399751580333) ∧
  fmul 3 3002399751580333 = 9007199254741000%Q.
Proof. vm_compute. done. Qed.

(** Negative numbers, and the subnormal range down to zero. *)
Example negative_and_subnormal :
  float_value (-3 * 0x1.999999999999ap-4) =
    Some (fmul (-3) Tracker.default_threshold) ∧
  float_value (0x1p-1074 * 0x1.8p-1) = Some (fmul (2 ^ (-1074)) (3 # 4)) ∧
  float_value (0x1p-1074 * 0x1p-1) = Some (fmul (2 ^ (-1074)) (1 # 2)) ∧
  float_value (0x1.8p-1073 * 0x1p-1) = Some (fmul (3 * 2 ^ (-1074)) (1 # 2)) ∧
  float_value (0x1.fffffffffffffp-1022 * 0x1p-1) =
    Some (fmul ((2 - 2 ^ (-52)) * 2 ^ (-1022)) (1 # 2)).
Proof. vm_compute. done. Qed.

End Binary64Check.

Module TrackerFacts.
Import Binary64 Binary64Facts Tracker.
Local Open Scope js_scope.

Implicit Types (s : ScrollAnimations) (e : Element) (d item : ElementData)
  (l : list ElementData) (r : option Element) (o : gset Element).

(** *** [find] *)

Lemma find_entry_null l : find_entry None l = None.
Proof. unfold find_entry. apply list_find_None, Forall_forall. by intros d _. Qed.

Lemma find_entry_Some e l i d :
  find_entry (Some e) l = Some (i, d) ↔
  l !! i = Some d ∧ element d = e ∧
  ∀ j d', l !! j = Some d' → j < i → element d' ≠ e.
Proof.
  unfold find_entry. rewrite list_find_Some. split.
  - intros (Hi & [= He] & Hlt). split_and!; [done..|].
    intros j d' Hj Hji Heq. eapply Hlt; [done..|]. by rewrite Heq.
  - intros (Hi & He & Hlt). split_and!; [done|by rewrite He|].
    intros j d' Hj Hji [= Heq]. by eapply Hlt.
Qed.

Lemma find_entry_None e l : find_entry (Some e) l = None ↔ e ∉ fmap element l.
Proof.
  unfold find_entry. rewrite list_find_None, Forall_forall. split.
  - intros H (d & -> & Hd)%list_elem_of_fmap. by apply (H d).
  - intros H d Hd [= <-]. apply H. apply list_elem_of_fmap. eauto.
Qed.

Lemma find_entry_le e l k item :
  l !! k = Some item → element item = e →
  ∃ i d, find_entry (Some e) l = Some (i, d) ∧ i ≤ k.
Proof.
  intros Hk He. destruct (find_entry (Some e) l) as [[i d]|] eqn:Hf.
  - exists i, d. split; [done|]. apply find_entry_Some in Hf as (_ & _ & Hlt).
    destruct (decide (i ≤ k)) as [|Hgt]; [done|]. exfalso.
    apply (Hlt k item); [done | lia | done].
  - apply find_entry_None in Hf. exfalso. apply Hf.
    apply list_elem_of_fmap. exists item. split; [done|]. by eapply list_elem_of_lookup_2.
Qed.

(** Which object [find] resolves to depends on the element references
    only. *)
Lemma find_entry_same_refs r l l' i d :
  fmap element l' = fmap element l →
  find_entry r l = Some (i, d) →
  ∃ d', find_entry r l' = Some (i, d') ∧ l' !! i = Some d' ∧ element d' = element d.
Proof.
  intros Hmap. destruct r as [e|]; [|by rewrite find_entry_null].
  intros (Hi & He & Hlt)%find_entry_Some.
  assert (Hl : ∀ j, element <$> (l' !! j) = element <$> (l !! j)).
  { intros j. by rewrite <- !list_lookup_fmap, Hmap. }
  pose proof (Hl i) as Hli. rewrite Hi in Hli. simpl in Hli.
  destruct (l' !! i) as [d'|] eqn:Hi'; [|done]. injection Hli as Hd'.
  exists d'. split_and!; [|done..]. apply find_entry_Some. split_and!; [done|congruence|].
  intros j x Hj Hji. pose proof (Hl j) as Hlj. rewrite Hj in Hlj. simpl in Hlj.
  destruct (l !! j) as [y|] eqn:Hy; [|done]. injection Hlj as ->. by eapply Hlt.
Qed.

(** *** The procedures on an instance whose observer is set *)

Lemma animateElement_null s : animateElement None s = (Normal tt, s).
Proof. unfold animateElement, bind, get_elements. by rewrite find_entry_null. Qed.

Lemma animateElement_eq e s o :
  observer s = Some o →
  animateElement (Some e) s =
  (Normal tt,
   match find_entry (Some e) (elements s) with
   | Some (i, d) => if animated d then s else reveal_at i d o s
   | None => s
   end).
Proof.
  intros Ho. unfold animateElement, bind, get_elements.
  destruct (find_entry (Some e) (elements s)) as [[i d]|] eqn:Hf; [|done].
  destruct (animated d); [done|].
  apply find_entry_Some in Hf as (_ & <- & _).
  unfold set_elements, deref, ret, host, unobserve, bind, this_observer, set_observer.
  simpl. rewrite Ho. unfold reveal_at, host. simpl. by rewrite <- app_assoc.
Qed.

Lemma addElement_eq e ty s o :
  observer s = Some o →
  addElement (Some e) ty s =
  (Normal tt,
   mkState (elements s ++ [mkData e (default "fadeInScale"%string ty) false])
           (Some ({[e]} ∪ o)) (calls s ++ [Observe e])).
Proof.
  intros Ho. unfold addElement, bind, get_elements, set_elements, observe, bind,
    this_observer, set_observer, host. simpl. by rewrite Ho.
Qed.

Lemma check_item_eq g item s :
  check_item g item s =
  if animated item then (Normal tt, s)
  else if viewport_test g (element item) None
       then animateElement (Some (element item))
              (note (GetBoundingClientRect (element item)) s)
       else (Normal tt, note (GetBoundingClientRect (element item)) s).
Proof.
  unfold check_item. destruct (animated item); [done|]. simpl.
  unfold isInViewport, bind, host, ret. simpl.
  by destruct (viewport_test g (element item) None).
Qed.

(** *** Rules for total correctness *)

Lemma triple_bind {A B} (P : ScrollAnimations → Prop) (m : JS A) (k : A → JS B)
    (R : A → ScrollAnimations → Prop) (Q : B → ScrollAnimations → Prop) :
  triple P m R → (∀ a, triple (R a) (k a) Q) → triple P (bind m k) Q.
Proof.
  intros Hm Hk s HP. destruct (Hm s HP) as (a & s1 & Hms & HR).
  destruct (Hk a s1 HR) as (b & s2 & Hks & HQ).
  exists b, s2. split; [|done]. unfold bind. by rewrite Hms.
Qed.

(** The loop rule: [I j] holds before index [j] is visited. *)
Lemma triple_forEach_from (I : nat → ScrollAnimations → Prop) body k n :
  (∀ j item, k ≤ j < k + n →
     triple (λ s, I j s ∧ elements s !! j = Some item) (body item) (λ _, I (S j))) →
  (∀ j s, k ≤ j < k + n → I j s → elements s !! j = None → I (S j) s) →
  triple (I k) (forEach_from body k n) (λ _, I (k + n)).
Proof.
  revert k. induction n as [|n IH]; intros k Hbody Hhole.
  - replace (k + 0) with k by lia. intros s HI. by exists tt, s.
  - intros s HI. simpl. unfold bind at 1, get_elements.
    replace (k + S n) with (S k + n) by lia.
    assert (Hrest : triple (I (S k)) (forEach_from body (S k) n) (λ _, I (S k + n))).
    { apply IH.
      - intros j item Hj. apply Hbody. lia.
      - intros j s' Hj. apply Hhole. lia. }
    destruct (elements s !! k) as [item|] eqn:Hk.
    + apply (triple_bind (λ s, I k s ∧ elements s !! k = Some item) _ _ (λ _, I (S k))).
      * apply Hbody. lia.
      * intros _. exact Hrest.
      * done.
    + apply Hrest. apply Hhole; [lia|done..].
Qed.

(** *** Observations under the elementary state changes *)

Lemma marks_app e (cs cs' : list HostCall) :
  marks e (cs ++ cs') = marks e cs + marks e cs'.
Proof. unfold marks. by rewrite filter_app, length_app. Qed.

Lemma marks_reveal e e0 :
  marks e [ClassListAdd e0 "animate"; Unobserve e0] = if decide (e = e0) then 1 else 0.
Proof.
  unfold marks. rewrite filter_cons, (filter_cons_False _ (Unobserve e0)) by done.
  destruct (decide (e = e0)) as [->|Hne].
  - by rewrite decide_True.
  - rewrite decide_False; [done|]. intros [= ->]. done.
Qed.

Lemma refs_insert_mark i d l :
  l !! i = Some d → element <$> <[i := mark_animated d]> l = element <$> l.
Proof.
  intros Hi. rewrite list_fmap_insert. simpl. apply list_insert_id.
  by rewrite list_lookup_fmap, Hi.
Qed.

Lemma revealed_reveal_at e e0 i d o s :
  find_entry (Some e0) (elements s) = Some (i, d) →
  revealed (reveal_at i d o s) e = if decide (e = e0) then true else revealed s e.
Proof.
  intros Hf. pose proof Hf as (Hi & He0 & _)%find_entry_Some.
  unfold revealed. simpl.
  pose proof (refs_insert_mark i d (elements s) Hi) as Hrefs.
  destruct (decide (e = e0)) as [->|Hne].
  - destruct (find_entry_same_refs _ _ _ _ _ Hrefs Hf) as (d' & -> & Hd' & _).
    rewrite list_lookup_insert_eq in Hd' by (by eapply lookup_lt_Some).
    by injection Hd' as <-.
  - destruct (find_entry (Some e) (elements s)) as [[j x]|] eqn:Hfe.
    + destruct (find_entry_same_refs _ _ _ _ _ Hrefs Hfe) as (x' & -> & Hx' & _).
      apply find_entry_Some in Hfe as (Hj & Hx & _).
      rewrite list_lookup_insert_ne in Hx' by (intros ->; congruence).
      congruence.
    + apply find_entry_None in Hfe. rewrite <- Hrefs in Hfe.
      apply find_entry_None in Hfe. by rewrite Hfe.
Qed.

Lemma find_entry_snoc e l x :
  find_entry (Some e) (l ++ [x]) =
  match find_entry (Some e) l with
  | Some p => Some p
  | None => if decide (element x = e) then Some (length l, x) else None
  end.
Proof.
  unfold find_entry.
  destruct (list_find _ l) as [[i d]|] eqn:Hf.
  - by apply list_find_app_l.
  - rewrite list_find_app_r by done. simpl.
    destruct (decide (element x = e)) as [->|Hne].
    + by rewrite decide_True.
    + rewrite decide_False; [done|]. by intros [= ?].
Qed.

Lemma revealed_snoc e l x (ob ob' : option (gset Element)) cs cs' :
  animated x = false →
  revealed (mkState (l ++ [x]) ob cs) e = revealed (mkState l ob' cs') e.
Proof.
  intros Hx. unfold revealed. simpl. rewrite find_entry_snoc.
  destruct (find_entry (Some e) l) as [[i d]|]; [done|].
  by destruct (decide (element x = e)).
Qed.

(** *** The invariant *)

Lemma sound_constructor : sound (snd constructor).
Proof.
  split_and!.
  - by eexists.
  - intros e. reflexivity.
  - intros j d Hj. by destruct j.
Qed.

Lemma sound_note e s : sound s → sound (note (GetBoundingClientRect e) s).
Proof.
  intros (Ho & Hm & Hf). split_and!; [done| |done].
  intros e'. simpl. rewrite marks_app. change (revealed (note _ s) e') with (revealed s e').
  rewrite Hm. unfold marks. rewrite filter_cons_False by done. simpl. lia.
Qed.

Lemma sound_reveal_at e i d o s :
  sound s → find_entry (Some e) (elements s) = Some (i, d) → animated d = false →
  sound (reveal_at i d o s).
Proof.
  intros (Ho & Hm & Hf) Hfe Hd. pose proof Hfe as (Hi & He & _)%find_entry_Some.
  pose proof (refs_insert_mark i d (elements s) Hi) as Hrefs.
  split_and!.
  - by eexists.
  - intros e'. rewrite (revealed_reveal_at e' e) by done. simpl.
    rewrite marks_app, Hm, He, marks_reveal.
    destruct (decide (e' = e)) as [->|Hne]; [|destruct (revealed s e'); lia].
    unfold revealed. by rewrite Hfe, Hd.
  - intros j x Hj Hx. simpl in Hj |- *.
    destruct (decide (j = i)) as [->|Hji].
    + rewrite list_lookup_insert_eq in Hj by (by eapply lookup_lt_Some).
      injection Hj as <-. simpl. rewrite He.
      destruct (find_entry_same_refs _ _ _ _ _ Hrefs Hfe) as (d' & -> & Hd' & _).
      rewrite list_lookup_insert_eq in Hd' by (by eapply lookup_lt_Some). congruence.
    + rewrite list_lookup_insert_ne in Hj by done.
      pose proof (Hf j x Hj Hx) as Hfx.
      destruct (find_entry_same_refs _ _ _ _ _ Hrefs Hfx) as (x' & -> & Hx' & _).
      rewrite list_lookup_insert_ne in Hx' by done. congruence.
Qed.

Lemma sound_add e ty o s :
  sound s →
  sound (mkState (elements s ++ [mkData e ty false]) (Some o) (calls s ++ [Observe e])).
Proof.
  intros (Ho & Hm & Hf). split_and!.
  - by eexists.
  - intros e'. simpl. rewrite marks_app, Hm.
    rewrite (revealed_snoc e' _ _ _ (observer s) _ (calls s)) by done.
    replace (mkState (elements s) (observer s) (calls s)) with s by (by destruct s).
    unfold marks. rewrite filter_cons_False by done. simpl. lia.
  - intros j x Hj Hx. simpl in Hj |- *. rewrite find_entry_snoc.
    apply lookup_app_Some in Hj as [Hj|[_ Hj]].
    + by rewrite (Hf j x Hj Hx).
    + destruct (j - length (elements s)); [|done]. simpl in Hj. injection Hj as <-. done.
Qed.

(** *** Reveal-only changes *)

Lemma flips_refl d : flips d d.
Proof. by left. Qed.

Lemma flips_trans d1 d2 d3 : flips d1 d2 → flips d2 d3 → flips d1 d3.
Proof.
  intros [->|[H1 ->]] [->|[H2 ->]]; [by left|by right|by right|done].
Qed.

Lemma Forall2_flips_refl l : Forall2 flips l l.
Proof. apply Forall_Forall2_diag, Forall_forall. intros. apply flips_refl. Qed.

Lemma Forall2_flips_trans l1 l2 l3 :
  Forall2 flips l1 l2 → Forall2 flips l2 l3 → Forall2 flips l1 l3.
Proof.
  intros H12. revert l3. induction H12 as [|d1 d2 l1 l2 Hd _ IH]; intros l3 H23.
  - by inversion H23.
  - inversion H23 as [|? d3 ? l3' Hd' H23']; subst. constructor; [|by apply IH].
    by eapply flips_trans.
Qed.

Lemma Forall2_flips_refs l l' : Forall2 flips l l' → element <$> l' = element <$> l.
Proof.
  induction 1 as [|d d' l l' [->|[_ ->]] _ IH]; csimpl; by rewrite ?IH.
Qed.

Lemma Forall2_flips_kinds l l' :
  Forall2 flips l l' → animationType <$> l' = animationType <$> l.
Proof.
  induction 1 as [|d d' l l' [->|[_ ->]] _ IH]; csimpl; by rewrite ?IH.
Qed.

Lemma stable_refs s s' : stable s s' → element <$> elements s' = element <$> elements s.
Proof. intros (H & _). by apply Forall2_flips_refs. Qed.

Lemma stable_kinds s s' :
  stable s s' → animationType <$> elements s' = animationType <$> elements s.
Proof. intros (H & _). by apply Forall2_flips_kinds. Qed.

Lemma stable_refl s : stable s s.
Proof. split_and!; [apply Forall2_flips_refl|done..]. Qed.

Lemma stable_trans s1 s2 s3 : stable s1 s2 → stable s2 s3 → stable s1 s3.
Proof.
  intros (Hf & Hm & Hc) (Hf' & Hm' & Hc'). split_and!.
  - by eapply Forall2_flips_trans.
  - auto.
  - by etrans.
Qed.

Lemma stable_note c s : stable s (note c s).
Proof. split_and!; [apply Forall2_flips_refl|done|]. by apply prefix_app_r. Qed.

Lemma stable_reveal_at e i d o s :
  find_entry (Some e) (elements s) = Some (i, d) → animated d = false →
  stable s (reveal_at i d o s).
Proof.
  intros Hf Hd. pose proof Hf as (Hi & _)%find_entry_Some. split_and!.
  - simpl. rewrite <- (list_insert_id (elements s) i d Hi) at 1.
    apply Forall2_insert; [apply Forall2_flips_refl|by right].
  - intros e' He'. rewrite (revealed_reveal_at e' e) by done. by destruct (decide _).
  - by apply prefix_app_r.
Qed.

Lemma stable_extends s s' : stable s s' → extends s s'.
Proof.
  intros Hst. pose proof (stable_refs _ _ Hst) as Hr.
  pose proof (stable_kinds _ _ Hst) as Hk. destruct Hst as (_ & Hm & Hc).
  split_and!; [by rewrite Hr|by rewrite Hk|done..].
Qed.

Lemma extends_refl s : extends s s.
Proof. apply stable_extends, stable_refl. Qed.

Lemma extends_trans s1 s2 s3 : extends s1 s2 → extends s2 s3 → extends s1 s3.
Proof.
  intros (Hr & Hk & Hm & Hc) (Hr' & Hk' & Hm' & Hc'). split_and!; [by etrans..|auto|by etrans].
Qed.

(** *** [animateElement] and [addElement] *)

Lemma animateElement_spec r s :
  sound s →
  ∃ s', animateElement r s = (Normal tt, s') ∧ sound s' ∧ stable s s'.
Proof.
  intros Hs. destruct r as [e|].
  2:{ exists s. rewrite animateElement_null. auto using stable_refl. }
  destruct (Hs) as ([o Ho] & _). rewrite (animateElement_eq e s o Ho).
  eexists. split; [done|].
  destruct (find_entry (Some e) (elements s)) as [[i d]|] eqn:Hf;
    [|auto using stable_refl].
  destruct (animated d) eqn:Hd; [auto using stable_refl|]. split.
  - by eapply sound_reveal_at.
  - by eapply stable_reveal_at.
Qed.

Lemma animateElement_revealed e s :
  sound s → e ∈ element <$> elements s →
  revealed (snd (animateElement (Some e) s)) e = true.
Proof.
  intros ([o Ho] & _) He. rewrite (animateElement_eq e s o Ho). simpl.
  destruct (find_entry (Some e) (elements s)) as [[i d]|] eqn:Hf.
  - destruct (animated d) eqn:Hd.
    + unfold revealed. by rewrite Hf.
    + rewrite (revealed_reveal_at e e) by done. by rewrite decide_True.
  - by apply find_entry_None in Hf.
Qed.

Lemma animateElement_other e e' s :
  sound s → e' ≠ e →
  revealed (snd (animateElement (Some e) s)) e' = revealed s e'.
Proof.
  intros ([o Ho] & _) Hne. rewrite (animateElement_eq e s o Ho). simpl.
  destruct (find_entry (Some e) (elements s)) as [[i d]|] eqn:Hf; [|done].
  destruct (animated d) eqn:Hd; [done|].
  rewrite (revealed_reveal_at e' e) by done. by rewrite decide_False.
Qed.

Lemma addElement_spec r ty s :
  sound s →
  ∃ s', addElement r ty s = (Normal tt, s') ∧ sound s' ∧ extends s s'.
Proof.
  intros Hs. destruct r as [e|].
  2:{ exists s. auto using extends_refl. }
  destruct (Hs) as ([o Ho] & _). rewrite (addElement_eq e ty s o Ho).
  eexists. split; [done|]. split; [by apply sound_add|].
  split_and!; simpl.
  - rewrite fmap_app. by apply prefix_app_r.
  - rewrite fmap_app. by apply prefix_app_r.
  - intros e' He'. rewrite (revealed_snoc e' _ _ _ (observer s) _ (calls s)) by done.
    by destruct s.
  - by apply prefix_app_r.
Qed.

(** *** The observer callback *)

Lemma observerCallback_spec entries s :
  sound s →
  ∃ s', observerCallback entries s = (Normal tt, s') ∧ sound s' ∧ stable s s'.
Proof.
  revert s. induction entries as [|entry rest IH]; intros s Hs.
  - exists s. auto using stable_refl.
  - simpl. unfold bind.
    assert (∃ s1, (if isIntersecting entry then animateElement (Some (target entry))
                   else ret tt) s = (Normal tt, s1) ∧ sound s1 ∧ stable s s1)
      as (s1 & -> & Hs1 & Hst1).
    { destruct (isIntersecting entry); [by apply animateElement_spec|].
      exists s. auto using stable_refl. }
    destruct (IH s1 Hs1) as (s' & -> & Hs' & Hst'). exists s'.
    eauto using stable_trans.
Qed.

(** *** The rescan *)

Lemma examined_app (cs cs' : list HostCall) :
  examined (cs ++ cs') = examined cs ++ examined cs'.
Proof. apply omap_app. Qed.

Lemma take_S_elem {A} (x y : A) (l : list A) k :
  l !! k = Some y → x ∈ take (S k) l ↔ x ∈ take k l ∨ x = y.
Proof.
  intros Hk. rewrite (take_S_r _ _ _ Hk), elem_of_app, list_elem_of_singleton. done.
Qed.

(** A visit of index [k] reveals the element found there and touches no
    object behind [k]. *)
Lemma animateElement_visit e s k item :
  sound s → elements s !! k = Some item → element item = e →
  ∃ s', animateElement (Some e) s = (Normal tt, s') ∧ sound s' ∧ stable s s' ∧
        revealed s' e = true ∧
        (∀ e', e' ≠ e → revealed s' e' = revealed s e') ∧
        drop (S k) (elements s') = drop (S k) (elements s) ∧
        ∃ cs, calls s' = calls s ++ cs ∧ examined cs = [].
Proof.
  intros Hs Hk He.
  assert (Htr : e ∈ element <$> elements s).
  { apply list_elem_of_fmap. exists item. split; [done|]. by eapply list_elem_of_lookup_2. }
  destruct (animateElement_spec (Some e) s Hs) as (s' & Heq & Hs' & Hst).
  pose proof (animateElement_revealed e s Hs Htr) as Hnow.
  pose proof (λ e', animateElement_other e e' s Hs) as Hoth.
  rewrite Heq in Hnow, Hoth. simpl in Hnow, Hoth.
  exists s'. split_and!; [done..| |].
  - destruct (Hs) as ([o Ho] & _). rewrite (animateElement_eq e s o Ho) in Heq.
    injection Heq as <-.
    destruct (find_entry_le e (elements s) k item Hk He) as (i & d & -> & Hik).
    destruct (animated d); [done|]. simpl. by rewrite drop_insert_lt by lia.
  - destruct (Hs) as ([o Ho] & _). rewrite (animateElement_eq e s o Ho) in Heq.
    injection Heq as <-.
    destruct (find_entry (Some e) (elements s)) as [[i d]|];
      [|exists []; by rewrite app_nil_r].
    destruct (animated d); [exists []; by rewrite app_nil_r|]. by eexists.
Qed.

Lemma scan_inv_start g s0 : sound s0 → scan_inv g s0 0 s0.
Proof.
  intros Hs. split_and!; [done|apply stable_refl|done| |].
  - intros e. rewrite take_0, bool_decide_eq_false_2 by apply not_elem_of_nil.
    by rewrite andb_false_r, orb_false_r.
  - exists []. by rewrite app_nil_r.
Qed.

Lemma scan_inv_step g s0 k item s :
  sound s0 → scan_inv g s0 k s → elements s !! k = Some item →
  ∃ s', check_item g item s = (Normal tt, s') ∧ scan_inv g s0 (S k) s'.
Proof.
  intros Hs0 (Hs & Hst & Hdrop & Hrev & cs & Hcs & Hex) Hk.
  assert (Hk0 : elements s0 !! k = Some item).
  { pose proof (lookup_drop (elements s) k 0) as H1.
    pose proof (lookup_drop (elements s0) k 0) as H2.
    rewrite Nat.add_0_r in H1, H2. by rewrite <- H2, <- Hdrop, H1. }
  assert (Hrk : (element <$> elements s0) !! k = Some (element item))
    by (by rewrite list_lookup_fmap, Hk0).
  assert (Hdrop' : drop (S k) (elements s) = drop (S k) (elements s0)).
  { replace (S k) with (k + 1) by lia. by rewrite <- !drop_drop, Hdrop. }
  set (e := element item) in *.
  rewrite check_item_eq. fold e.
  destruct (animated item) eqn:Hitem.
  { (* flagged: skipped *)
    exists s. split; [done|]. split_and!; [done..| |].
    - intros e'. rewrite Hrev.
      destruct (decide (e' = e)) as [->|Hne].
      + destruct Hs0 as (_ & _ & Hfirst).
        pose proof (Hfirst k item Hk0 Hitem) as Hf. fold e in Hf.
        assert (revealed s0 e = true) as -> by (unfold revealed; by rewrite Hf, Hitem).
        done.
      + do 2 f_equal. apply bool_decide_ext. rewrite (take_S_elem _ _ _ _ Hrk). tauto.
    - exists cs. split; [done|]. rewrite (take_S_r _ _ _ Hk0), filter_app.
      rewrite filter_cons_False by (by rewrite Hitem). by rewrite filter_nil, app_nil_r. }
  assert (Hex' : examined (cs ++ [GetBoundingClientRect e]) =
                 element <$> filter (λ d, animated d = false) (take (S k) (elements s0))).
  { rewrite examined_app, Hex, (take_S_r _ _ _ Hk0), filter_app, fmap_app.
    by rewrite filter_cons_True, filter_nil by done. }
  destruct (viewport_test g e None) eqn:Hv.
  2:{ (* out of view: queried, left alone *)
    exists (note (GetBoundingClientRect e) s). split; [done|]. split_and!.
    - by apply sound_note.
    - eapply stable_trans; [exact Hst | apply stable_note].
    - done.
    - intros e'. change (revealed (note _ s) e') with (revealed s e'). rewrite Hrev.
      destruct (decide (e' = e)) as [->|Hne]; [by rewrite Hv|].
      do 2 f_equal. apply bool_decide_ext. rewrite (take_S_elem _ _ _ _ Hrk). tauto.
    - exists (cs ++ [GetBoundingClientRect e]). split; [|done].
      simpl. by rewrite Hcs, app_assoc. }
  (* in view: revealed through [animateElement] *)
  assert (Hs1 : sound (note (GetBoundingClientRect e) s)) by (by apply sound_note).
  destruct (animateElement_visit e _ k item Hs1 Hk eq_refl)
    as (s' & -> & Hs' & Hst' & Hnow & Hoth & Hd' & cs' & Hcs' & Hex'').
  exists s'. split; [done|]. split_and!.
  - done.
  - eapply stable_trans; [exact Hst|]. eapply stable_trans; [apply stable_note|done].
  - by rewrite Hd'.
  - intros e'. destruct (decide (e' = e)) as [->|Hne].
    + rewrite Hnow, Hv, bool_decide_eq_true_2, orb_true_r; [done|].
      apply (take_S_elem _ _ _ _ Hrk). by right.
    + rewrite (Hoth e' Hne). change (revealed (note _ s) e') with (revealed s e').
      rewrite Hrev. do 2 f_equal. apply bool_decide_ext.
      rewrite (take_S_elem _ _ _ _ Hrk). tauto.
  - exists ((cs ++ [GetBoundingClientRect e]) ++ cs'). split.
    + rewrite Hcs'. simpl. by rewrite Hcs, !app_assoc.
    + by rewrite examined_app, Hex'', app_nil_r.
Qed.

Lemma stable_length s s' : stable s s' → length (elements s') = length (elements s).
Proof. intros (Hf & _). symmetry. by eapply Forall2_length. Qed.

Lemma checkElementsInView_scan g s0 :
  sound s0 →
  ∃ s', checkElementsInView g s0 = (Normal tt, s') ∧
        scan_inv g s0 (length (elements s0)) s'.
Proof.
  intros Hs0. unfold checkElementsInView, forEach, bind at 1, get_elements.
  destruct (triple_forEach_from (scan_inv g s0) (check_item g) 0 (length (elements s0)))
    with (s := s0) as ([] & s' & Heq & Hinv).
  - intros j item _ s [Hinv Hj].
    destruct (scan_inv_step g s0 j item s Hs0 Hinv Hj) as (s' & ? & ?). by exists tt, s'.
  - intros j s Hj (_ & Hst & _) Hnone. exfalso.
    apply lookup_ge_None in Hnone. apply stable_length in Hst. lia.
  - by apply scan_inv_start.
  - by exists s'.
Qed.

Lemma checkElementsInView_spec g s :
  sound s →
  ∃ s', checkElementsInView g s = (Normal tt, s') ∧ sound s' ∧ stable s s' ∧
        (∀ e, revealed s' e = revealed s e || (viewport_test g e None && tracked s e)) ∧
        examined (emitted (checkElementsInView g) s) = element <$> unrevealed s.
Proof.
  intros Hs. destruct (checkElementsInView_scan g s Hs)
    as (s' & Heq & Hs' & Hst & _ & Hrev & cs & Hcs & Hex).
  exists s'. split_and!; [done..| |].
  - intros e. rewrite Hrev. unfold tracked.
    by rewrite take_ge by (by rewrite length_fmap).
  - unfold emitted. rewrite Heq. simpl. rewrite Hcs, drop_app_length.
    by rewrite Hex, take_ge.
Qed.

(** *** Histories *)

Lemma run_op_spec op s :
  sound s → ∃ s', run_op op s = (Normal tt, s') ∧ sound s' ∧ extends s s'.
Proof.
  intros Hs. destruct op as [r ty|r|entries|g]; simpl.
  - by apply addElement_spec.
  - destruct (animateElement_spec r s Hs) as (s' & ? & ? & ?).
    eauto using stable_extends.
  - destruct (observerCallback_spec entries s Hs) as (s' & ? & ? & ?).
    eauto using stable_extends.
  - destruct (checkElementsInView_spec g s Hs) as (s' & ? & ? & ? & _).
    eauto using stable_extends.
Qed.

Lemma exec_spec ops s : sound s → sound (exec ops s) ∧ extends s (exec ops s).
Proof.
  revert s. induction ops as [|op ops IH]; intros s Hs.
  - auto using extends_refl.
  - simpl. destruct (run_op_spec op s Hs) as (s' & -> & Hs' & Hext). simpl.
    destruct (IH s' Hs') as [? ?]. eauto using extends_trans.
Qed.

Lemma history_sound ops : sound (history ops).
Proof. apply exec_spec, sound_constructor. Qed.

(** *** Counting the unrevealed objects *)

Lemma unrevealed_insert_mark i d l :
  l !! i = Some d → animated d = false →
  length (filter (λ d, animated d = false) (<[i := mark_animated d]> l)) + 1 =
  length (filter (λ d, animated d = false) l).
Proof.
  intros Hi Hd. rewrite insert_take_drop by (by eapply lookup_lt_Some).
  rewrite <- (take_drop_middle l i d Hi) at 3.
  rewrite !filter_app, !filter_cons, !length_app. simpl.
  rewrite decide_True by done. simpl. lia.
Qed.

(** *** The claims about the tracker *)

(** A procedure that keeps the invariant and the element revealed does not
    apply the marker to it. *)
Lemma no_second_mark e s s' :
  sound s → sound s' → stable s s' → revealed s e = true →
  ClassListAdd e "animate" ∉ drop (length (calls s)) (calls s').
Proof.
  intros (_ & Hm & _) (_ & Hm' & _) (_ & Hmono & [cs Hcs]) Hrev.
  specialize (Hm e). specialize (Hm' e). rewrite Hrev in Hm.
  rewrite (Hmono e Hrev), Hcs, marks_app, Hm in Hm'.
  rewrite Hcs, drop_app_length.
  assert (Hnil : filter (λ c, c = ClassListAdd e "animate") cs = []).
  { apply length_zero_iff_nil. unfold marks in Hm'. lia. }
  by apply (filter_nil_not_elem_of _ _ _ Hnil).
Qed.

(** Claim C2 (reveal monotonicity and idempotence).  Once an element is
    revealed it stays revealed through every later task; from then on
    [animateElement] on it, called directly or from the observer callback,
    completes normally and leaves the whole state as it is (collection,
    observer and host-call log); no rescan and no observer callback, whatever
    it reports, adds the class [animate] to the element again; and in the
    log of all host calls the class was added to the element exactly
    once. *)
Theorem reveal_once (ops1 ops2 : list Op) (e : Element) :
  revealed (history ops1) e = true →
  let s := exec ops2 (history ops1) in
  revealed s e = true ∧
  animateElement (Some e) s = (Normal tt, s) ∧
  (∀ b, observerCallback [mkEntry e b] s = (Normal tt, s)) ∧
  (∀ g, ClassListAdd e "animate" ∉ emitted (checkElementsInView g) s) ∧
  (∀ entries, ClassListAdd e "animate" ∉ emitted (observerCallback entries) s) ∧
  marks e (calls s) = 1.
Proof.
  intros Hrev s.
  destruct (exec_spec ops2 (history ops1) (history_sound ops1)) as [Hs (_ & _ & Hm & _)].
  fold s in Hs, Hm. specialize (Hm e Hrev).
  assert (Hanim : animateElement (Some e) s = (Normal tt, s)).
  { destruct (Hs) as ([o Ho] & _). rewrite (animateElement_eq e s o Ho).
    unfold revealed in Hm. destruct (find_entry (Some e) (elements s)) as [[i d]|]; [|done].
    by rewrite Hm. }
  split_and!; [done..| | | |].
  - intros b. simpl. unfold bind. destruct b; simpl; [by rewrite Hanim|done].
  - intros g. unfold emitted.
    destruct (checkElementsInView_spec g s Hs) as (s' & -> & Hs' & Hst & _).
    by apply no_second_mark.
  - intros entries. unfold emitted.
    destruct (observerCallback_spec entries s Hs) as (s' & -> & Hs' & Hst).
    by apply no_second_mark.
  - destruct Hs as (_ & Hmarks & _). by rewrite Hmarks, Hm.
Qed.

(** Element 3 is registered and revealed; a rescan and an observer report
    follow. *)
Lemma reveal_once_witness :
  revealed (history (registered [3] ++ [OpAnimateElement (Some 3)])) 3 = true ∧
  let s := exec [OpCheckElementsInView page; OpObserverCallback [mkEntry 3 true]]
                (history (registered [3] ++ [OpAnimateElement (Some 3)])) in
  revealed s 3 = true ∧
  animateElement (Some 3) s = (Normal tt, s) ∧
  (∀ b, observerCallback [mkEntry 3 b] s = (Normal tt, s)) ∧
  (∀ g, ClassListAdd 3 "animate" ∉ emitted (checkElementsInView g) s) ∧
  (∀ entries, ClassListAdd 3 "animate" ∉ emitted (observerCallback entries) s) ∧
  marks 3 (calls s) = 1.
Proof.
  split; [reflexivity|].
  apply (reveal_once (registered [3] ++ [OpAnimateElement (Some 3)])
           [OpCheckElementsInView page; OpObserverCallback [mkEntry 3 true]] 3).
  reflexivity.
Defined.

Lemma viewport_test_band g e :
  viewport_test g e None = true ↔
  (rect_top (boundingClientRect g e) <=
     fmul (windowHeight g) (fsub 1 default_threshold))%Q ∧
  (fmul (windowHeight g) default_threshold <= rect_bottom (boundingClientRect g e))%Q ∧
  (rect_left (boundingClientRect g e) <= windowWidth g)%Q ∧
  (0 <= rect_right (boundingClientRect g e))%Q.
Proof.
  unfold viewport_test, in_band. simpl.
  rewrite !andb_true_iff, !Qle_bool_iff. tauto.
Qed.

(** The upper bound of the band is at most the window height. *)
Lemma band_top_le g (t : Q) :
  (0 <= windowHeight g)%Q → (0 <= t)%Q → (t <= 1)%Q →
  (fmul (windowHeight g) (fsub 1 t) <= windowHeight g)%Q.
Proof.
  intros H0 Ht0 Ht1. destruct (fsub_unit t Ht0 Ht1) as [_ Hc].
  apply fmul_le_number; [apply of_int_fixed|done..].
Qed.

Lemma below_the_fold g e :
  (0 <= windowHeight g)%Q →
  (windowHeight g * (11 # 10) < rect_top (boundingClientRect g e))%Q →
  viewport_test g e None = false.
Proof.
  intros H0 Hlt. apply not_true_is_false. intros (Htop & _)%viewport_test_band.
  destruct default_threshold_unit as [Hd0 Hd1].
  pose proof (band_top_le g default_threshold H0 Hd0 Hd1). lra.
Qed.

(** Claim C3, amended (unregistration on reveal).  When [animateElement]
    takes effect on a tracked, unrevealed element, the element is revealed
    and its object stays in the collection: index by index the collection
    holds the same objects, one of them with its flag turned on.  The number
    of unflagged objects goes down by exactly one, the observer no longer
    watches the element, and a later rescan queries the geometry of exactly
    one object fewer than it would have before. *)
Theorem reveal_unregisters (ops : list Op) (e : Element) :
  tracked (history ops) e = true → revealed (history ops) e = false →
  let s := history ops in
  let s' := snd (animateElement (Some e) s) in
  revealed s' e = true ∧
  Forall2 flips (elements s) (elements s') ∧
  length (unrevealed s') + 1 = length (unrevealed s) ∧
  ¬ observed s' e ∧
  ∀ g, length (examined (emitted (checkElementsInView g) s')) + 1 =
       length (examined (emitted (checkElementsInView g) s)).
Proof.
  intros Htr Hrev s s'. pose proof (history_sound ops) as Hs. fold s in Hs, Htr, Hrev.
  apply bool_decide_eq_true_1 in Htr.
  destruct (animateElement_spec (Some e) s Hs) as (s1 & Heq & Hs1 & Hst).
  assert (s1 = s') as -> by (unfold s'; by rewrite Heq).
  assert (Hcount : length (unrevealed s') + 1 = length (unrevealed s) ∧ ¬ observed s' e).
  { unfold s'. destruct (Hs) as ([o Ho] & _). rewrite (animateElement_eq e s o Ho).
    unfold revealed in Hrev. simpl.
    destruct (find_entry (Some e) (elements s)) as [[i d]|] eqn:Hf;
      [|by apply find_entry_None in Hf].
    rewrite Hrev. apply find_entry_Some in Hf as (Hi & <- & _). split.
    - by apply unrevealed_insert_mark.
    - intros (o' & [= <-] & Hin). apply elem_of_difference in Hin as [_ Hn].
      apply Hn. by apply elem_of_singleton. }
  destruct Hcount as [Hcount Hobs]. split_and!; [|by destruct Hst|done..|].
  - by apply animateElement_revealed.
  - intros g.
    destruct (checkElementsInView_spec g s Hs) as (? & _ & _ & _ & _ & ->).
    destruct (checkElementsInView_spec g s' Hs1) as (? & _ & _ & _ & _ & ->).
    by rewrite !length_fmap.
Qed.

(** Elements 3 and 4 are registered, 3 is revealed. *)
Lemma reveal_unregisters_witness :
  tracked (history (registered [3; 4])) 3 = true ∧
  revealed (history (registered [3; 4])) 3 = false ∧
  let s := history (registered [3; 4]) in
  let s' := snd (animateElement (Some 3) s) in
  revealed s' 3 = true ∧
  Forall2 flips (elements s) (elements s') ∧
  length (unrevealed s') + 1 = length (unrevealed s) ∧
  ¬ observed s' 3 ∧
  ∀ g, length (examined (emitted (checkElementsInView g) s')) + 1 =
       length (examined (emitted (checkElementsInView g) s)).
Proof.
  split; [reflexivity|]. split; [reflexivity|].
  apply (reveal_unregisters (registered [3; 4]) 3); reflexivity.
Defined.

(** Removal from the collection does not happen: after element 3, the only
    one registered, is revealed, the array still holds its object, now
    flagged, and a [forEach] over the array still visits it. *)
Lemma reveal_keeps_entry_counterexample :
  let s := history (registered [3]) in
  let s' := snd (animateElement (Some 3) s) in
  revealed s 3 = false ∧ revealed s' 3 = true ∧
  elements s' = [mkData 3 "fadeInScale" true] ∧
  length (elements s') = length (elements s) ∧
  snd (forEach (λ item, host (GetBoundingClientRect (element item))) s') =
  note (GetBoundingClientRect 3) s'.
Proof. vm_compute. repeat split. Qed.

(** The bounds of the band for a window at least one pixel high: 90% and
    10% of the window height, up to the rounding margin. *)
Lemma band_margins g :
  (1 <= windowHeight g)%Q →
  (windowHeight g * (9 # 10) * (1 - rounding_margin) <=
     fmul (windowHeight g) (fsub 1 default_threshold))%Q ∧
  (fmul (windowHeight g) (fsub 1 default_threshold) <=
     windowHeight g * (9 # 10) * (1 + rounding_margin))%Q ∧
  (windowHeight g * (1 # 10) * (1 - rounding_margin) <=
     fmul (windowHeight g) default_threshold)%Q ∧
  (fmul (windowHeight g) default_threshold <=
     windowHeight g * (1 # 10) * (1 + rounding_margin))%Q.
Proof.
  intros Hwh. set (wh := windowHeight g) in *.
  assert (Hc : (fsub 1 default_threshold == 8106479329266893 # 9007199254740992)%Q)
    by (vm_compute; reflexivity).
  assert (Hd : (default_threshold == 3602879701896397 # 36028797018963968)%Q)
    by (vm_compute; reflexivity).
  assert (Hmin : (2 ^ (-1022) <= 1 # 1024)%Q).
  { change (1 # 1024)%Q with (2 ^ (-10))%Q. by apply pow2_le. }
  assert (H1 : (2 ^ (-1022) <= wh * fsub 1 default_threshold)%Q) by (rewrite Hc; lra).
  assert (H2 : (2 ^ (-1022) <= wh * default_threshold)%Q) by (rewrite Hd; lra).
  destruct (binary64_error _ H1) as [Ha1 Ha2]. destruct (binary64_error _ H2) as [Hb1 Hb2].
  unfold fmul, rounding_margin.
  set (B1 := binary64 (wh * fsub 1 default_threshold)) in *.
  set (B2 := binary64 (wh * default_threshold)) in *.
  rewrite Hc in Ha1, Ha2. rewrite Hd in Hb1, Hb2. split_and!; lra.
Qed.

(** Claim C4, amended (the visibility test of the rescan).  A rescan
    completes normally; it queries the geometry of exactly the objects whose
    flag is off, in order; an element is revealed after it exactly when it
    was revealed before or it is tracked and passes [isInViewport] with the
    default threshold; and that test is the band test on the bounding box as
    the arithmetic of numbers computes it: top at most
    [windowHeight * (1 - 0.1)], bottom at least [windowHeight * 0.1], left at
    most the window width, right at least 0.  For a window at least one
    pixel high the two bounds are 90% and 10% of the window height up to
    rounding, 2^-52 of the bound. *)
Theorem poll_reveals_in_band (ops : list Op) (g : Layout) (e : Element) :
  let s := history ops in
  let s' := snd (checkElementsInView g s) in
  fst (checkElementsInView g s) = Normal tt ∧
  examined (emitted (checkElementsInView g) s) = element <$> unrevealed s ∧
  revealed s' e = revealed s e || (tracked s e && viewport_test g e None) ∧
  (viewport_test g e None = true ↔
   (rect_top (boundingClientRect g e) <=
      fmul (windowHeight g) (fsub 1 default_threshold))%Q ∧
   (fmul (windowHeight g) default_threshold <= rect_bottom (boundingClientRect g e))%Q ∧
   (rect_left (boundingClientRect g e) <= windowWidth g)%Q ∧
   (0 <= rect_right (boundingClientRect g e))%Q) ∧
  ((1 <= windowHeight g)%Q →
   (windowHeight g * (9 # 10) * (1 - rounding_margin) <=
      fmul (windowHeight g) (fsub 1 default_threshold))%Q ∧
   (fmul (windowHeight g) (fsub 1 default_threshold) <=
      windowHeight g * (9 # 10) * (1 + rounding_margin))%Q ∧
   (windowHeight g * (1 # 10) * (1 - rounding_margin) <=
      fmul (windowHeight g) default_threshold)%Q ∧
   (fmul (windowHeight g) default_threshold <=
      windowHeight g * (1 # 10) * (1 + rounding_margin))%Q).
Proof.
  intros s s'.
  destruct (checkElementsInView_spec g s (history_sound ops))
    as (s1 & Heq & _ & _ & Hrev & Hex).
  unfold s'. rewrite Heq. simpl.
  split_and!; [done..| |apply viewport_test_band|apply band_margins].
  by rewrite Hrev, (andb_comm (tracked s e)).
Qed.

(** Element 3 of the sample page, in a window 1000 pixels high. *)
Lemma poll_reveals_in_band_witness :
  (1 <= windowHeight page)%Q ∧
  revealed (snd (checkElementsInView page (history (registered [3])))) 3 = true ∧
  (windowHeight page * (9 # 10) * (1 - rounding_margin) <=
     fmul (windowHeight page) (fsub 1 default_threshold))%Q.
Proof.
  assert (H : (1 <= windowHeight page)%Q) by (apply Qle_bool_iff; vm_compute; reflexivity).
  destruct (poll_reveals_in_band (registered [3]) page 3) as (_ & _ & Hrev & _ & Hm).
  split; [exact H|]. split; [by rewrite Hrev|]. by destruct (Hm H).
Defined.

(** Rounding decides at the edge of the band.  In a window 768 pixels high
    the upper bound [768 * (1 - 0.1)] is the number 691.2, which is above
    the real 691.2: a box whose top is that number passes the test, and
    would not pass it in exact arithmetic. *)
Example band_edge_example :
  let top := (3039929748475085 # 4398046511104)%Q in
  let g := mkLayout (λ _, mkRect top 800 0 100) 768 1024 0 0 in
  viewport_test g 0 None = true ∧
  fmul (windowHeight g) (fsub 1 default_threshold) = top ∧
  Qle_bool top (768 * (1 - (1 # 10))) = false.
Proof. vm_compute. repeat split. Qed.

(** The test is not the 10% ratio: on the sample page element 1 has 80% of
    its box inside the viewport, and the rescan does not reveal it, its top
    edge being below 90% of the window height. *)
Lemma poll_misses_visible_counterexample :
  let s := history (registered [1]) in
  spec_ratio_visible page 1 (1 # 10) = true ∧
  tracked s 1 = true ∧
  revealed (snd (checkElementsInView page s)) 1 = false.
Proof. vm_compute. repeat split. Qed.

(** Claim C5, amended (no premature reveal).  Through any number of
    rescans, an element that fails the band test of [isInViewport] under the
    layout of each of them, in particular one whose box lies entirely below
    1.1 times the window height, is revealed afterwards only if it was
    before. *)
Theorem no_premature_reveal (ops : list Op) (gs : list Layout) (e : Element) :
  Forall (λ g, viewport_test g e None = false ∨
               ((0 <= windowHeight g)%Q ∧
                (windowHeight g * (11 # 10) < rect_top (boundingClientRect g e))%Q)) gs →
  revealed (exec (OpCheckElementsInView <$> gs) (history ops)) e =
  revealed (history ops) e.
Proof.
  pose proof (history_sound ops) as Hs. revert Hs. generalize (history ops).
  induction gs as [|g gs IH]; intros s Hs Hall; [done|].
  apply Forall_cons in Hall as [Hg Hall]. csimpl.
  destruct (checkElementsInView_spec g s Hs) as (s' & Heq & Hs' & _ & Hrev & _).
  rewrite Heq. simpl. rewrite (IH s' Hs' Hall), Hrev.
  assert (viewport_test g e None = false) as ->.
  { destruct Hg as [?|[? ?]]; [done|by apply below_the_fold]. }
  by rewrite orb_false_r.
Qed.

(** Element 2 of the sample page, below 1.1 times the window height, through
    three rescans. *)
Lemma no_premature_reveal_witness :
  Forall (λ g, viewport_test g 2 None = false ∨
               ((0 <= windowHeight g)%Q ∧
                (windowHeight g * (11 # 10) < rect_top (boundingClientRect g 2%nat))%Q))
         [page; page; page] ∧
  revealed (exec (OpCheckElementsInView <$> [page; page; page]) (history (registered [2; 3]))) 2 =
  revealed (history (registered [2; 3])) 2.
Proof.
  assert (H : Forall (λ g, viewport_test g 2 None = false ∨
               ((0 <= windowHeight g)%Q ∧
                (windowHeight g * (11 # 10) < rect_top (boundingClientRect g 2%nat))%Q))
         [page; page; page]).
  { repeat constructor; right; split; vm_compute; congruence. }
  split; [exact H|].
  exact (no_premature_reveal (registered [2; 3]) [page; page; page] 2 H).
Defined.

(** With the 10% ratio as the threshold the rescan does reveal too early:
    on the sample page 1.5% of the box of element 0 is inside the viewport,
    and the rescan reveals it. *)
Lemma poll_reveals_sliver_counterexample :
  let s := history (registered [0]) in
  spec_ratio_visible page 0 (1 # 10) = false ∧
  revealed s 0 = false ∧
  revealed (snd (checkElementsInView page s)) 0 = true.
Proof. vm_compute. repeat split. Qed.

Lemma flips_kept d d' : flips d d' → kept d d'.
Proof. intros [->|[Hf ->]]; [done|]. split_and!; [done..|]. by rewrite Hf. Qed.

Lemma Forall2_flips_kept l l' : Forall2 flips l l' → Forall2 kept l l'.
Proof. intros H. eapply Forall2_impl; [exact H|]. apply flips_kept. Qed.

(** Claim C8 (frame condition of the tracked collection).  [addElement]
    on an element appends exactly one object with [animated = false] and
    keeps the objects there; on [null] it keeps the collection.
    [animateElement] on an element that the collection holds turns on the
    flag of the first object with that element, in place: that object keeps
    its element and kind, every other object stays as it is, and nothing is
    added or removed (if the flag is on already, nothing changes); on an
    element that the collection does not hold, and on [null], it keeps the
    collection.  The rescan and the observer callback add and remove
    nothing: index by index the same element and kind, a flag that was on
    still on. *)
Theorem tracked_collection_frame (ops : list Op) :
  let s := history ops in
  (∀ e ty, elements (snd (addElement (Some e) ty s)) =
           elements s ++ [mkData e (default "fadeInScale"%string ty) false]) ∧
  (∀ ty, elements (snd (addElement None ty s)) = elements s) ∧
  (∀ e i d, elements s !! i = Some d → element d = e →
            (∀ j d', j < i → elements s !! j = Some d' → element d' ≠ e) →
            elements (snd (animateElement (Some e) s)) =
            <[i := mkData e (animationType d) true]> (elements s)) ∧
  (∀ e, e ∉ element <$> elements s →
        elements (snd (animateElement (Some e) s)) = elements s) ∧
  elements (snd (animateElement None s)) = elements s ∧
  (∀ g, Forall2 kept (elements s) (elements (snd (checkElementsInView g s)))) ∧
  (∀ entries, Forall2 kept (elements s) (elements (snd (observerCallback entries s)))).
Proof.
  intros s. pose proof (history_sound ops) as Hs. fold s in Hs.
  destruct (Hs) as ([o Ho] & _). split_and!.
  - intros e ty. by rewrite (addElement_eq e ty s o Ho).
  - done.
  - intros e i d Hi He Hfirst. rewrite (animateElement_eq e s o Ho). simpl.
    assert (Hf : find_entry (Some e) (elements s) = Some (i, d)).
    { apply find_entry_Some. split_and!; [done..|]. intros j d' Hj Hji. by eapply Hfirst. }
    rewrite Hf. destruct (animated d) eqn:Hd.
    + symmetry. apply list_insert_id. rewrite Hi. f_equal.
      destruct d; simpl in *. by subst.
    + unfold reveal_at, mark_animated. simpl. by rewrite He.
  - intros e He. rewrite (animateElement_eq e s o Ho). simpl.
    by rewrite (proj2 (find_entry_None e (elements s)) He).
  - by rewrite animateElement_null.
  - intros g. destruct (checkElementsInView_spec g s Hs) as (s' & -> & _ & Hst & _).
    apply Forall2_flips_kept. by destruct Hst.
  - intros entries. destruct (observerCallback_spec entries s Hs) as (s' & -> & _ & Hst).
    apply Forall2_flips_kept. by destruct Hst.
Qed.

(** Elements 3, 4 and 3 again are registered; the reveal of 3 turns on the
    flag at index 0, the first of the two objects for it. *)
Lemma tracked_collection_frame_witness :
  let s := history (registered [3; 4; 3]) in
  elements s !! 0 = Some (mkData 3 "fadeInScale" false) ∧
  elements (snd (animateElement (Some 3) s)) =
    [mkData 3 "fadeInScale" true; mkData 4 "fadeInScale" false;
     mkData 3 "fadeInScale" false].
Proof.
  split; [reflexivity|].
  destruct (tracked_collection_frame (registered [3; 4; 3])) as (_ & _ & H & _).
  exact (H 3 0 (mkData 3 "fadeInScale" false) eq_refl eq_refl
           (λ j d' Hj, ltac:(lia))).
Defined.

(** Claim C9 (degenerate inputs never raise).  On an instance with any
    history, [addElement] with an absent element completes normally and
    leaves the whole state unchanged, [animateElement] with a reference that
    was never registered (or with [null]) does likewise, and neither
    procedure throws for any element reference, [null] included. *)
Theorem degenerate_inputs_never_raise (ops : list Op) (r : option Element)
    (ty : option string) :
  let s := history ops in
  addElement None ty s = (Normal tt, s) ∧
  ((∀ e, r = Some e → tracked s e = false) → animateElement r s = (Normal tt, s)) ∧
  fst (addElement r ty s) = Normal tt ∧
  fst (animateElement r s) = Normal tt.
Proof.
  intros s. pose proof (history_sound ops) as Hs. fold s in Hs. split_and!.
  - done.
  - intros Hun. unfold animateElement, bind, get_elements.
    replace (find_entry r (elements s)) with (@None (nat * ElementData)); [done|].
    symmetry. destruct r as [e|]; [|apply find_entry_null].
    apply find_entry_None. specialize (Hun e eq_refl).
    by apply bool_decide_eq_false_1 in Hun.
  - by destruct (addElement_spec r ty s Hs) as (s' & -> & _).
  - by destruct (animateElement_spec r s Hs) as (s' & -> & _).
Qed.

(** Element 3 is registered; element 9 never was. *)
Lemma degenerate_inputs_witness :
  let s := history (registered [3]) in
  addElement None None s = (Normal tt, s) ∧
  animateElement (Some 9) s = (Normal tt, s) ∧
  fst (addElement (Some 9) None s) = Normal tt ∧
  fst (animateElement (Some 9) s) = Normal tt.
Proof.
  destruct (degenerate_inputs_never_raise (registered [3]) (Some 9) None)
    as (H1 & H2 & H3 & H4).
  split_and!; [exact H1| |exact H3|exact H4].
  apply H2. intros e [= <-]. reflexivity.
Defined.

Lemma duplicate_unflagged s i j di dj :
  sound s → i < j → elements s !! i = Some di → elements s !! j = Some dj →
  element di = element dj → animated dj = false.
Proof.
  intros (_ & _ & Hfirst) Hij Hi Hj He. apply not_true_is_false. intros Hdj.
  apply Hfirst in Hj; [|done]. apply find_entry_Some in Hj as (_ & _ & Hleast).
  by apply (Hleast i di).
Qed.

Lemma exec_cons op ops s : exec (op :: ops) s = exec ops (snd (run_op op s)).
Proof. done. Qed.

Lemma exec_snoc ops op s : exec (ops ++ [op]) s = snd (run_op op (exec ops s)).
Proof. unfold exec. by rewrite fold_left_app. Qed.

Lemma exec_refs ops s :
  sound s →
  element <$> elements (exec ops s) = (element <$> elements s) ++ registrations ops.
Proof.
  revert s. induction ops as [|op ops IH]; intros s Hs.
  - simpl. by rewrite app_nil_r.
  - assert (Hstable : ∀ s1, sound s1 → stable s s1 →
      element <$> elements (exec ops s1) =
      (element <$> elements s) ++ registrations (ops)).
    { intros s1 Hs1 Hst. by rewrite (IH s1 Hs1), (stable_refs _ _ Hst). }
    rewrite exec_cons. destruct op as [[e|] ty|r|entries|g].
    + change (run_op (OpAddElement (Some e) ty)) with (addElement (Some e) ty).
      destruct (Hs) as ([o Ho] & _). rewrite (addElement_eq e ty s o Ho).
      simpl snd. rewrite IH by (by apply sound_add). simpl.
      rewrite fmap_app. by rewrite <- app_assoc.
    + by apply IH.
    + change (run_op (OpAnimateElement r)) with (animateElement r).
      destruct (animateElement_spec r s Hs) as (s1 & Heq1 & Hs1 & Hst).
      rewrite Heq1. by apply Hstable.
    + change (run_op (OpObserverCallback entries)) with (observerCallback entries).
      destruct (observerCallback_spec entries s Hs) as (s1 & Heq1 & Hs1 & Hst).
      rewrite Heq1. by apply Hstable.
    + change (run_op (OpCheckElementsInView g)) with (checkElementsInView g).
      destruct (checkElementsInView_spec g s Hs) as (s1 & Heq1 & Hs1 & Hst & _).
      rewrite Heq1. by apply Hstable.
Qed.

Lemma history_refs ops : element <$> elements (history ops) = registrations ops.
Proof. unfold history. by rewrite (exec_refs ops _ sound_constructor). Qed.

Lemma registrations_app ops ops' :
  registrations (ops ++ ops') = registrations ops ++ registrations ops'.
Proof. apply omap_app. Qed.

(** The position of an element of a list among those that satisfy [P]. *)
Lemma filter_lookup_visit {A} (P : A → Prop) `{∀ x, Decision (P x)}
    (xs : list A) (n : nat) (y : A) :
  xs !! n = Some y → P y → filter P xs !! length (filter P (take n xs)) = Some y.
Proof.
  intros Hj Hd.
  assert (E : filter P xs = filter P (take n xs) ++ y :: filter P (drop (S n) xs)).
  { rewrite <- (take_drop_middle xs n y Hj) at 1.
    by rewrite filter_app, filter_cons_True. }
  rewrite E, lookup_app_r by lia. by rewrite Nat.sub_diag.
Qed.

(** Claim C10 (duplicate registration).  When a history registers the same
    element at the positions [i < j] of its registrations, [i] the first for
    that element, then after any later history the collection holds an
    object for the element at both indices; [find] resolves the element to
    the object at [i], so a reveal turns on the flag there and nowhere else,
    and the element counts as revealed by that flag; the object at [j] is
    unflagged and stays so; the marker has been applied once if the element
    is revealed and never otherwise, and once after a reveal; and every
    rescan queries the element's geometry again when it visits the object at
    [j]: that query is the one with as many queries before it as there are
    unflagged objects before [j]. *)
Theorem duplicate_registration (ops ops' : list Op) (e : Element) (i j : nat) :
  registrations ops !! i = Some e → registrations ops !! j = Some e → i < j →
  (∀ k, k < i → registrations ops !! k ≠ Some e) →
  let s := history (ops ++ ops') in
  ∃ di dj,
    elements s !! i = Some di ∧ element di = e ∧
    elements s !! j = Some dj ∧ element dj = e ∧ animated dj = false ∧
    find_entry (Some e) (elements s) = Some (i, di) ∧
    revealed s e = animated di ∧
    elements (snd (animateElement (Some e) s)) =
      <[i := mkData e (animationType di) true]> (elements s) ∧
    marks e (calls s) = (if animated di then 1 else 0) ∧
    marks e (calls (snd (animateElement (Some e) s))) = 1 ∧
    ∀ g, examined (emitted (checkElementsInView g) s)
           !! length (filter (λ d, animated d = false) (take j (elements s))) = Some e.
Proof.
  intros Hi Hj Hij Hfirst s. pose proof (history_sound (ops ++ ops')) as Hs. fold s in Hs.
  assert (Hrefs : ∀ k, k < length (registrations ops) →
            element <$> (elements s !! k) = registrations ops !! k).
  { intros k Hk. rewrite <- list_lookup_fmap. unfold s.
    rewrite history_refs, registrations_app. by apply lookup_app_l. }
  pose proof (lookup_lt_Some _ _ _ Hi) as Hli. pose proof (lookup_lt_Some _ _ _ Hj) as Hlj.
  pose proof (Hrefs i Hli) as Hri. pose proof (Hrefs j Hlj) as Hrj.
  rewrite Hi in Hri. rewrite Hj in Hrj.
  destruct (elements s !! i) as [di|] eqn:Hdi; [|done]. injection Hri as Hei.
  destruct (elements s !! j) as [dj|] eqn:Hdj; [|done]. injection Hrj as Hej.
  assert (Hf : find_entry (Some e) (elements s) = Some (i, di)).
  { apply find_entry_Some. split_and!; [done..|]. intros k d' Hk Hki Hek.
    apply (Hfirst k Hki). rewrite <- (Hrefs k) by lia. by rewrite Hk, <- Hek. }
  assert (Hflag : animated dj = false).
  { eapply duplicate_unflagged; [exact Hs|exact Hij|exact Hdi|exact Hdj|congruence]. }
  destruct (Hs) as ([o Ho] & Hm & _).
  assert (Hrev : revealed s e = animated di) by (unfold revealed; by rewrite Hf).
  exists di, dj. split_and!; [done..| | | |].
  - rewrite (animateElement_eq e s o Ho), Hf. simpl. destruct (animated di) eqn:Hd.
    + symmetry. apply list_insert_id. rewrite Hdi. f_equal.
      destruct di; simpl in *. by subst.
    + unfold reveal_at, mark_animated. simpl. by rewrite Hei.
  - by rewrite Hm, Hrev.
  - destruct (animateElement_spec (Some e) s Hs) as (s1 & Heq & (_ & Hm1 & _) & _).
    rewrite Heq. simpl. rewrite Hm1.
    assert (Htr : e ∈ element <$> elements s).
    { apply list_elem_of_fmap. exists di.
      split; [done|]. by eapply list_elem_of_lookup_2. }
    pose proof (animateElement_revealed e s Hs Htr) as Hr.
    rewrite Heq in Hr. simpl in Hr. by rewrite Hr.
  - intros g. destruct (checkElementsInView_spec g s Hs) as (? & _ & _ & _ & _ & ->).
    unfold unrevealed. rewrite list_lookup_fmap.
    rewrite (filter_lookup_visit (λ d, animated d = false) _ j dj Hdj Hflag).
    simpl. by rewrite Hej.
Qed.

(** Element 3 is registered twice, at the positions 0 and 2, and a rescan
    of the sample page reveals it: the flag of the object at index 0 is on,
    the object at index 2 is unflagged, the marker was applied once, and the
    next rescan queries element 4, at index 1, and then element 3 again, for
    the object at index 2. *)
Lemma duplicate_registration_witness :
  registrations (registered [3; 4; 3]) !! 0 = Some 3 ∧
  registrations (registered [3; 4; 3]) !! 2 = Some 3 ∧
  let s := history (registered [3; 4; 3] ++ [OpCheckElementsInView page]) in
  elements s =
    [mkData 3 "fadeInScale" true; mkData 4 "fadeInScale" true;
     mkData 3 "fadeInScale" false] ∧
  ∃ di dj,
    elements s !! 0 = Some di ∧ element di = 3 ∧
    elements s !! 2 = Some dj ∧ element dj = 3 ∧ animated dj = false ∧
    find_entry (Some 3) (elements s) = Some (0, di) ∧
    revealed s 3 = animated di ∧
    elements (snd (animateElement (Some 3) s)) =
      <[0 := mkData 3 (animationType di) true]> (elements s) ∧
    marks 3 (calls s) = (if animated di then 1 else 0) ∧
    marks 3 (calls (snd (animateElement (Some 3) s))) = 1 ∧
    ∀ g, examined (emitted (checkElementsInView g) s)
           !! length (filter (λ d, animated d = false) (take 2 (elements s))) = Some 3.
Proof.
  split; [reflexivity|]. split; [reflexivity|]. split; [reflexivity|].
  apply (duplicate_registration (registered [3; 4; 3]) [OpCheckElementsInView page] 3 0 2);
    [reflexivity|reflexivity|lia|intros k Hk; lia].
Defined.

End TrackerFacts.

(** ** Part 5: debounce, further properties *)

Module DebounceMore.
Import Debounce DebounceFacts.

Section More.
Context {Args : Type} {host : TimerHost}.
Variable wait : Z.

Implicit Types (w : Host Args) (tm : Timer Args) (q : list (Timer Args)).
Implicit Types (a : Args) (ks : list (Z * Args)) (log : list (Z * Args)).
Implicit Types (c : Call Args) (cs : list (Call Args)).
Implicit Types (x : Action Args) (xs : list (Action Args)).

(** *** The survivors of a script *)

Lemma survivors_last cs c :
  ∃ l, survivors wait (cs ++ [c]) = l ++ [c] ∧ sublist l cs.
Proof.
  induction cs as [|x cs (l & IH & Hsub)]; [by exists []|].
  change ((x :: cs) ++ [c]) with (x :: (cs ++ [c])). simpl.
  destruct (cs ++ [c]) as [|y ys] eqn:Heq; [by destruct cs|].
  destruct (supersedes wait (time x) y); rewrite IH.
  - exists l. split; [done|by apply sublist_cons].
  - exists (x :: l). split; [done|by apply sublist_skip].
Qed.

Lemma survivors_same_task c cs :
  Forall (λ c', turn c' = SameTask) cs → survivors wait (c :: cs) = [List.last cs c].
Proof.
  revert c. induction cs as [|c' cs IH]; intros c Hall; [done|].
  apply Forall_cons in Hall as [Hc' Hall].
  rewrite survivors_cons, last_cons_default.
  unfold supersedes. rewrite Hc'. by apply IH.
Qed.

(** *** Any host: accounting for executions *)

Lemma lookup_timer_elem h q tm : lookup_timer h q = Some tm → tm ∈ q.
Proof.
  unfold lookup_timer. intros [Hin _]%find_some. by apply list_elem_of_In.
Qed.

Lemma outstanding_sublist w w' :
  sublist (pending w') (pending w) → sublist (outstanding w') (outstanding w).
Proof.
  unfold outstanding. induction 1 as [|x l1 l2 _ IH|x l1 l2 _ IH]; [done|..].
  - rewrite !filter_cons. destruct (decide _); [by apply sublist_skip | done].
  - rewrite filter_cons. destruct (decide _); [by apply sublist_cons | done].
Qed.

Lemma accounted_act ks w x :
  accounted wait ks w → accounted wait (ks ++ calls_made wait [x] w) (act wait w x).
Proof.
  intros (Hwf & Hcount & Hex & Hout).
  assert (Hex' : ∀ ks', Forall (λ e, ∃ tc, (tc, snd e) ∈ ks ++ ks' ∧
                                      (tc + delay wait ≤ fst e)%Z) (executions w)).
  { intros ks'. eapply Forall_impl; [exact Hex|]. intros e (tc & Hin & Hle).
    exists tc. split; [|done]. apply elem_of_app. by left. }
  assert (Hout' : ∀ ks' q, sublist q (outstanding w) →
            Forall (λ tm, ∃ tc a, callback tm = Later a ∧ (tc, a) ∈ ks ++ ks' ∧
                                  due tm = (tc + delay wait)%Z) q).
  { intros ks' q Hsub. eapply Forall_sublist; [|exact Hsub].
    eapply Forall_impl; [exact Hout|]. intros tm (tc & a & Hcb & Hin & Hd).
    exists tc, a. split_and!; [done| |done]. apply elem_of_app. by left. }
  destruct x as [t a|h t|d|h|t]; simpl.
  - (* the wrapper is called *)
    set (w1 := set_now (Z.max (now w) t) w).
    assert (Hwf1 : well_formed w1) by (by apply well_formed_set_now).
    destruct (executedFunction_primes wait a w1 Hwf1) as [(Hwf2 & [h Hone] & _ & Hlog) _].
    split_and!.
    + done.
    + rewrite Hlog, Hone, length_app. simpl. lia.
    + rewrite Hlog. apply Hex'.
    + rewrite Hone. constructor; [|constructor]. exists (Z.max (now w) t), a.
      split_and!; [done| |done]. apply elem_of_app. right. left.
  - (* a timer fires *)
    rewrite app_nil_r.
    destruct (lookup_timer h (pending w)) as [tm|] eqn:Hl; [|done].
    destruct (Z.leb_spec (due tm) t) as [Hdue|_]; [|done].
    apply lookup_timer_elem in Hl.
    destruct (decide (is_later tm)) as [Hlater|Hforeign].
    + assert (Htm : tm ∈ outstanding w) by (by apply list_elem_of_filter).
      rewrite Forall_forall in Hout.
      destruct (Hout tm Htm) as (tc & a & Hcb & Hin & Hd).
      destruct (fire_later t tm a w Hwf Hl Hcb) as [Hnone Hlog].
      assert (Hpos : 0 < length (outstanding w)).
      { destruct (outstanding w); [by apply elem_of_nil in Htm | simpl; lia]. }
      split_and!.
      * by apply well_formed_fire.
      * rewrite Hnone, Hlog, length_app. simpl. lia.
      * rewrite Hlog. apply Forall_app. split; [done|].
        constructor; [|constructor]. exists tc. split; [done|]. simpl. lia.
      * rewrite Hnone. constructor.
    + destruct (fire_foreign t tm w Hwf Hl Hforeign) as [Hsame Hlog].
      split_and!; [by apply well_formed_fire|by rewrite ?Hsame, ?Hlog..].
  - (* another script sets a timer *)
    rewrite app_nil_r.
    match goal with |- accounted _ _ ?w' =>
      assert (Hsame : outstanding w' = outstanding w) end.
    { unfold outstanding. simpl. rewrite filter_app.
      rewrite filter_cons_False by (by intros []). by rewrite filter_nil, app_nil_r. }
    split_and!; [by apply (well_formed_setTimeout_foreign d)|rewrite ?Hsame..].
    + exact Hcount.
    + exact Hex.
    + exact Hout.
  - (* another script clears a timer *)
    rewrite app_nil_r.
    assert (Hsub : sublist (outstanding (clearTimeout (Some h) w)) (outstanding w)).
    { apply outstanding_sublist. apply cancel_sublist. }
    split_and!.
    + eapply well_formed_sublist; [exact Hwf| |done..]. apply cancel_sublist.
    + apply sublist_length in Hsub. simpl in *. lia.
    + done.
    + specialize (Hout' [] _ Hsub). by rewrite app_nil_r in Hout'.
  - (* time passes *)
    rewrite app_nil_r. split_and!; [by apply well_formed_set_now|done..].
Qed.

Lemma calls_made_cons x xs w :
  calls_made wait (x :: xs) w = calls_made wait [x] w ++ calls_made wait xs (act wait w x).
Proof. by destruct x. Qed.

Lemma accounted_run xs ks w :
  accounted wait ks w → accounted wait (ks ++ calls_made wait xs w) (run wait xs w).
Proof.
  revert ks w. induction xs as [|x xs IH]; intros ks w Hacc.
  - simpl. by rewrite app_nil_r.
  - rewrite calls_made_cons, app_assoc. simpl run. by apply IH, accounted_act.
Qed.

Lemma accounted_boot t0 : accounted wait [] (boot (Args:=Args) t0).
Proof.
  split_and!; [apply well_formed_boot|done|constructor|constructor].
Qed.

End More.

Section Extras.
Context {Args : Type} {host : TimerHost}.
Variable wait : Z.

(** X1 (debounce, any script of calls).  Take a host with any history in
    which no execution of [func] is outstanding and a script of calls to the
    wrapper whose times do not run backwards, for any [wait]; each call is
    made by the task of the call before it or starts a later task, and a
    timer due at the very time a task starts fires before or after it,
    whichever the script says.  On a punctual host the executions of [func]
    are exactly the calls that no later call supersedes, in order: a call
    executes if it is the last one, or if the next call starts a later task
    and the timer of the call has fired by then; it executes after it was
    made by the delay the host makes of [wait], with its own arguments.  In
    the end nothing is pending. *)
Theorem debounce_trace (xs : list (Action Args)) (t0 : Z) (cs : list (Call Args)) :
  outstanding (run wait xs (boot t0)) = [] →
  ascending (now (run wait xs (boot t0))) (called <$> cs) →
  let w0 := run wait xs (boot t0) in
  let w := settle (run_script wait cs w0) in
  executions w = executions w0 ++ (stamp wait <$> survivors wait cs) ∧
  pending w = [].
Proof.
  intros Hnone Hasc w0 w. apply run_script_settled; [|done].
  split_and!; [apply well_formed_run, well_formed_boot|done..].
Qed.

(** X2 (debounce, the trailing call).  Under the same conditions the last
    call of a script is never lost: its execution is the last one, after the
    call by the delay the host makes of [wait], and the executions before it
    belong to earlier calls, in the order of the calls, none of them
    twice. *)
Theorem debounce_last_call_runs (xs : list (Action Args)) (t0 : Z)
    (cs : list (Call Args)) (c : Call Args) :
  outstanding (run wait xs (boot t0)) = [] →
  ascending (now (run wait xs (boot t0))) (called <$> cs ++ [c]) →
  let w0 := run wait xs (boot t0) in
  let w := settle (run_script wait (cs ++ [c]) w0) in
  ∃ earlier, executions w =
               executions w0 ++ (stamp wait <$> earlier) ++
               [((time c + timer_delay wait)%Z, args c)] ∧
             sublist earlier cs.
Proof.
  intros Hnone Hasc w0 w.
  destruct (survivors_last wait cs c) as (l & Hl & Hsub). exists l. split; [|done].
  assert (Hidle : idle (executions w0) w0).
  { split_and!; [apply well_formed_run, well_formed_boot|done..]. }
  unfold w. destruct (run_script_settled wait (cs ++ [c]) _ w0 Hidle Hasc) as [-> _].
  by rewrite Hl, fmap_app.
Qed.

(** X3 (debounce, calls of one task).  Whatever [wait] is, zero and
    negative values included, and however far the clock moves between them,
    the calls one task makes lead to one execution only: no timer fires
    while the task runs, so each call cancels the timer of the call before
    it; [func] runs once the task is over, with the arguments of the last
    call, after that call by the delay the host makes of [wait]. *)
Theorem debounce_same_task (xs : list (Action Args)) (t0 : Z)
    (c : Call Args) (cs : list (Call Args)) :
  outstanding (run wait xs (boot t0)) = [] →
  ascending (now (run wait xs (boot t0))) (called <$> c :: cs) →
  Forall (λ c', turn c' = SameTask) cs →
  let w0 := run wait xs (boot t0) in
  let w := run_script wait (c :: cs) w0 in
  executions w = executions w0 ∧
  executions (settle w) =
    executions w0 ++ [((time (List.last cs c) + timer_delay wait)%Z, args (List.last cs c))] ∧
  pending (settle w) = [].
Proof.
  intros Hnone Hasc Hall w0 w.
  assert (Hidle : idle (executions w0) w0).
  { split_and!; [apply well_formed_run, well_formed_boot|done..]. }
  pose proof (run_script_idle wait c cs _ w0 Hidle Hasc) as Hp. fold w in Hp.
  rewrite survivors_same_task in Hp by done. simpl in Hp. rewrite app_nil_r in Hp.
  split.
  - by destruct Hp as [(_ & _ & _ & He) _].
  - by apply settle_primed in Hp.
Qed.

(** X4 (debounce, never more often than called).  On any host, with timers
    firing late and other scripts setting and clearing timers, the
    executions of [func] done so far together with the one still
    outstanding never outnumber the calls made to the wrapper. *)
Theorem debounce_never_outnumbers (xs : list (Action Args)) (t0 : Z) :
  let w := run wait xs (boot t0) in
  length (executions w) + length (outstanding w) ≤ length (calls_made wait xs (boot t0)).
Proof.
  intros w. by destruct (accounted_run wait xs [] _ (accounted_boot wait t0)) as (_ & ? & _).
Qed.

(** X5 (debounce, never early, never with foreign arguments).  On any host
    every execution of [func] has the arguments of a call made to the
    wrapper, and happens no sooner after that call than the delay the host
    makes of [wait]: no sooner than [wait] itself when [wait] is from 1 to
    2^31 - 1. *)
Theorem debounce_never_early (xs : list (Action Args)) (t0 : Z) (t : Z) (a : Args) :
  (t, a) ∈ executions (run wait xs (boot t0)) →
  ∃ tc, (tc, a) ∈ calls_made wait xs (boot t0) ∧ (tc + timer_delay wait ≤ t)%Z ∧
        ((1 ≤ wait ≤ 2147483647)%Z → (tc + wait ≤ t)%Z).
Proof.
  intros Hin.
  destruct (accounted_run wait xs [] _ (accounted_boot wait t0)) as (_ & _ & Hex & _).
  rewrite Forall_forall in Hex. destruct (Hex (t, a) Hin) as (tc & Hc & Hle).
  exists tc. split_and!; [done..|]. intros Hw.
  unfold delay in Hle. by rewrite timer_delay_exact in Hle.
Qed.

End Extras.

(** Five calls with [wait = 100]: the second is made by the task of the
    first, the third comes after the timer of the second has fired, the
    fourth at the very time the timer of the third is due, in a task that
    the host starts first, and the fifth after the timer of the fourth is
    due. *)
Lemma debounce_trace_witness :
  outstanding (run 100 [AForeignSet 45] (boot (Args:=string) 0)) = [] ∧
  ascending (now (run 100 [AForeignSet 45] (boot (Args:=string) 0)))
            [(0, "a"); (30, "b"); (200, "c"); (300, "d"); (450, "e")]%Z ∧
  let w0 := run 100 [AForeignSet 45] (boot (Args:=string) 0) in
  let w := settle (run_script 100
                     [mkCall (NextTask true) 0 "a"; mkCall SameTask 30 "b";
                      mkCall (NextTask true) 200 "c"; mkCall (NextTask false) 300 "d";
                      mkCall (NextTask true) 450 "e"] w0) in
  executions w = executions w0 ++ [(130, "b"); (400, "d"); (550, "e")]%Z ∧
  pending w = [].
Proof.
  assert (H : ascending (now (run 100 [AForeignSet 45] (boot (Args:=string) 0)))
            [(0, "a"); (30, "b"); (200, "c"); (300, "d"); (450, "e")]%Z) by (simpl; lia).
  split; [reflexivity|]. split; [exact H|].
  exact (debounce_trace 100 [AForeignSet 45] 0
           [mkCall (NextTask true) 0 "a"; mkCall SameTask 30 "b";
            mkCall (NextTask true) 200 "c"; mkCall (NextTask false) 300 "d";
            mkCall (NextTask true) 450 "e"] eq_refl H).
Defined.

(** Two calls in one task with [wait = 0], and a call exactly [wait] after
    the one before: the first run [func] once, the second depends on which
    the host runs first. *)
Example survivors_example :
  executions (settle (run_script 0 [mkCall (NextTask true) 0 "a"; mkCall SameTask 0 "b"]
                        (boot 0))) = [(0%Z, "b")] ∧
  executions (settle (run_script 100 [mkCall (NextTask true) 0 "a";
                                      mkCall (NextTask true) 100 "b"] (boot 0)))
    = [(100%Z, "a"); (200%Z, "b")] ∧
  executions (settle (run_script 100 [mkCall (NextTask true) 0 "a";
                                      mkCall (NextTask false) 100 "b"] (boot 0)))
    = [(200%Z, "b")].
Proof. repeat split. Qed.

Lemma debounce_last_call_runs_witness :
  outstanding (run 100 [] (boot (Args:=string) 0)) = [] ∧
  ascending (now (run 100 [] (boot (Args:=string) 0)))
            ([(0, "a"); (200, "b")]%Z ++ [(250%Z, "c")]) ∧
  let w0 := run 100 [] (boot (Args:=string) 0) in
  let w := settle (run_script 100 ([mkCall (NextTask true) 0 "a"; mkCall (NextTask true) 200 "b"]
                                   ++ [mkCall (NextTask true) 250 "c"]) w0) in
  ∃ earlier, executions w = executions w0 ++ (stamp 100 <$> earlier) ++ [(350%Z, "c")] ∧
             sublist earlier [mkCall (NextTask true) 0 "a"; mkCall (NextTask true) 200 "b"].
Proof.
  assert (H : ascending (now (run 100 [] (boot (Args:=string) 0)))
                ([(0, "a"); (200, "b")]%Z ++ [(250%Z, "c")])) by (simpl; lia).
  split; [reflexivity|]. split; [exact H|].
  exact (debounce_last_call_runs 100 [] 0
           [mkCall (NextTask true) 0 "a"; mkCall (NextTask true) 200 "b"]
           (mkCall (NextTask true) 250 "c") eq_refl H).
Defined.

(** Three calls of one task with [wait = 0], the clock moving on by 40 ms
    between them. *)
Lemma debounce_same_task_witness :
  outstanding (run 0 [] (boot (Args:=string) 5)) = [] ∧
  ascending (now (run 0 [] (boot (Args:=string) 5))) [(5, "a"); (45, "b"); (85, "c")]%Z ∧
  Forall (λ c', turn c' = SameTask) [mkCall SameTask 45 "b"; mkCall SameTask 85 "c"] ∧
  let w0 := run 0 [] (boot (Args:=string) 5) in
  let w := run_script 0 (mkCall (NextTask true) 5 "a" ::
                         [mkCall SameTask 45 "b"; mkCall SameTask 85 "c"]) w0 in
  executions w = executions w0 ∧
  executions (settle w) = executions w0 ++ [(85%Z, "c")] ∧
  pending (settle w) = [].
Proof.
  assert (H : ascending (now (run 0 [] (boot (Args:=string) 5)))
                [(5, "a"); (45, "b"); (85, "c")]%Z) by (simpl; lia).
  assert (H' : Forall (λ c' : Call string, turn c' = SameTask)
                 [mkCall SameTask 45 "b"; mkCall SameTask 85 "c"])
    by (repeat constructor).
  split; [reflexivity|]. split; [exact H|]. split; [exact H'|].
  exact (debounce_same_task 0 [] 5 (mkCall (NextTask true) 5%Z "a")
           [mkCall SameTask 45 "b"; mkCall SameTask 85 "c"] eq_refl H H').
Defined.

Lemma debounce_never_early_witness :
  (170%Z, "b") ∈ executions (run 100 [ACall 0 "a"; ACall 30 "b"; AFire 1 170] (boot 0)) ∧
  ∃ tc, (tc, "b") ∈ calls_made 100 [ACall 0 "a"; ACall 30 "b"; AFire 1 170] (boot 0) ∧
        (tc + timer_delay 100 ≤ 170)%Z ∧
        ((1 ≤ 100 ≤ 2147483647)%Z → (tc + 100 ≤ 170)%Z).
Proof.
  assert (H : (170%Z, "b") ∈
              executions (run 100 [ACall 0 "a"; ACall 30 "b"; AFire 1 170] (boot 0)))
    by (vm_compute; left).
  split; [exact H|].
  exact (debounce_never_early 100 [ACall 0 "a"; ACall 30 "b"; AFire 1 170] 0 170 "b" H).
Defined.

End DebounceMore.

(** ** Part 6: the tracker, further properties *)

Module TrackerMore.
Import Binary64 Binary64Facts Tracker TrackerFacts.
Local Open Scope js_scope.

Implicit Types (s : ScrollAnimations) (e : Element) (d item : ElementData)
  (l : list ElementData) (r : option Element) (o : gset Element).

(** *** The threshold of [isInViewport] *)

Lemma in_band_iff rect wh ww t :
  in_band rect wh ww t = true ↔
  (rect_top rect <= fmul wh (fsub 1 t))%Q ∧ (fmul wh t <= rect_bottom rect)%Q ∧
  (rect_left rect <= ww)%Q ∧ (0 <= rect_right rect)%Q.
Proof. unfold in_band. rewrite !andb_true_iff, !Qle_bool_iff. tauto. Qed.

Lemma viewport_test_meets g e t :
  (0 <= windowHeight g)%Q → (0 <= t <= 1)%Q →
  viewport_test g e (Some t) = true → meets_viewport g e.
Proof.
  intros Hwh [Ht0 Ht1]. unfold viewport_test. simpl.
  intros (Htop & Hbot & Hleft & Hright)%in_band_iff.
  pose proof (band_top_le g t Hwh Ht0 Ht1) as Hup.
  pose proof (fmul_nonneg _ _ Hwh Ht0) as Hlow.
  split_and!; [|..|done|done]; lra.
Qed.

(** *** Every reveal-only procedure is a sequence of elementary changes *)

Lemma step_sound s s' : step s s' → sound s → sound s'.
Proof.
  intros [e s0|e i d o s0 Hf Hd Ho] Hs; [by apply sound_note|by eapply sound_reveal_at].
Qed.

Lemma steps_sound s s' : steps s s' → sound s → sound s'.
Proof. induction 1 as [|s1 s2 s3 H12 _ IH]; [done|]. intros Hs. by eapply IH, step_sound. Qed.

Lemma animateElement_steps r s : sound s → steps s (snd (animateElement r s)).
Proof.
  intros ([o Ho] & _). destruct r as [e|]; [|rewrite animateElement_null; apply rtc_refl].
  rewrite (animateElement_eq e s o Ho). simpl.
  destruct (find_entry (Some e) (elements s)) as [[i d]|] eqn:Hf; [|apply rtc_refl].
  destruct (animated d) eqn:Hd; [apply rtc_refl|].
  apply rtc_once. by eapply step_reveal.
Qed.

Lemma animateElement_normal r s :
  sound s → animateElement r s = (Normal tt, snd (animateElement r s)).
Proof. intros Hs. by destruct (animateElement_spec r s Hs) as (s' & -> & _). Qed.

Lemma observerCallback_steps entries s :
  sound s → steps s (snd (observerCallback entries s)).
Proof.
  revert s. induction entries as [|entry rest IH]; intros s Hs; [apply rtc_refl|].
  simpl. unfold bind. destruct (isIntersecting entry).
  - rewrite (animateElement_normal _ s Hs).
    pose proof (animateElement_steps (Some (target entry)) s Hs) as H1.
    etrans; [exact H1|]. apply IH. by eapply steps_sound.
  - simpl. by apply IH.
Qed.

Lemma check_item_steps g item s :
  sound s →
  ∃ s', check_item g item s = (Normal tt, s') ∧ steps s s'.
Proof.
  intros Hs. rewrite check_item_eq. destruct (animated item); [by eexists|].
  pose proof (sound_note (element item) s Hs) as Hs1.
  assert (H1 : steps s (note (GetBoundingClientRect (element item)) s))
    by apply rtc_once, step_query.
  destruct (viewport_test g (element item) None); [|by eexists].
  rewrite (animateElement_normal _ _ Hs1). eexists. split; [done|].
  etrans; [exact H1|]. by apply animateElement_steps.
Qed.

Lemma checkElementsInView_steps g s :
  sound s → steps s (snd (checkElementsInView g s)).
Proof.
  intros Hs. unfold checkElementsInView, forEach, bind at 1, get_elements.
  destruct (triple_forEach_from (λ _ s', sound s' ∧ steps s s') (check_item g) 0
              (length (elements s))) with (s := s) as ([] & s' & -> & _ & Hsteps).
  - intros j item _ s1 [[Hs1 Hst] _].
    destruct (check_item_steps g item s1 Hs1) as (s2 & Heq & H12).
    exists tt, s2. split; [done|]. split; [by eapply steps_sound|by etrans].
  - by intros j s1 _ H _.
  - split; [done|apply rtc_refl].
  - done.
Qed.

(** *** What the observer callback reveals *)

Lemma stable_tracked s s' e : stable s s' → tracked s' e = tracked s e.
Proof. intros Hst. unfold tracked. by rewrite (stable_refs _ _ Hst). Qed.

Lemma revealed_tracked s e : revealed s e = true → tracked s e = true.
Proof.
  unfold revealed, tracked. intros Hrev. apply bool_decide_eq_true_2.
  destruct (find_entry (Some e) (elements s)) as [[i d]|] eqn:Hf; [|done].
  apply find_entry_Some in Hf as (Hi & <- & _).
  apply list_elem_of_fmap. exists d. split; [done|]. by eapply list_elem_of_lookup_2.
Qed.

Lemma animateElement_reveals t e s :
  sound s →
  revealed (snd (animateElement (Some t) s)) e =
  revealed s e || (bool_decide (e = t) && tracked s e).
Proof.
  intros Hs. destruct (decide (e = t)) as [->|Hne].
  - rewrite bool_decide_eq_true_2 by done. simpl.
    destruct (tracked s t) eqn:Htr.
    + apply bool_decide_eq_true_1 in Htr.
      rewrite animateElement_revealed by done. by rewrite orb_true_r.
    + apply bool_decide_eq_false_1 in Htr. rewrite orb_false_r.
      destruct (Hs) as ([o Ho] & _). rewrite (animateElement_eq t s o Ho). simpl.
      apply find_entry_None in Htr. by rewrite Htr.
  - rewrite bool_decide_eq_false_2 by done. simpl. rewrite orb_false_r.
    by apply animateElement_other.
Qed.

Lemma observerCallback_reveals entries s e :
  sound s →
  revealed (snd (observerCallback entries s)) e =
  revealed s e || (tracked s e && bool_decide (e ∈ reported entries)).
Proof.
  revert s. induction entries as [|entry rest IH]; intros s Hs.
  - change (snd (observerCallback [] s)) with s.
    rewrite (bool_decide_eq_false_2 (e ∈ reported [])) by apply not_elem_of_nil.
    by rewrite andb_false_r, orb_false_r.
  - simpl observerCallback. unfold bind, reported. rewrite filter_cons.
    destruct (isIntersecting entry) eqn:Hint.
    + rewrite decide_True by done. csimpl. fold (reported rest).
      destruct (animateElement_spec (Some (target entry)) s Hs) as (s1 & Heq & Hs1 & Hst).
      pose proof (animateElement_reveals (target entry) e s Hs) as Hrev.
      rewrite Heq in Hrev |- *. simpl in Hrev.
      rewrite (IH s1 Hs1), Hrev, (stable_tracked s s1 e Hst).
      destruct (decide (e = target entry)) as [->|Hne].
      * rewrite (bool_decide_eq_true_2 (target entry = target entry)) by done.
        rewrite (bool_decide_eq_true_2 (target entry ∈ target entry :: reported rest))
          by left.
        destruct (revealed s (target entry)), (tracked s (target entry)); done.
      * rewrite (bool_decide_eq_false_2 (e = target entry)) by done. simpl.
        rewrite orb_false_r. do 2 f_equal. apply bool_decide_ext.
        rewrite elem_of_cons. tauto.
    + rewrite decide_False by done. simpl. by apply IH.
Qed.

(** *** What a rescan reveals lies at the viewport *)

(** *** The observer's targets *)

Lemma watching_step s s' : step s s' → watching s → watching s'.
Proof.
  intros [e0 s0|e0 i d o s0 Hf Hd Ho] Hw; [exact Hw|].
  pose proof Hf as (Hi & He0 & _)%find_entry_Some.
  pose proof (refs_insert_mark i d (elements s0) Hi) as Hrefs.
  assert (Hobs : ∀ e, observed (reveal_at i d o s0) e ↔ observed s0 e ∧ e ≠ e0).
  { intros e. unfold observed. simpl. rewrite Ho, He0. split.
    - intros (o' & [= <-] & [Hin Hne]%elem_of_difference). split; [by eexists|].
      by rewrite elem_of_singleton in Hne.
    - intros [(o' & [= <-] & Hin) Hne]. eexists. split; [done|].
      apply elem_of_difference. by rewrite elem_of_singleton. }
  assert (Htr : ∀ e, tracked (reveal_at i d o s0) e = tracked s0 e).
  { intros e. unfold tracked. simpl. by rewrite Hrefs. }
  assert (Htw : ∀ e, registered_twice (reveal_at i d o s0) e ↔ registered_twice s0 e).
  { intros e. unfold registered_twice. simpl. by rewrite Hrefs. }
  intros e. destruct (Hw e) as (H1 & H2 & H3).
  rewrite Hobs, Htr, Htw, (revealed_reveal_at e e0) by done.
  destruct (decide (e = e0)) as [->|Hne]; split_and!; try tauto; done.
Qed.

Lemma watching_steps s s' : steps s s' → watching s → watching s'.
Proof. induction 1 as [|s1 s2 s3 H12 _ IH]; [done|]. intros Hw. by eapply IH, watching_step. Qed.

Lemma watching_add e ty o s :
  observer s = Some o → watching s →
  watching (mkState (elements s ++ [mkData e ty false]) (Some ({[e]} ∪ o))
                    (calls s ++ [Observe e])).
Proof.
  intros Ho Hw e'. destruct (Hw e') as (H1 & H2 & H3).
  set (s' := mkState _ _ _).
  assert (Hrev : revealed s' e' = revealed s e').
  { unfold s'. rewrite (revealed_snoc e' _ _ _ (observer s) _ (calls s)) by done.
    by destruct s. }
  assert (Hobs : observed s' e' ↔ e' = e ∨ observed s e').
  { unfold observed, s'. simpl. rewrite Ho. split.
    - intros (o' & [= <-] & [Hin%elem_of_singleton|Hin]%elem_of_union); [by left|].
      right. by eexists.
    - intros [->|(o' & [= <-] & Hin)]; (eexists; split; [done|]);
        apply elem_of_union; [left; by apply elem_of_singleton | by right]. }
  assert (Htr : tracked s' e' = true ↔ e' = e ∨ tracked s e' = true).
  { unfold tracked, s'. simpl. rewrite !bool_decide_eq_true, fmap_app, elem_of_app.
    simpl. rewrite list_elem_of_singleton. tauto. }
  assert (Htw : registered_twice s e' → registered_twice s' e').
  { intros (i & j & Hij & Hi & Hj). exists i, j. unfold s'. simpl.
    rewrite fmap_app. split_and!; [done|by apply lookup_app_l_Some..]. }
  rewrite Hrev, Hobs, Htr. split_and!.
  - intros [->|Hobs']; [by left|right; by apply H1].
  - intros [->|Htracked] Hunrev; [by left|right; by apply H2].
  - intros [->|Hobs'] Hrevealed; [|by apply Htw, H3].
    apply revealed_tracked, bool_decide_eq_true_1 in Hrevealed.
    apply list_elem_of_lookup in Hrevealed as [i Hi].
    exists i, (length (element <$> elements s)). unfold s'. simpl. rewrite fmap_app.
    split_and!.
    + by eapply lookup_lt_Some.
    + by apply lookup_app_l_Some.
    + rewrite lookup_app_r, Nat.sub_diag by done. done.
Qed.

Lemma watching_constructor : watching (snd constructor).
Proof.
  intros e. split_and!.
  - intros (o & [= <-] & Hin). by apply elem_of_empty in Hin.
  - done.
  - done.
Qed.

Lemma run_op_watching op s :
  sound s → watching s → watching (snd (run_op op s)).
Proof.
  intros Hs Hw. destruct op as [r ty|r|entries|g]; simpl.
  - destruct r as [e|]; [|done]. destruct (Hs) as ([o Ho] & _).
    rewrite (addElement_eq e ty s o Ho). by apply watching_add.
  - eapply watching_steps; [by apply animateElement_steps|done].
  - eapply watching_steps; [by apply observerCallback_steps|done].
  - eapply watching_steps; [by apply checkElementsInView_steps|done].
Qed.

Lemma exec_watching ops s : sound s → watching s → watching (exec ops s).
Proof.
  revert s. induction ops as [|op ops IH]; intros s Hs Hw; [done|].
  simpl. apply IH.
  - destruct (run_op_spec op s Hs) as (s' & -> & Hs' & _). done.
  - by apply run_op_watching.
Qed.

(** *** Elementary changes: what they keep *)

Lemma step_revealed s s' e : step s s' → revealed s e = true → revealed s' e = true.
Proof.
  intros [e0 s0|e0 i d o s0 Hf Hd Ho] Hrev; [done|].
  rewrite (revealed_reveal_at e e0) by done. by destruct (decide _).
Qed.

Lemma steps_revealed s s' e : steps s s' → revealed s e = true → revealed s' e = true.
Proof.
  induction 1 as [|s1 s2 s3 H12 _ IH]; [done|]. intros Hrev.
  by eapply IH, step_revealed.
Qed.

Lemma steps_observer s s' o :
  steps s s' → observer s = Some o →
  ∃ o', observer s' = Some o' ∧ ∀ e, e ∈ o' ↔ e ∈ o ∧ revealed s' e = revealed s e.
Proof.
  intros Hsteps. revert o. induction Hsteps as [s|s s1 s' H1 Hrest IH]; intros o Ho.
  - exists o. split; [done|]. intros e. tauto.
  - destruct H1 as [e0 s|e0 i d o0 s Hf Hd Ho0]; [by apply IH|].
    rewrite Ho in Ho0. injection Ho0 as <-.
    pose proof Hf as (_ & He0 & _)%find_entry_Some.
    destruct (IH (o ∖ {[element d]}) eq_refl) as (o' & Ho' & Hchar).
    exists o'. split; [done|]. intros e. rewrite Hchar, He0.
    rewrite (revealed_reveal_at e e0) by done.
    rewrite elem_of_difference, elem_of_singleton.
    destruct (decide (e = e0)) as [->|Hne]; [|tauto].
    assert (Hbefore : revealed s e0 = false) by (unfold revealed; by rewrite Hf).
    assert (Hafter : revealed s' e0 = true).
    { eapply steps_revealed; [exact Hrest|].
      rewrite (revealed_reveal_at e0 e0) by done. by rewrite decide_True. }
    rewrite Hbefore, Hafter. split; [tauto|]. by intros [_ ?].
Qed.

(** A sequence of elementary changes either reveals something, or it only
    queries geometry. *)
Lemma steps_cases s s' :
  steps s s' →
  length (unrevealed s') < length (unrevealed s) ∨
  (elements s' = elements s ∧ observer s' = observer s ∧
   ∃ es, calls s' = calls s ++ (GetBoundingClientRect <$> es)).
Proof.
  induction 1 as [s|s s1 s' H1 _ IH].
  - right. split_and!; [done..|]. exists []. by rewrite app_nil_r.
  - destruct H1 as [e0 s|e0 i d o s Hf Hd Ho].
    + destruct IH as [Hlt|(Hel & Hob & es & Hcs)]; [by left|]. right.
      split_and!; [done..|]. exists (e0 :: es). rewrite Hcs. simpl. by rewrite <- app_assoc.
    + left. apply find_entry_Some in Hf as (Hi & _).
      pose proof (unrevealed_insert_mark i d (elements s) Hi Hd) as Hcount.
      assert (Hle : length (unrevealed s') ≤ length (unrevealed (reveal_at i d o s))).
      { destruct IH as [?|(Hel & _)]; [lia|]. unfold unrevealed. by rewrite Hel. }
      unfold unrevealed in *. simpl in *. lia.
Qed.

(** Objects that come from the same collection by flag flips and reveal the
    same elements are the same objects. *)
Lemma same_reveals_same_elements l0 s1 s2 :
  sound s1 → sound s2 →
  Forall2 flips l0 (elements s1) → Forall2 flips l0 (elements s2) →
  (∀ e, revealed s1 e = revealed s2 e) →
  elements s1 = elements s2.
Proof.
  intros Hs1 Hs2 Hf1 Hf2 Hrev.
  assert (Hrefs : element <$> elements s1 = element <$> elements s2).
  { by rewrite (Forall2_flips_refs _ _ Hf1), (Forall2_flips_refs _ _ Hf2). }
  assert (Hone : ∀ sa sb j d da db,
    sound sb → element <$> elements sa = element <$> elements sb →
    (∀ e, revealed sa e = revealed sb e) →
    elements sa !! j = Some da → elements sb !! j = Some db →
    da = d → animated d = false → db = mark_animated d → False).
  { intros sa sb j d da db (_ & _ & Hfirst) Hr Hre Hja Hjb -> Hd ->.
    pose proof (Hfirst j _ Hjb eq_refl) as Hfb. simpl in Hfb.
    assert (Hb : revealed sb (element d) = true) by (unfold revealed; by rewrite Hfb).
    destruct (find_entry_same_refs _ _ (elements sa) _ _ Hr Hfb) as (d' & Hfa & Hd' & _).
    rewrite <- Hre in Hb. unfold revealed in Hb. rewrite Hfa in Hb. congruence. }
  apply list_eq. intros j.
  destruct (l0 !! j) as [d|] eqn:Hj.
  - destruct (Forall2_lookup_l _ _ _ _ _ Hf1 Hj) as (d1 & Hj1 & Hd1).
    destruct (Forall2_lookup_l _ _ _ _ _ Hf2 Hj) as (d2 & Hj2 & Hd2).
    rewrite Hj1, Hj2. f_equal.
    destruct Hd1 as [->|[Hd ->]], Hd2 as [->|[Hd' ->]]; [done| | |done]; exfalso.
    + by eapply (Hone s1 s2 j d).
    + by eapply (Hone s2 s1 j d).
  - apply lookup_ge_None in Hj.
    rewrite !(proj2 (lookup_ge_None _ _)); [done|..].
    + by rewrite <- (Forall2_length _ _ _ Hf2).
    + by rewrite <- (Forall2_length _ _ _ Hf1).
Qed.

(** *** Registrations *)

Lemma exec_bootstrap es s o :
  observer s = Some o →
  exec (bootstrap es) s =
  mkState (elements s ++ ((λ e, mkData e "fadeInScale" false) <$> es))
          (Some (list_to_set es ∪ o))
          (calls s ++ (Observe <$> es)).
Proof.
  revert s o. induction es as [|e es IH]; intros s o Ho.
  - simpl. rewrite !app_nil_r, (left_id_L ∅ (∪)). destruct s; simpl in *. by subst.
  - change (bootstrap (e :: es))
      with (OpAddElement (Some e) (Some "fadeInScale"%string) :: bootstrap es).
    rewrite exec_cons.
    change (run_op (OpAddElement (Some e) (Some "fadeInScale"%string)))
      with (addElement (Some e) (Some "fadeInScale"%string)).
    rewrite (addElement_eq e _ s o Ho). simpl snd.
    rewrite (IH _ ({[e]} ∪ o)) by done. simpl.
    rewrite <- !app_assoc. f_equal. f_equal.
    apply set_eq. intros x. rewrite !elem_of_union, elem_of_singleton. tauto.
Qed.

Lemma examined_queries (es : list Element) : examined (GetBoundingClientRect <$> es) = es.
Proof. induction es as [|e es IH]; [done|]. unfold examined in *. csimpl. by rewrite IH. Qed.

(** *** Properties of the tracker beyond the claims *)

(** X6 ([isInViewport], the threshold).  For a window height that is not
    negative the test gets stricter as the threshold grows: an element that
    passes with a threshold passes with every smaller one. *)
Theorem isInViewport_threshold_monotone (g : Layout) (e : Element) (t1 t2 : Q) :
  (0 <= windowHeight g)%Q → (t1 <= t2)%Q →
  viewport_test g e (Some t2) = true → viewport_test g e (Some t1) = true.
Proof.
  intros Hwh Ht. unfold viewport_test. simpl. rewrite !in_band_iff.
  intros (Htop & Hbot & Hleft & Hright).
  pose proof (fmul_le_r (windowHeight g) _ _ Hwh (fsub_le_r t1 t2 Ht)) as Hup.
  pose proof (fmul_le_r (windowHeight g) t1 t2 Hwh Ht) as Hlow.
  split_and!; [|..|done|done]; lra.
Qed.

(** Element 3 of the sample page passes with 10% and hence with 0. *)
Lemma isInViewport_threshold_monotone_witness :
  (0 <= windowHeight page)%Q ∧ (0 <= 1 # 10)%Q ∧
  viewport_test page 3 (Some (1 # 10)) = true ∧
  viewport_test page 3 (Some 0%Q) = true.
Proof.
  assert (H1 : (0 <= windowHeight page)%Q) by (vm_compute; congruence).
  assert (H2 : (0 <= 1 # 10)%Q) by (vm_compute; congruence).
  assert (H3 : viewport_test page 3 (Some (1 # 10)) = true) by reflexivity.
  split_and!; [exact H1|exact H2|exact H3|].
  exact (isInViewport_threshold_monotone page 3 0 (1 # 10) H1 H2 H3).
Defined.

(** X7 (the rescan reveals only at the viewport).  For a window height that
    is not negative, an element that a rescan reveals is tracked and its
    bounding box reaches into the viewport rectangle: its top edge is not
    below the window, its bottom edge not above it, its left edge not right
    of it, its right edge not left of it. *)
Theorem rescan_reveals_at_viewport (ops : list Op) (g : Layout) (e : Element) :
  (0 <= windowHeight g)%Q →
  revealed (history ops) e = false →
  revealed (snd (checkElementsInView g (history ops))) e = true →
  tracked (history ops) e = true ∧ meets_viewport g e.
Proof.
  intros Hwh Hbefore Hafter.
  destruct (checkElementsInView_spec g _ (history_sound ops)) as (s' & Heq & _ & _ & Hrev & _).
  rewrite Heq, Hrev, Hbefore in Hafter. simpl in Hafter.
  apply andb_true_iff in Hafter as [Hv Htr]. split; [done|].
  apply (viewport_test_meets g e default_threshold);
    [done|apply default_threshold_unit|done].
Qed.

(** Element 3 of the sample page, revealed by a rescan. *)
Lemma rescan_reveals_at_viewport_witness :
  (0 <= windowHeight page)%Q ∧
  revealed (history (registered [3; 2])) 3 = false ∧
  revealed (snd (checkElementsInView page (history (registered [3; 2])))) 3 = true ∧
  tracked (history (registered [3; 2])) 3 = true ∧ meets_viewport page 3.
Proof.
  assert (H1 : (0 <= windowHeight page)%Q) by (vm_compute; congruence).
  split_and!; [exact H1|reflexivity|reflexivity|..];
    apply (rescan_reveals_at_viewport (registered [3; 2]) page 3 H1 eq_refl eq_refl).
Defined.

(** X8 (the observer callback).  The callback of the observer completes
    normally and reveals exactly the tracked targets of the entries that
    report an intersection: an element is revealed afterwards if it was
    before or it is tracked and such a target; entries that report no
    intersection and targets that were never registered change nothing. *)
Theorem observer_callback_reveals (ops : list Op)
    (entries : list IntersectionObserverEntry) (e : Element) :
  let s := history ops in
  fst (observerCallback entries s) = Normal tt ∧
  revealed (snd (observerCallback entries s)) e =
  revealed s e || (tracked s e && bool_decide (e ∈ reported entries)).
Proof.
  intros s. pose proof (history_sound ops) as Hs. split.
  - by destruct (observerCallback_spec entries s Hs) as (s' & -> & _).
  - by apply observerCallback_reveals.
Qed.

(** X9 (the observer's targets).  After any history every target of the
    observer is a tracked element and every tracked element that is not
    revealed is a target; when no element was registered twice the targets
    are exactly the tracked elements that are not revealed. *)
Theorem observer_watches_unrevealed (ops : list Op) (e : Element) :
  let s := history ops in
  (observed s e → tracked s e = true) ∧
  (tracked s e = true → revealed s e = false → observed s e) ∧
  (NoDup (element <$> elements s) → observed s e → revealed s e = false).
Proof.
  intros s.
  destruct (exec_watching ops _ sound_constructor watching_constructor e) as (H1 & H2 & H3).
  split_and!; [done..|].
  intros Hnd Hobs. apply not_true_is_false. intros Hrev.
  destruct (H3 Hobs Hrev) as (i & j & Hij & Hi & Hj).
  pose proof (NoDup_lookup _ _ _ _ Hnd Hi Hj). lia.
Qed.

(** Element 2 of the sample page stays below the fold and stays a target. *)
Lemma observer_watches_unrevealed_witness :
  let s := history (registered [1; 2] ++ [OpCheckElementsInView page]) in
  tracked s 2 = true ∧ revealed s 2 = false ∧ observed s 2.
Proof.
  split_and!; [reflexivity|reflexivity|].
  exact (proj1 (proj2 (observer_watches_unrevealed
                         (registered [1; 2] ++ [OpCheckElementsInView page]) 2))
               eq_refl eq_refl).
Defined.

(** X10 (a rescan is idempotent).  A second rescan under the same layout
    changes neither the collection nor the observer: it only queries, once
    more, the geometry of the objects that are still unflagged. *)
Theorem rescan_idempotent (ops : list Op) (g : Layout) :
  let s1 := snd (checkElementsInView g (history ops)) in
  let s2 := snd (checkElementsInView g s1) in
  elements s2 = elements s1 ∧ observer s2 = observer s1 ∧
  emitted (checkElementsInView g) s1 = GetBoundingClientRect <$> (element <$> unrevealed s1).
Proof.
  intros s1 s2. pose proof (history_sound ops) as Hs.
  destruct (checkElementsInView_spec g _ Hs) as (s1' & Heq1 & Hs1 & Hst1 & Hrev1 & _).
  assert (s1' = s1) as -> by (unfold s1; by rewrite Heq1).
  destruct (checkElementsInView_spec g s1 Hs1) as (s2' & Heq2 & Hs2 & Hst2 & Hrev2 & Hex).
  assert (s2' = s2) as -> by (unfold s2; by rewrite Heq2).
  assert (Hel : elements s1 = elements s2).
  { apply (same_reveals_same_elements (elements s1)); [done..|apply Forall2_flips_refl| |].
    - by destruct Hst2.
    - intros e. rewrite Hrev2, Hrev1, (stable_tracked _ _ e Hst1).
      by destruct (revealed (history ops) e), (viewport_test g e None),
                  (tracked (history ops) e). }
  pose proof (checkElementsInView_steps g s1 Hs1) as Hsteps. fold s2 in Hsteps.
  destruct (steps_cases _ _ Hsteps) as [Hlt|(_ & Hob & es & Hcs)].
  { unfold unrevealed in Hlt. rewrite Hel in Hlt. lia. }
  split_and!; [done..|].
  assert (Hem : emitted (checkElementsInView g) s1 = GetBoundingClientRect <$> es).
  { unfold emitted. fold s2. by rewrite Hcs, drop_app_length. }
  rewrite Hem in Hex |- *. by rewrite examined_queries in Hex; subst.
Qed.

(** X11 (whichever path fires first).  A rescan followed by an observer
    callback and the same callback followed by the same rescan leave the
    same collection and the same observer targets: the order of the two
    paths does not matter for what is revealed. *)
Theorem reveal_order_irrelevant (ops : list Op) (g : Layout)
    (entries : list IntersectionObserverEntry) :
  let s := history ops in
  let poll_first := snd (observerCallback entries (snd (checkElementsInView g s))) in
  let observer_first := snd (checkElementsInView g (snd (observerCallback entries s))) in
  elements poll_first = elements observer_first ∧
  observer poll_first = observer observer_first.
Proof.
  intros s a b. pose proof (history_sound ops) as Hs. fold s in Hs.
  destruct (checkElementsInView_spec g s Hs) as (a1 & Ha1 & Hsa1 & Hsta1 & Hreva1 & _).
  destruct (observerCallback_spec entries a1 Hsa1) as (a' & Ha & Hsa & Hsta).
  destruct (observerCallback_spec entries s Hs) as (b1 & Hb1 & Hsb1 & Hstb1).
  destruct (checkElementsInView_spec g b1 Hsb1) as (b' & Hb & Hsb & Hstb & Hrevb & _).
  assert (a' = a) as -> by (unfold a; rewrite Ha1; simpl; by rewrite Ha).
  assert (b' = b) as -> by (unfold b; rewrite Hb1; simpl; by rewrite Hb).
  assert (Hrev : ∀ e, revealed a e = revealed b e).
  { intros e. rewrite Hrevb.
    pose proof (observerCallback_reveals entries a1 e Hsa1) as H1.
    pose proof (observerCallback_reveals entries s e Hs) as H2.
    rewrite Ha in H1. rewrite Hb1 in H2. simpl in H1, H2.
    rewrite H1, H2, Hreva1, (stable_tracked _ _ e Hsta1), (stable_tracked _ _ e Hstb1).
    by destruct (revealed s e), (viewport_test g e None), (tracked s e),
                (bool_decide (e ∈ reported entries)). }
  assert (Hstepsa : steps s a).
  { etrans; [by apply (checkElementsInView_steps g)|].
    rewrite Ha1. simpl. pose proof (observerCallback_steps entries a1 Hsa1) as H.
    by rewrite Ha in H. }
  assert (Hstepsb : steps s b).
  { etrans; [by apply (observerCallback_steps entries)|].
    rewrite Hb1. simpl. pose proof (checkElementsInView_steps g b1 Hsb1) as H.
    by rewrite Hb in H. }
  split.
  - apply (same_reveals_same_elements (elements s)); [done..| | |done].
    + by destruct (stable_trans _ _ _ Hsta1 Hsta).
    + by destruct (stable_trans _ _ _ Hstb1 Hstb).
  - destruct (Hs) as ([o Ho] & _).
    destruct (steps_observer _ _ o Hstepsa Ho) as (oa & -> & Hoa).
    destruct (steps_observer _ _ o Hstepsb Ho) as (ob & -> & Hob).
    f_equal. apply set_eq. intros e. by rewrite Hoa, Hob, Hrev.
Qed.

(** X12 (the collection lists the registrations).  After any history the
    collection holds, in the order of the calls, exactly the elements that
    [addElement] was given, [null] left out: nothing is ever removed or
    reordered, and a repeated registration appears again. *)
Theorem collection_lists_registrations (ops : list Op) :
  element <$> elements (history ops) = registrations ops.
Proof. unfold history. by rewrite (exec_refs ops _ sound_constructor). Qed.

(** X13 (the bootstrap).  After the bootstrap has registered the matched
    nodes, the collection holds one unflagged object of kind ['fadeInScale']
    per node, in order, the observer watches exactly these nodes, and the
    host calls so far are the scroll listener and one [observe] per node. *)
Theorem bootstrap_registers_all (circles : list Element) :
  history (bootstrap circles) =
  mkState ((λ e, mkData e "fadeInScale" false) <$> circles)
          (Some (list_to_set circles))
          (AddEventListener "scroll" :: (Observe <$> circles)).
Proof.
  unfold history. rewrite (exec_bootstrap circles _ ∅) by done. simpl.
  by rewrite (right_id_L ∅ (∪)).
Qed.

End TrackerMore.

(** ** Part 7: the scroll handler, proofs *)

Module ScrollMore.
Import Tracker TrackerFacts TrackerMore ScrollHandler.
Import Debounce DebounceFacts DebounceMore.

Section Scroll.
Context {host : TimerHost}.

Lemma idle_boot (t0 : Z) : idle [] (boot (Args:=unit) t0).
Proof. split_and!; [apply well_formed_boot|done..]. Qed.

(** The host takes the delay of 16 ms as it is. *)
Lemma scroll_delay : delay scroll_wait = 16%Z.
Proof. apply timer_delay_exact. unfold scroll_wait. lia. Qed.

Lemma scroll_executions (t0 : Z) (cs : list (Z * unit)) :
  ascending t0 cs →
  executions (settle (run_calls scroll_wait cs (boot t0))) =
  stamp scroll_wait <$> survivors scroll_wait (own_task <$> cs).
Proof.
  intros Hasc. rewrite run_calls_script.
  destruct (run_script_settled scroll_wait (own_task <$> cs) [] (boot t0) (idle_boot t0))
    as [Hex _]; [by rewrite called_own_task|]. exact Hex.
Qed.

Lemma burst_executions (t0 t : Z) (ts : list Z) :
  (t0 ≤ t)%Z → burst scroll_wait t (scroll_calls ts) →
  executions (settle (run_calls scroll_wait (scroll_calls (t :: ts)) (boot t0))) =
  [((List.last ts t + 16)%Z, tt)].
Proof.
  intros Ht Hb. rewrite scroll_executions.
  2:{ split; [done|]. by eapply burst_ascending. }
  change (own_task <$> scroll_calls (t :: ts))
    with (own_task (t, tt) :: (own_task <$> scroll_calls ts)).
  rewrite survivors_burst.
  2:{ rewrite called_own_task, scroll_delay. exact Hb. }
  simpl. unfold stamp. rewrite scroll_delay.
  rewrite (last_fmap own_task (scroll_calls ts) (t, tt)).
  unfold scroll_calls. rewrite (last_fmap (λ t, (t, tt)) ts t). done.
Qed.

Lemma extends_tracked s s' e : extends s s' → tracked s e = true → tracked s' e = true.
Proof.
  intros ([k Hk] & _). unfold tracked. rewrite !bool_decide_eq_true, Hk, elem_of_app.
  by left.
Qed.

(** X14 (a burst of scroll events).  Scroll events that follow each other
    in less than 16 ms lead to one rescan only, made 16 ms after the last
    of them under the layout of that moment. *)
Theorem scroll_burst_one_rescan (layout_at : Z → Layout) (t0 t : Z) (ts : list Z)
    (s : ScrollAnimations) :
  (t0 ≤ t)%Z → burst scroll_wait t (scroll_calls ts) →
  scroll_session layout_at t0 (t :: ts) s =
  snd (checkElementsInView (layout_at (List.last ts t + 16)%Z) s).
Proof.
  intros Ht Hb. unfold scroll_session. by rewrite burst_executions.
Qed.

(** X15 (the rescan after scrolling stops).  For scroll events at times
    that do not run backwards the handler makes no more rescans than there
    were events, and the last rescan comes 16 ms after the last event: a
    tracked element that passes [isInViewport] under the layout of that
    moment is revealed when the session is over. *)
Theorem scrolling_ends_with_rescan (layout_at : Z → Layout) (t0 t : Z) (ts : list Z)
    (ops : list Op) (e : Element) :
  ascending t0 (scroll_calls (ts ++ [t])) →
  tracked (history ops) e = true →
  viewport_test (layout_at (t + 16)%Z) e None = true →
  revealed (scroll_session layout_at t0 (ts ++ [t]) (history ops)) e = true ∧
  length (executions (settle (run_calls scroll_wait (scroll_calls (ts ++ [t])) (boot t0))))
  ≤ length (ts ++ [t]).
Proof.
  intros Hasc Htr Hv. unfold scroll_session.
  rewrite (scroll_executions t0 _ Hasc).
  unfold scroll_calls. rewrite !fmap_app. simpl.
  destruct (survivors_last scroll_wait (own_task <$> ((λ t, (t, tt)) <$> ts))
              (own_task (t, tt))) as (l & -> & Hsub).
  split.
  - rewrite fmap_app. unfold rescans. rewrite fmap_app. simpl. rewrite exec_snoc.
    change (run_op (OpCheckElementsInView ?g)) with (checkElementsInView g).
    set (s1 := exec _ (history ops)).
    destruct (exec_spec ((λ x, OpCheckElementsInView (layout_at (fst x))) <$>
                 (stamp scroll_wait <$> l)) _ (history_sound ops)) as [Hs1 Hext].
    fold s1 in Hs1, Hext.
    destruct (checkElementsInView_spec (layout_at (t + delay scroll_wait)%Z) s1 Hs1)
      as (s' & -> & _ & _ & Hrev & _).
    simpl. rewrite Hrev, scroll_delay.
    by rewrite Hv, (extends_tracked _ _ e Hext Htr), orb_true_r.
  - rewrite length_fmap, !length_app. apply sublist_length in Hsub.
    rewrite !length_fmap in Hsub. simpl. lia.
Qed.

End Scroll.

Lemma scroll_burst_one_rescan_witness :
  (0 ≤ 0)%Z ∧ burst scroll_wait 0 (scroll_calls [5; 12; 20]%Z) ∧
  scroll_session (λ _, page) 0 (0%Z :: [5; 12; 20]%Z) (history (registered [3])) =
  snd (checkElementsInView ((λ _, page) (List.last [5; 12; 20]%Z 0%Z + 16)%Z)
         (history (registered [3]))).
Proof.
  assert (H : burst scroll_wait 0 (scroll_calls [5; 12; 20]%Z))
    by (unfold scroll_wait; simpl; lia).
  split; [lia|]. split; [exact H|].
  exact (scroll_burst_one_rescan (λ _, page) 0 0 [5; 12; 20]%Z (history (registered [3]))
           ltac:(lia) H).
Defined.

Lemma scrolling_ends_with_rescan_witness :
  ascending 0 (scroll_calls ([0; 5; 100]%Z ++ [130%Z])) ∧
  tracked (history (registered [3])) 3 = true ∧
  viewport_test ((λ _, page) (130 + 16)%Z) 3 None = true ∧
  revealed (scroll_session (λ _, page) 0 ([0; 5; 100]%Z ++ [130%Z]) (history (registered [3]))) 3
  = true ∧
  length (executions (settle (run_calls scroll_wait (scroll_calls ([0; 5; 100]%Z ++ [130%Z]))
                                (boot 0))))
  ≤ length ([0; 5; 100]%Z ++ [130%Z]).
Proof.
  assert (H : ascending 0 (scroll_calls ([0; 5; 100]%Z ++ [130%Z]))) by (simpl; lia).
  split; [exact H|]. split; [reflexivity|]. split; [reflexivity|].
  exact (scrolling_ends_with_rescan (λ _, page) 0 130 [0; 5; 100]%Z (registered [3]) 3
           H eq_refl eq_refl).
Defined.

End ScrollMore.

(** ** Part 8: the hamburger menu, proofs *)

Module HamburgerFacts.
Import Hamburger.
Local Open Scope menu_scope.

Implicit Types (m : HamburgerMenu) (n : Node) (ev : Event) (evs : list Event).

(** *** The procedures on an instance with a node *)

Lemma toggle_eq m n :
  element m = Some n →
  toggle m =
  (Tracker.Normal tt,
   mkMenu (Some (mkNode (Some (toggle_token "active" (tokens n)))
                        (<["aria-expanded" := toString (negb (isActive m))]> (attributes n))
                        (transform n)))
          (negb (isActive m))
          (calls m ++ [DispatchMenuToggle (negb (isActive m))])
          (resets m) (clock m)).
Proof.
  intros Hn. unfold toggle, bind, get_isActive, set_isActive, classList_toggle,
    setAttribute, this_element, set_element, host, bind. simpl. by rewrite Hn.
Qed.

Lemma toggle_null m :
  element m = None →
  toggle m =
  (Tracker.Throw Tracker.TypeError,
   mkMenu None (negb (isActive m)) (calls m) (resets m) (clock m)).
Proof.
  intros Hn. unfold toggle, bind, get_isActive, set_isActive, classList_toggle,
    this_element, bind. simpl. by rewrite Hn.
Qed.

Lemma addClickAnimation_eq m n :
  element m = Some n →
  addClickAnimation m =
  (Tracker.Normal tt,
   mkMenu (Some (mkNode (classList n) (attributes n) "scale(0.95)"))
          (isActive m) (calls m ++ [SetTimeout 150])
          (resets m ++ [(clock m + 150)%Z]) (clock m)).
Proof.
  intros Hn. unfold addClickAnimation, bind, set_transform, this_element, set_element,
    setTimeout_reset, bind. simpl. by rewrite Hn.
Qed.

Lemma run_resets_eq k m n :
  element m = Some n →
  run_resets k m =
  (Tracker.Normal tt,
   mkMenu (Some (match k with
                 | O => n
                 | S _ => mkNode (classList n) (attributes n) "scale(1)"
                 end))
          (isActive m) (calls m) (resets m) (clock m)).
Proof.
  revert m n. induction k as [|k IH]; intros m n Hn.
  - destruct m; simpl in *. by subst.
  - simpl. unfold bind, reset_scale, set_transform, this_element, set_element, bind.
    rewrite Hn. rewrite (IH _ (mkNode (classList n) (attributes n) "scale(1)")) by done.
    by destruct k.
Qed.

Lemma tick_eq t m n :
  element m = Some n →
  tick t m =
  (Tracker.Normal tt,
   mkMenu (Some (match length (filter (λ d, (d ≤ t)%Z) (resets m)) with
                 | O => n
                 | S _ => mkNode (classList n) (attributes n) "scale(1)"
                 end))
          (isActive m) (calls m)
          (filter (λ d, ¬ (d ≤ t)%Z) (resets m)) (Z.max (clock m) t)).
Proof. intros Hn. unfold tick. by rewrite (run_resets_eq _ _ n). Qed.

Lemma handleClick_eq m n :
  element m = Some n →
  handleClick m =
  (Tracker.Normal tt,
   mkMenu (Some (mkNode (Some (toggle_token "active" (tokens n)))
                        (<["aria-expanded" := toString (negb (isActive m))]> (attributes n))
                        "scale(0.95)"))
          (negb (isActive m))
          (calls m ++ [PreventDefault; DispatchMenuToggle (negb (isActive m)); SetTimeout 150])
          (resets m ++ [(clock m + 150)%Z]) (clock m)).
Proof.
  intros Hn. unfold handleClick, bind at 1 2, host at 1.
  rewrite (toggle_eq _ n) by done. unfold bind. simpl.
  erewrite addClickAnimation_eq by reflexivity. simpl.
  by rewrite <- !app_assoc.
Qed.

Lemma handleKeydown_eq key m n :
  element m = Some n →
  toggles (Keydown key) = true →
  handleKeydown key m =
  (Tracker.Normal tt,
   mkMenu (Some (mkNode (Some (toggle_token "active" (tokens n)))
                        (<["aria-expanded" := toString (negb (isActive m))]> (attributes n))
                        (transform n)))
          (negb (isActive m))
          (calls m ++ [PreventDefault; DispatchMenuToggle (negb (isActive m))])
          (resets m) (clock m)).
Proof.
  intros Hn Hk. unfold handleKeydown. simpl in Hk. rewrite Hk.
  unfold bind at 1, host at 1. rewrite (toggle_eq _ n) by done. simpl.
  by rewrite <- !app_assoc.
Qed.

Lemma handleKeydown_other key m :
  toggles (Keydown key) = false → handleKeydown key m = (Tracker.Normal tt, m).
Proof. intros Hk. unfold handleKeydown. simpl in Hk. by rewrite Hk. Qed.

(** *** Tokens and details *)

Lemma filter_other_fixed (a : string) (l : list string) :
  a ∉ l → filter (λ x, x ≠ a) l = l.
Proof.
  intros Ha. induction l as [|x l IH]; [done|].
  apply not_elem_of_cons in Ha as [Hx Hl].
  rewrite filter_cons_True by done. by rewrite IH.
Qed.

Lemma filter_other_without (a : string) (l : list string) : a ∉ filter (λ x, x ≠ a) l.
Proof. intros [H _]%list_elem_of_filter. done. Qed.

(** One more toggle of ['active'] after [k] of them. *)
Lemma toggle_token_toggled (k : nat) (n0 : Node) :
  Some (toggle_token "active" (default [] (toggled k n0))) = toggled (S k) n0.
Proof.
  unfold toggled at 2. f_equal. rewrite Nat.odd_succ, <- Nat.negb_odd.
  set (F := filter (λ x, x ≠ "active") (tokens n0)).
  pose proof (filter_other_without "active" (tokens n0)) as HF. fold F in HF.
  destruct k as [|k].
  - simpl. fold (tokens n0). unfold toggle_token.
    destruct (decide ("active" ∈ tokens n0)) as [Hin|Hout].
    + rewrite (bool_decide_eq_true_2 _ Hin). simpl. by rewrite app_nil_r.
    + rewrite (bool_decide_eq_false_2 _ Hout). simpl. unfold F.
      by rewrite filter_other_fixed.
  - unfold toggled. fold F. simpl default.
    destruct (xorb (Nat.odd (S k)) (bool_decide ("active" ∈ tokens n0))) eqn:Hb.
    + replace (xorb (negb (Nat.odd (S k))) (bool_decide ("active" ∈ tokens n0)))
        with false by (destruct (Nat.odd (S k)), (bool_decide _); done).
      unfold toggle_token. rewrite decide_True by (apply elem_of_app; right; left).
      rewrite filter_app, (filter_other_fixed _ F HF), filter_cons_False by (by intros []).
      done.
    + replace (xorb (negb (Nat.odd (S k))) (bool_decide ("active" ∈ tokens n0)))
        with true by (destruct (Nat.odd (S k)), (bool_decide _); done).
      unfold toggle_token. rewrite app_nil_r. by rewrite decide_False.
Qed.

(** Two toggles of a token: the other tokens keep their order, the token
    itself is there as before, behind them. *)
Lemma toggle_token_twice (a : string) (l : list string) :
  toggle_token a (toggle_token a l) =
  filter (λ x, x ≠ a) l ++ (if bool_decide (a ∈ l) then [a] else []).
Proof.
  pose proof (filter_other_without a l) as HF.
  unfold toggle_token at 2. destruct (decide (a ∈ l)) as [Hin|Hout].
  - rewrite (bool_decide_eq_true_2 _ Hin). unfold toggle_token. by rewrite decide_False.
  - rewrite (bool_decide_eq_false_2 _ Hout). unfold toggle_token.
    rewrite decide_True by (apply elem_of_app; right; left).
    rewrite filter_app, filter_cons_False by (by intros []).
    by rewrite filter_nil.
Qed.

Lemma toggle_token_twice_elem (a x : string) (l : list string) :
  x ∈ toggle_token a (toggle_token a l) ↔ x ∈ l.
Proof.
  rewrite toggle_token_twice, elem_of_app, list_elem_of_filter.
  destruct (decide (a ∈ l)) as [Hin|Hout].
  - rewrite (bool_decide_eq_true_2 _ Hin), list_elem_of_singleton.
    destruct (decide (x = a)) as [->|]; tauto.
  - rewrite (bool_decide_eq_false_2 _ Hout), elem_of_nil.
    destruct (decide (x = a)) as [->|]; tauto.
Qed.

Lemma details_app (cs cs' : list MenuCall) : details (cs ++ cs') = details cs ++ details cs'.
Proof. apply omap_app. Qed.

Lemma alternating_S k : alternating (S k) = alternating k ++ [negb (Nat.odd k)].
Proof.
  unfold alternating. rewrite seq_S, fmap_app. simpl. by rewrite Nat.negb_odd.
Qed.

(** *** The invariants *)

Lemma in_sync_constructor n0 t0 : in_sync n0 0 (snd (constructor (Some n0) t0)).
Proof.
  eexists. split; [reflexivity|]. simpl. split_and!; try done.
  apply insert_insert_ne. done.
Qed.

Lemma animating_constructor n0 t0 : animating n0 false (snd (constructor (Some n0) t0)).
Proof. eexists. split; [reflexivity|]. simpl. split_and!; [constructor|done|done]. Qed.

Lemma toggle_in_sync n0 k m :
  in_sync n0 k m →
  ∃ m', toggle m = (Tracker.Normal tt, m') ∧ in_sync n0 (S k) m' ∧
        resets m' = resets m ∧ clock m' = clock m ∧
        transform <$> element m' = transform <$> element m ∧
        calls m' = calls m ++ [DispatchMenuToggle (negb (isActive m))].
Proof.
  intros (n & Hn & Ha & Hc & Hat & Hd).
  eexists. split; [apply (toggle_eq _ n Hn)|]. simpl.
  split_and!; try done; [|by rewrite Hn].
  eexists. split; [reflexivity|]. simpl. split_and!.
  - by rewrite Ha, Nat.odd_succ, Nat.negb_odd.
  - unfold tokens. rewrite Hc. apply toggle_token_toggled.
  - rewrite Hat. apply insert_insert_eq.
  - rewrite details_app, Hd, alternating_S. simpl. by rewrite Ha.
Qed.

Lemma filter_none_due (t : Z) (l : list Z) :
  filter (λ d, (d ≤ t)%Z) l = [] → filter (λ d, ¬ (d ≤ t)%Z) l = l.
Proof.
  induction l as [|d l IH]; [done|]. intros H.
  destruct (decide (d ≤ t)%Z) as [Hd|Hd].
  - by rewrite filter_cons_True in H.
  - rewrite filter_cons_False in H by done. rewrite filter_cons_True by done.
    by rewrite IH.
Qed.

Lemma filter_all_due (t : Z) (l : list Z) :
  Forall (λ d, (d ≤ t)%Z) l → filter (λ d, ¬ (d ≤ t)%Z) l = [].
Proof.
  induction 1 as [|d l Hd _ IH]; [done|].
  rewrite filter_cons_False; [done|tauto].
Qed.

Lemma run_event_spec n0 k c ev m :
  in_sync n0 k m → animating n0 c m →
  fst (run_event ev m) = Tracker.Normal tt ∧
  in_sync n0 (if toggles ev then S k else k) (snd (run_event ev m)) ∧
  animating n0 (c || clicks ev) (snd (run_event ev m)).
Proof.
  intros Hs Ha.
  destruct (toggle_in_sync _ _ _ Hs) as (m' & Ht & Hs' & Hr & Hk & Htr & Hcs).
  destruct Hs as (n & Hn & Hs). rewrite (toggle_eq _ n Hn) in Ht.
  injection Ht as <-. destruct Hs' as (n' & Hn' & Ha' & Hc' & Hat' & Hd').
  simpl in *. injection Hn' as <-. simpl in *.
  destruct Ha as (n1 & Hn1 & Hf & Hc). rewrite Hn in Hn1. injection Hn1 as <-.
  destruct ev as [|key|t]; simpl.
  - rewrite (handleClick_eq _ n Hn). simpl. split_and!; [done| |].
    + eexists. split; [reflexivity|]. simpl. split_and!; try done.
      rewrite details_app. rewrite details_app in Hd'. simpl in *. done.
    + rewrite orb_true_r. eexists. split; [reflexivity|]. simpl. split.
      * apply Forall_app. split; [done|]. constructor; [lia|constructor].
      * left. split; [done|]. by destruct (resets m).
  - rewrite orb_false_r.
    destruct (bool_decide (key = "Enter") || bool_decide (key = " ")) eqn:Hkey.
    + rewrite (handleKeydown_eq _ _ n Hn Hkey). simpl. split_and!; [done| |].
      * eexists. split; [reflexivity|]. simpl. split_and!; try done.
        rewrite details_app. rewrite details_app in Hd'. simpl in *. done.
      * eexists. split; [reflexivity|]. simpl. done.
    + rewrite (handleKeydown_other _ _ Hkey). simpl. split_and!; [done| |].
      * by exists n.
      * by exists n.
  - rewrite orb_false_r, (tick_eq _ _ n Hn). simpl. split_and!; [done| |].
    + eexists. split; [reflexivity|]. simpl.
      by destruct (length (filter (λ d, (d ≤ t)%Z) (resets m))).
    + eexists. split; [reflexivity|]. simpl. split.
      * apply Forall_forall. intros d [_ Hd]%list_elem_of_filter.
        rewrite Forall_forall in Hf. specialize (Hf d Hd). simpl in Hf. lia.
      * destruct (filter (λ d, (d ≤ t)%Z) (resets m)) as [|d ds] eqn:Hdue; simpl.
        -- rewrite (filter_none_due _ _ Hdue). done.
        -- destruct c; [by right|]. destruct Hc as [_ Hc]. by rewrite Hc in Hdue.
Qed.

Lemma menu_exec_snoc evs ev m : exec (evs ++ [ev]) m = snd (run_event ev (exec evs m)).
Proof. unfold exec. by rewrite fold_left_app. Qed.

Lemma history_snoc n0 t0 evs ev :
  history n0 t0 (evs ++ [ev]) = snd (run_event ev (history n0 t0 evs)).
Proof. apply menu_exec_snoc. Qed.

Lemma history_spec n0 t0 evs :
  in_sync n0 (length (filter (λ ev, toggles ev = true) evs)) (history n0 t0 evs) ∧
  animating n0 (existsb clicks evs) (history n0 t0 evs).
Proof.
  induction evs as [|ev evs IH] using rev_ind.
  - split; [apply in_sync_constructor|apply animating_constructor].
  - destruct IH as [Hs Ha].
    destruct (run_event_spec _ _ _ ev _ Hs Ha) as (_ & Hs' & Ha').
    rewrite history_snoc, filter_app, length_app, existsb_app. simpl.
    rewrite orb_false_r. split; [|done].
    destruct (toggles ev) eqn:Hev.
    + rewrite filter_cons_True by done. simpl. by rewrite Nat.add_1_r.
    + rewrite filter_cons_False by (by rewrite Hev). simpl. by rewrite Nat.add_0_r.
Qed.

(** *** Properties of the menu *)

(** X16. On an instance built on a node, after any clicks, keys and timer
    runs of which [k] toggle the menu (every click, every Enter or space
    key): [isActive] is true exactly when [k] is odd; the [class] attribute
    is the node's own if nothing was toggled, and otherwise holds the node's
    tokens other than ['active'] in their order, followed by ['active'] if
    [k] toggles from the node's own state leave it there; the content
    attributes other than [class] and [style] are the node's own with [role]
    set to [button] and [aria-expanded] set to [isActive]; and the
    [menuToggle] events dispatched carry true, false, true, ... in this
    order. *)
Theorem menu_state_in_sync n0 t0 evs :
  let k := length (filter (λ ev, toggles ev = true) evs) in
  let m := history n0 t0 evs in
  ∃ n, element m = Some n ∧
       isActive m = Nat.odd k ∧
       classList n =
         match k with
         | O => classList n0
         | S _ =>
             Some (filter (λ x, x ≠ "active") (tokens n0) ++
                   (if xorb (Nat.odd k) (bool_decide ("active" ∈ tokens n0))
                    then ["active"] else []))
         end ∧
       attributes n =
         <["aria-expanded" := toString (Nat.odd k)]>
           (<["role" := "button"]> (attributes n0)) ∧
       details (calls m) = alternating k.
Proof.
  intros k m. destruct (history_spec n0 t0 evs) as [(n & Hn & Ha & Hc & Hat & Hd) _].
  exists n. fold k m in Ha, Hc, Hat, Hd. rewrite Ha in Hat. done.
Qed.

(** X17. On an instance built on a node no handler ever throws: after any
    history, a click, a key and a timer run all return normally. *)
Theorem menu_events_never_throw n0 t0 evs ev :
  fst (run_event ev (history n0 t0 evs)) = Tracker.Normal tt.
Proof.
  destruct (history_spec n0 t0 evs) as [Hs Ha].
  by destruct (run_event_spec _ _ _ ev _ Hs Ha) as (? & _).
Qed.

(** X18. The keyboard never starts the press animation: whatever the key and
    the instance, [handleKeydown] leaves the transform of the node, the
    pending resets and the timers set as they were. *)
Theorem keydown_never_animates key m :
  let m' := snd (handleKeydown key m) in
  transform <$> element m' = transform <$> element m ∧
  resets m' = resets m ∧
  delays (calls m') = delays (calls m).
Proof.
  simpl. destruct (toggles (Keydown key)) eqn:Hk.
  - destruct (element m) as [n|] eqn:Hn.
    + rewrite (handleKeydown_eq _ _ n Hn Hk). simpl. split_and!; try done.
      unfold delays. rewrite omap_app. simpl. by rewrite app_nil_r.
    + unfold handleKeydown. simpl in Hk. rewrite Hk. unfold bind, host.
      rewrite toggle_null by done. simpl. split_and!; try done.
      unfold delays. rewrite omap_app. simpl. by rewrite app_nil_r.
  - by rewrite (handleKeydown_other _ _ Hk).
Qed.

(** X19. Toggling twice is a round trip but for the order of the tokens:
    after any history of an instance built on a node, two calls of [toggle]
    return normally and leave [isActive], the transform and the content
    attributes other than [class] and [style] exactly as they were, having
    dispatched two [menuToggle] events with opposite details; the [class]
    attribute holds the same tokens as before, the others in their order and
    ['active'], if it was there, behind them. *)
Theorem toggle_twice_restores n0 t0 evs :
  let m := history n0 t0 evs in
  ∃ m' n n', (toggle ;; toggle) m = (Tracker.Normal tt, m') ∧
        element m = Some n ∧ element m' = Some n' ∧
        isActive m' = isActive m ∧
        attributes n' = attributes n ∧
        transform n' = transform n ∧
        classList n' =
          Some (filter (λ x, x ≠ "active") (tokens n) ++
                (if bool_decide ("active" ∈ tokens n) then ["active"] else [])) ∧
        (∀ x, x ∈ tokens n' ↔ x ∈ tokens n) ∧
        calls m' = calls m ++ [DispatchMenuToggle (negb (isActive m));
                               DispatchMenuToggle (isActive m)].
Proof.
  intros m. destruct (history_spec n0 t0 evs) as [(n & Hn & _ & _ & Hat & _) _].
  fold m in Hn, Hat. eexists _, n, _. split.
  { unfold bind. rewrite (toggle_eq _ n Hn). erewrite toggle_eq by reflexivity.
    reflexivity. }
  simpl. rewrite negb_involutive, <- app_assoc. split_and!.
  - done.
  - done.
  - done.
  - by rewrite Hat, !insert_insert_eq.
  - done.
  - unfold tokens. simpl. f_equal. apply toggle_token_twice.
  - intros x. unfold tokens. simpl. apply toggle_token_twice_elem.
  - done.
Qed.

(** X20. [init] guards a missing element, [toggle] does not: on an instance
    without element a click throws a TypeError, after [isActive] was
    flipped, and nothing is dispatched and no animation is started. *)
Theorem click_without_element_throws m :
  element m = None →
  handleClick m =
  (Tracker.Throw Tracker.TypeError,
   mkMenu None (negb (isActive m)) (calls m ++ [PreventDefault]) (resets m) (clock m)).
Proof.
  intros Hn. unfold handleClick, bind at 1 2, host at 1.
  by rewrite toggle_null.
Qed.

Lemma click_without_element_throws_witness :
  element (snd (constructor None 0)) = None ∧
  handleClick (snd (constructor None 0)) =
  (Tracker.Throw Tracker.TypeError, mkMenu None true [PreventDefault] [] 0).
Proof.
  split; [reflexivity|].
  exact (click_without_element_throws (snd (constructor None 0)) eq_refl).
Defined.

(** X21. The press animation ends: once 150 ms have passed on the clock of an
    instance built on a node and the host has run the timers due, no reset is
    pending and the transform is [scale(1)] if there was a click, and the
    node's own otherwise. *)
Theorem press_animation_ends n0 t0 evs (t : Z) :
  (clock (history n0 t0 evs) + 150 ≤ t)%Z →
  ∃ n, element (history n0 t0 (evs ++ [Tick t])) = Some n ∧
       resets (history n0 t0 (evs ++ [Tick t])) = [] ∧
       transform n = if existsb clicks evs then "scale(1)" else transform n0.
Proof.
  intros Ht. destruct (history_spec n0 t0 evs) as [Hs Ha].
  destruct (run_event_spec _ _ _ (Tick t) _ Hs Ha) as (_ & _ & (n & Hn & _ & Hc)).
  simpl clicks in Hc. rewrite orb_false_r in Hc.
  rewrite <- history_snoc in Hn. rewrite <- history_snoc in Hc.
  destruct Ha as (n1 & Hn1 & Hf & _).
  assert (Hr : resets (history n0 t0 (evs ++ [Tick t])) = []).
  { rewrite history_snoc. simpl. rewrite (tick_eq _ _ n1 Hn1). simpl.
    apply filter_all_due. eapply Forall_impl; [exact Hf|]. simpl. intros; lia. }
  exists n. split_and!; [done..|].
  destruct (existsb clicks evs).
  - destruct Hc as [[_ Hc]|Hc]; [by rewrite Hr in Hc|done].
  - by destruct Hc.
Qed.

Lemma press_animation_ends_witness :
  ∃ n, element (history (mkNode None ∅ "none") 0 ([Click; Tick 40; Click] ++ [Tick 200]))
         = Some n ∧
       resets (history (mkNode None ∅ "none") 0 ([Click; Tick 40; Click] ++ [Tick 200])) = [] ∧
       transform n = "scale(1)".
Proof.
  exact (press_animation_ends (mkNode None ∅ "none") 0 [Click; Tick 40; Click] 200
           ltac:(vm_compute; discriminate)).
Defined.

End HamburgerFacts.
